(** * go-price: a currency-safe money type on math/big.Float

    Shallow embedding of [price.go] (type [Price]) and of the charge ledger
    ([Charge], [Charges]), together with the parts of the Go runtime they
    rest on: [float64] arithmetic (IEEE 754 binary64, taken from the
    Standard Library's [SpecFloat]), the functions of package [math] that
    the rounding engine calls, and [math/big.Float]. *)

From stdpp Require Import gmap strings.
From Stdlib Require Import ZArith QArith Qabs Qpower Bool List Ascii String Lia Lqa.
From Stdlib Require Import SpecFloat.
Import ListNotations.

Local Open Scope Z_scope.

(** ** Run-time panics

    A Go call either returns or panics.  [math/big] panics with [ErrNaN]
    where IEEE 754 would produce a NaN. *)

Inductive outcome (A : Type) : Type :=
| Done (a : A)
| Panic (msg : string).
Arguments Done {A} a.
Arguments Panic {A} msg.

Definition bind {A B : Type} (c : outcome A) (k : A -> outcome B) : outcome B :=
  match c with
  | Done a => k a
  | Panic msg => Panic msg
  end.

Notation "'do' x <- c ; k" := (bind c (fun x => k))
  (at level 10, x name, c at level 100, k at level 200).

(** A Go [error] value: [nil] or a message. *)
Definition error := option string.

(** ** Machine integers *)

Definition MaxInt64 : Z := 2 ^ 63 - 1.
Definition MinInt64 : Z := - 2 ^ 63.

(** Two's complement wrap-around of [int64] arithmetic. *)
Definition wrap64 (n : Z) : Z := (n + 2 ^ 63) mod 2 ^ 64 - 2 ^ 63.

Definition in_int64 (n : Z) : bool := (MinInt64 <=? n) && (n <=? MaxInt64).

(** ** float64 *)

Definition float64 := spec_float.

Definition f64_prec : Z := 53.
Definition f64_emax : Z := 1024.

Definition f64_round (s : bool) (m : positive) (e : Z) : float64 :=
  binary_round f64_prec f64_emax s m e.

(** [float64(n)] for an integer [n]: the nearest float64, ties to even. *)
Definition f64_of_Z (n : Z) : float64 :=
  binary_normalize f64_prec f64_emax n 0 false.

(** A decimal literal [num/den] with both parts exactly representable: the
    compiler rounds the exact quotient to the nearest float64. *)
Definition f64_lit (num den : Z) : float64 :=
  SFdiv f64_prec f64_emax (f64_of_Z num) (f64_of_Z den).

Definition f64_mul : float64 -> float64 -> float64 := SFmul f64_prec f64_emax.
Definition f64_div : float64 -> float64 -> float64 := SFdiv f64_prec f64_emax.

(** Go's comparison operators on float64; every comparison with NaN is false. *)
Definition f64_gt (a b : float64) : bool := SFltb b a.
Definition f64_ge (a b : float64) : bool := SFleb b a.

(** The binary64 encoding of [m × 2^e] when that value is representable
    as it stands (at most 53 significant bits, [e] not below the exponent of
    the denormals): the mantissa is shifted up to 53 bits, or as far as the
    smallest exponent allows. *)
Definition f64_norm (s : bool) (m : positive) (e : Z) : float64 :=
  let k := Z.max 0 (Z.min (f64_prec - (Z.log2 (Zpos m) + 1)) (e + 1074)) in
  S754_finite s (Z.to_pos (Zpos m * 2 ^ k)) (e - k).

(** [math.Modf]: integer and fractional part, both carrying the sign of [f];
    [Modf(±Inf) = ±Inf, NaN]. *)
Definition math_Modf (f : float64) : float64 * float64 :=
  match f with
  | S754_nan => (S754_nan, S754_nan)
  | S754_infinity _ => (f, S754_nan)
  | S754_zero _ => (f, f)
  | S754_finite s m e =>
      if 0 <=? e then (f, S754_zero s)
      else
        let ip := Z.shiftr (Zpos m) (- e) in
        let fp := Z.land (Zpos m) (Z.ones (- e)) in
        (match ip with Zpos i => f64_norm s i 0 | _ => S754_zero s end,
         match fp with Zpos r => f64_norm s r e | _ => S754_zero s end)
  end.

(** [math.Round]: nearest integer, halves away from zero, sign kept. *)
Definition math_Round (x : float64) : float64 :=
  match x with
  | S754_finite s m e =>
      if 0 <=? e then x
      else
        match Z.shiftr (Zpos m + 2 ^ (- e - 1)) (- e) with
        | Zpos n => f64_norm s n 0
        | _ => S754_zero s
        end
  | _ => x
  end.

(** The integer a finite float64 truncates to (toward zero). *)
Definition f64_trunc (f : float64) : option Z :=
  match f with
  | S754_zero _ => Some 0
  | S754_finite s m e =>
      let a := if 0 <=? e then Z.shiftl (Zpos m) e else Z.shiftr (Zpos m) (- e) in
      Some (if s then - a else a)
  | _ => None
  end.

(** amd64: CVTTSD2SQ yields the "integer indefinite" value on overflow. *)
Definition cvt_amd64 (_ : float64) : Z := MinInt64.

(** ** math/big.Float

    A [Float] is [sign × mant × 2^exp] with a precision [prec] (the number
    of mantissa bits results are rounded to).  The program never calls
    [SetMode], so every Float has the zero rounding mode, [ToNearestEven],
    and the mode field is left out.  The Go representation keeps the
    mantissa as a word slice normalised to [0.5 <= 0.mant < 1] with its own
    exponent; here [mant] is the integer made of the significant bits and
    [exp] its binary weight, so Go's exponent is [exp + bitlen mant]
    ([gexp]).  Mantissa and exponent only mean something for a finite
    non-zero value and are carried by that form. *)

Inductive Accuracy := Below | Exact | Above.

Inductive form :=
| zero
| finite (mant : positive) (exp : Z)
| inf.

Record Float := mkFloat {
  prec : Z;        (* uint32 *)
  acc : Accuracy;
  fform : form;
  neg : bool
}.

Definition MaxExp : Z := 2 ^ 31 - 1.
Definition MinExp : Z := - 2 ^ 31.

Definition bitlen (m : positive) : Z := Z.log2 (Zpos m) + 1.

Definition gexp (m : positive) (e : Z) : Z := e + bitlen m.

(** The zero value [big.Float{}], also what [new(big.Float)] points to. *)
Definition Float_new : Float :=
  {| prec := 0; acc := Exact; fform := zero; neg := false |}.

Definition makeAcc (above : bool) : Accuracy := if above then Above else Below.

(** [z.round(sbit)] for a finite [z] in mode ToNearestEven: keep the top
    [p] bits of the mantissa, the rounding bit being the first bit dropped
    and the sticky bit the disjunction of the others and of [sbit]. *)
Definition Float_round (p : Z) (sign : bool) (m : positive) (e : Z) (sbit : bool)
  : form * Accuracy :=
  let bits := bitlen m in
  if bits <=? p then (finite m e, Exact)
  else
    let r := bits - p - 1 in
    let rbit := Z.testbit (Zpos m) r in
    let sbit := sbit || negb (Z.land (Zpos m) (Z.ones r) =? 0) in
    let q := Z.shiftr (Zpos m) (r + 1) in
    if rbit || sbit then
      let inc := rbit && (sbit || Z.odd q) in
      let a := makeAcc (xorb inc sign) in
      if inc then
        if q + 1 =? 2 ^ p then
          (* mantissa overflow => adjust exponent *)
          if MaxExp <=? gexp m e then (inf, a)
          else (finite (Z.to_pos (2 ^ (p - 1))) (e + r + 2), a)
        else (finite (Z.to_pos (q + 1)) (e + r + 1), a)
      else (finite (Z.to_pos q) (e + r + 1), a)
    else (finite (Z.to_pos q) (e + r + 1), Exact).

(** [z.setExpAndRound(exp, sbit)]. *)
Definition setExpAndRound (p : Z) (sign : bool) (m : positive) (e : Z) (sbit : bool)
  : form * Accuracy :=
  if gexp m e <? MinExp then (zero, makeAcc sign)
  else if MaxExp <? gexp m e then (inf, makeAcc (negb sign))
  else Float_round p sign m e sbit.

Definition umax32 (x y : Z) : Z := if y <? x then x else y.

(** Precision of the result: a receiver of precision 0 takes the larger
    precision of the operands. *)
Definition result_prec (z x y : Float) : Z :=
  if prec z =? 0 then umax32 (prec x) (prec y) else prec z.

(** [z.Set(x)]. *)
Definition Float_Set (z x : Float) : Float :=
  let p := if prec z =? 0 then prec x else prec z in
  match fform x with
  | finite m e =>
      if p <? prec x then
        let '(f, a) := Float_round p (neg x) m e false in
        {| prec := p; acc := a; fform := f; neg := neg x |}
      else {| prec := p; acc := Exact; fform := finite m e; neg := neg x |}
  | f => {| prec := p; acc := Exact; fform := f; neg := neg x |}
  end.

(** [z.Copy(x)]: all of [x], precision and accuracy included. *)
Definition Float_Copy (z x : Float) : Float := x.

Definition Float_Neg (z x : Float) : Float :=
  let r := Float_Set z x in
  {| prec := prec r; acc := acc r; fform := fform r; neg := negb (neg r) |}.

Definition Float_Abs (z x : Float) : Float :=
  let r := Float_Set z x in
  {| prec := prec r; acc := acc r; fform := fform r; neg := false |}.

(** [z.setBits64(neg, x)] and [z.SetInt64(x)]. *)
Definition Float_SetInt64 (z : Float) (x : Z) : Float :=
  let p := if prec z =? 0 then 64 else prec z in
  match Z.abs x with
  | Zpos u =>
      if p <? 64 then
        let '(f, a) := Float_round p (x <? 0) u 0 false in
        {| prec := p; acc := a; fform := f; neg := x <? 0 |}
      else {| prec := p; acc := Exact; fform := finite u 0; neg := x <? 0 |}
  | _ => {| prec := p; acc := Exact; fform := zero; neg := x <? 0 |}
  end.

(** [big.NewFloat(x)]: precision 53, the value of [x] exactly; panics on NaN. *)
Definition big_NewFloat (x : float64) : outcome Float :=
  match x with
  | S754_nan => Panic "NewFloat(NaN)"
  | S754_zero s => Done {| prec := 53; acc := Exact; fform := zero; neg := s |}
  | S754_infinity s => Done {| prec := 53; acc := Exact; fform := inf; neg := s |}
  | S754_finite s m e => Done {| prec := 53; acc := Exact; fform := finite m e; neg := s |}
  end.

(** [x.ucmp(y)]: compare magnitudes, exponents first, then the mantissas
    aligned at their most significant bit. *)
Definition ucmp (mx : positive) (ex : Z) (my : positive) (ey : Z) : comparison :=
  match gexp mx ex ?= gexp my ey with
  | Eq =>
      let l := Z.max (bitlen mx) (bitlen my) in
      Z.shiftl (Zpos mx) (l - bitlen mx) ?= Z.shiftl (Zpos my) (l - bitlen my)
  | c => c
  end.

Definition int_of_comparison (c : comparison) : Z :=
  match c with Lt => -1 | Eq => 0 | Gt => 1 end.

(** [x.ord()]: -2 for -Inf, -1 for x < 0, 0 for ±0, 1 for x > 0, 2 for +Inf. *)
Definition ord (x : Float) : Z :=
  let m := match fform x with finite _ _ => 1 | zero => 0 | inf => 2 end in
  if neg x then - m else m.

(** [x.Cmp(y)]: -1, 0 or +1. *)
Definition Float_Cmp (x y : Float) : Z :=
  if ord x <? ord y then -1
  else if ord y <? ord x then 1
  else
    match fform x, fform y with
    | finite mx ex, finite my ey =>
        if neg x then int_of_comparison (ucmp my ey mx ex)
        else int_of_comparison (ucmp mx ex my ey)
    | _, _ => 0
    end.

(** [z.uadd(x, y)] and [z.usub(x, y)] ([|x| > |y|] for the latter, else the
    operands cancel): the exact result on the smaller exponent, rounded. *)
Definition uadd (p : Z) (sign : bool) (mx : positive) (ex : Z) (my : positive) (ey : Z)
  : form * Accuracy :=
  let ez := Z.min ex ey in
  let m := Z.shiftl (Zpos mx) (ex - ez) + Z.shiftl (Zpos my) (ey - ez) in
  setExpAndRound p sign (Z.to_pos m) ez false.

Definition usub (p : Z) (sign : bool) (mx : positive) (ex : Z) (my : positive) (ey : Z)
  : form * Accuracy * bool :=
  let ez := Z.min ex ey in
  match Z.shiftl (Zpos mx) (ex - ez) - Z.shiftl (Zpos my) (ey - ez) with
  | Zpos m => (setExpAndRound p sign m ez false, sign)
  | _ => (zero, Exact, false)
  end.

(** Sum of [x] and of [y] with sign [yneg], the common part of Add and Sub
    on finite operands. *)
Definition add_finite (p : Z) (xneg : bool) (mx : positive) (ex : Z)
    (yneg : bool) (my : positive) (ey : Z) : Float :=
  if Bool.eqb xneg yneg then
    let '(f, a) := uadd p xneg mx ex my ey in
    {| prec := p; acc := a; fform := f; neg := xneg |}
  else
    match ucmp mx ex my ey with
    | Gt =>
        let '(f, a, s) := usub p xneg mx ex my ey in
        {| prec := p; acc := a; fform := f; neg := s |}
    | _ =>
        let '(f, a, s) := usub p (negb xneg) my ey mx ex in
        {| prec := p; acc := a; fform := f; neg := s |}
    end.

Definition with_prec (p : Z) (z : Float) : Float :=
  {| prec := p; acc := acc z; fform := fform z; neg := neg z |}.

(** [z.Add(x, y)]. *)
Definition Float_Add (z x y : Float) : outcome Float :=
  let p := result_prec z x y in
  match fform x, fform y with
  | finite mx ex, finite my ey => Done (add_finite p (neg x) mx ex (neg y) my ey)
  | inf, inf =>
      if Bool.eqb (neg x) (neg y) then Done (Float_Set (with_prec p z) x)
      else Panic "addition of infinities with opposite signs"
  | zero, zero =>
      Done {| prec := p; acc := Exact; fform := zero; neg := neg x && neg y |}
  | inf, _ | _, zero => Done (Float_Set (with_prec p z) x)
  | _, _ => Done (Float_Set (with_prec p z) y)
  end.

(** [z.Sub(x, y)]. *)
Definition Float_Sub (z x y : Float) : outcome Float :=
  let p := result_prec z x y in
  match fform x, fform y with
  | finite mx ex, finite my ey =>
      Done (add_finite p (neg x) mx ex (negb (neg y)) my ey)
  | inf, inf =>
      if Bool.eqb (neg x) (neg y)
      then Panic "subtraction of infinities with equal signs"
      else Done (Float_Set (with_prec p z) x)
  | zero, zero =>
      Done {| prec := p; acc := Exact; fform := zero; neg := neg x && negb (neg y) |}
  | inf, _ | _, zero => Done (Float_Set (with_prec p z) x)
  | _, _ => Done (Float_Neg (with_prec p z) y)
  end.

(** [z.Mul(x, y)]. *)
Definition Float_Mul (z x y : Float) : outcome Float :=
  let p := result_prec z x y in
  let s := xorb (neg x) (neg y) in
  match fform x, fform y with
  | finite mx ex, finite my ey =>
      let '(f, a) := setExpAndRound p s (mx * my)%positive (ex + ey) false in
      Done {| prec := p; acc := a; fform := f; neg := s |}
  | zero, inf | inf, zero => Panic "multiplication of zero with infinity"
  | inf, _ | _, inf => Done {| prec := p; acc := Exact; fform := inf; neg := s |}
  | _, _ => Done {| prec := p; acc := Exact; fform := zero; neg := s |}
  end.

(** [z.uquo(x, y)]: the dividend is extended until the integer quotient
    holds more than [p] bits, so that it includes the rounding bit; a
    non-zero remainder sets the sticky bit. *)
Definition uquo (p : Z) (sign : bool) (mx : positive) (ex : Z) (my : positive) (ey : Z)
  : form * Accuracy :=
  let d := Z.max 0 (p + 1 + bitlen my - bitlen mx) in
  let xadj := Z.shiftl (Zpos mx) d in
  let q := xadj / Zpos my in
  let r := xadj mod Zpos my in
  setExpAndRound p sign (Z.to_pos q) (ex - ey - d) (negb (r =? 0)).

(** [z.Quo(x, y)]. *)
Definition Float_Quo (z x y : Float) : outcome Float :=
  let p := result_prec z x y in
  let s := xorb (neg x) (neg y) in
  match fform x, fform y with
  | finite mx ex, finite my ey =>
      let '(f, a) := uquo p s mx ex my ey in
      Done {| prec := p; acc := a; fform := f; neg := s |}
  | zero, zero | inf, inf =>
      Panic "division of zero by zero or infinity by infinity"
  | zero, _ | _, inf => Done {| prec := p; acc := Exact; fform := zero; neg := s |}
  | _, _ => Done {| prec := p; acc := Exact; fform := inf; neg := s |}
  end.

(** [x.Float64()]: the float64 nearest to [x] (ties to even, denormals and
    overflow to infinity included); the accuracy result is dropped by every
    caller. *)
Definition Float_Float64 (x : Float) : float64 :=
  match fform x with
  | zero => S754_zero (neg x)
  | inf => S754_infinity (neg x)
  | finite m e => f64_round (neg x) m e
  end.

(** ** Strings *)

Definition is_ascii_byte (c : ascii) : bool := (nat_of_ascii c <? 128)%nat.

Definition ascii_lower (c : ascii) : ascii :=
  let n := nat_of_ascii c in
  if ((65 <=? n) && (n <=? 90))%nat then ascii_of_nat (n + 32) else c.

Fixpoint string_forall (f : ascii -> bool) (s : string) : bool :=
  match s with
  | EmptyString => true
  | String c r => f c && string_forall f r
  end.

Fixpoint string_map (f : ascii -> ascii) (s : string) : string :=
  match s with
  | EmptyString => EmptyString
  | String c r => String (f c) (string_map f r)
  end.

(** ** Price *)

Record Price := mkPrice {
  amount : Float;
  currency : string
}.

Definition RoundingModeFloor : string := "floor".
Definition RoundingModeCeil : string := "ceil".
Definition RoundingModeHalfUp : string := "halfup".
Definition RoundingModeHalfDown : string := "halfdown".

Definition err_currency : string := "cannot calculate prices in different currencies".

(** ChargeQualifier distinguishes charges by type and reference; it is the
    key of the ledger's map. *)
Record ChargeQualifier := mkChargeQualifier {
  qType : string;       (* Type *)
  qReference : string   (* Reference *)
}.

#[global] Instance ChargeQualifier_eq_dec : EqDecision ChargeQualifier.
Proof. solve_decision. Defined.

#[global] Instance ChargeQualifier_countable : Countable ChargeQualifier.
Proof.
  refine (inj_countable' (fun q => (qType q, qReference q))
                         (fun p => mkChargeQualifier (fst p) (snd p)) _).
  intros []; reflexivity.
Defined.

Section Platform.

(** The conversion [int64(f)] truncates toward zero.  When the truncated
    value does not fit (or [f] is NaN or infinite) "the conversion succeeds
    but the result value is implementation-dependent" (Go specification):
    [cvt_overflow] stands for what the platform yields then. *)
Variable cvt_overflow : float64 -> Z.

(** [strings.Map(unicode.ToLower, s)], which [strings.ToLower] falls back to
    for a string with a byte outside ASCII; the Unicode case tables are not
    reproduced. *)
Variable unicode_ToLower : string -> string.

Definition int64_of_f64 (f : float64) : Z :=
  match f64_trunc f with
  | Some n => if in_int64 n then n else wrap64 (cvt_overflow f)
  | None => wrap64 (cvt_overflow f)
  end.

Definition strings_ToLower (s : string) : string :=
  if string_forall is_ascii_byte s then string_map ascii_lower s
  else unicode_ToLower s.

Definition NewFromFloat (a : float64) (cur : string) : outcome Price :=
  do f <- big_NewFloat a;
  Done {| amount := f; currency := cur |}.

Definition NewFromBigFloat (a : Float) (cur : string) : Price :=
  {| amount := a; currency := cur |}.

Definition NewZero (cur : string) : Price :=
  {| amount := Float_SetInt64 Float_new 0; currency := cur |}.

Definition NewFromInt (a : Z) (precision : Z) (cur : string) : outcome Price :=
  let amountF := Float_SetInt64 Float_new a in
  if precision =? 0 then
    Done {| amount := Float_SetInt64 Float_new 0; currency := cur |}
  else
    let precicionF := Float_SetInt64 Float_new precision in
    do q <- Float_Quo Float_new amountF precicionF;
    Done {| amount := q; currency := cur |}.

Definition Price_Currency (p : Price) : string := currency p.
Definition Price_Amount (p : Price) : Float := amount p.

Definition Price_Equal (p cmp : Price) : bool :=
  if negb (String.eqb (currency p) (currency cmp)) then false
  else Float_Cmp (amount p) (amount cmp) =? 0.

Definition Price_LikelyEqual (p cmp : Price) : outcome bool :=
  if negb (String.eqb (currency p) (currency cmp)) then Done false
  else
    do diff <- Float_Sub Float_new (amount p) (amount cmp);
    let absDiff := Float_Abs Float_new diff in
    do tol <- big_NewFloat (f64_lit 1 1000000000);
    Done (Float_Cmp absDiff tol =? -1).

Definition Price_IsLessThen (p cmp : Price) : bool :=
  if negb (String.eqb (currency p) (currency cmp)) then false
  else Float_Cmp (amount p) (amount cmp) =? -1.

Definition Price_IsGreaterThen (p cmp : Price) : bool :=
  if negb (String.eqb (currency p) (currency cmp)) then false
  else Float_Cmp (amount p) (amount cmp) =? 1.

Definition Price_IsLessThenValue (p : Price) (a : Float) : bool :=
  Float_Cmp (amount p) a =? -1.

Definition Price_IsGreaterThenValue (p : Price) (a : Float) : bool :=
  Float_Cmp (amount p) a =? 1.

Definition Price_IsNegative (p : Price) : outcome bool :=
  do z <- big_NewFloat (f64_of_Z 0);
  Done (Price_IsLessThenValue p z).

Definition Price_IsPositive (p : Price) : outcome bool :=
  do z <- big_NewFloat (f64_of_Z 0);
  Done (Price_IsGreaterThenValue p z).

Definition Price_IsZero (p : Price) : outcome bool :=
  do a <- Price_LikelyEqual p (NewZero (Price_Currency p));
  if a then Done true
  else
    do z <- NewFromFloat (f64_of_Z 0) (Price_Currency p);
    Price_LikelyEqual p z.

(** The zero value [Price{currency: c}]. *)
Definition Price_blank (c : string) : Price :=
  {| amount := Float_new; currency := c |}.

Definition Price_currencyGuard (p check : Price) : outcome (Price * error) :=
  if String.eqb (currency p) (currency check) then
    Done (Price_blank (currency check), None)
  else
    do pz <- Price_IsZero p;
    if pz then Done (Price_blank (currency check), None)
    else
      do cz <- Price_IsZero check;
      if cz then Done (Price_blank (currency p), None)
      else Done (NewZero (currency p), Some err_currency).

Definition Price_Add (p add : Price) : outcome (Price * error) :=
  do g <- Price_currencyGuard p add;
  match g with
  | (newPrice, Some err) => Done (newPrice, Some err)
  | (newPrice, None) =>
      do s <- Float_Add (amount newPrice) (amount p) (amount add);
      Done ({| amount := s; currency := currency newPrice |}, None)
  end.

Definition Price_ForceAdd (p add : Price) : outcome Price :=
  do g <- Price_currencyGuard p add;
  match g with
  | (_, Some _) => Done p
  | (newPrice, None) =>
      do s <- Float_Add (amount newPrice) (amount p) (amount add);
      Done {| amount := s; currency := currency newPrice |}
  end.

Definition Price_Sub (p sub : Price) : outcome (Price * error) :=
  do g <- Price_currencyGuard p sub;
  match g with
  | (newPrice, Some err) => Done (newPrice, Some err)
  | (newPrice, None) =>
      do s <- Float_Sub (amount newPrice) (amount p) (amount sub);
      Done ({| amount := s; currency := currency newPrice |}, None)
  end.

Definition Price_Inverse (p : Price) : outcome Price :=
  do m1 <- big_NewFloat (f64_of_Z (-1));
  do a <- Float_Mul Float_new (amount p) m1;
  Done {| amount := a; currency := currency p |}.

Definition Price_Multiply (p : Price) (qty : Z) : outcome Price :=
  do a <- Float_Mul Float_new (amount p) (Float_SetInt64 Float_new qty);
  Done {| amount := a; currency := currency p |}.

Definition Price_FloatAmount (p : Price) : float64 := Float_Float64 (amount p).

Definition Price_precisionF (p : Price) (precision : Z) : Float :=
  Float_SetInt64 Float_new precision.

Definition Price_payableRoundingPrecision (p : Price) : string * Z :=
  if String.eqb (strings_ToLower (currency p)) "miles"
     || String.eqb (strings_ToLower (currency p)) "points"
  then (RoundingModeFloor, 1)
  else (RoundingModeHalfUp, 100).

(** The [switch mode] of GetPayableByRoundingMode: every case that fires
    performs [amountTruncatedInt = amountTruncatedInt + negative]; this is
    whether one does.  A mode that is none of the four constants falls to
    [default], which does nothing. *)
Definition mode_increments (mode : string) (negative : Z) (valueAfterPrecision : float64)
  : bool :=
  if String.eqb mode RoundingModeCeil then
    (negative =? 1) && f64_gt valueAfterPrecision (f64_of_Z 0)
  else if String.eqb mode RoundingModeHalfUp then
    f64_ge valueAfterPrecision (f64_of_Z 5)
  else if String.eqb mode RoundingModeHalfDown then
    f64_gt valueAfterPrecision (f64_of_Z 5)
  else if String.eqb mode RoundingModeFloor then
    (negative =? -1) && f64_gt valueAfterPrecision (f64_of_Z 0)
  else false.

Definition Price_GetPayableByRoundingMode (p : Price) (mode : string) (precision : Z)
  : outcome Price :=
  let amountForRound := Float_Copy Float_new (amount p) in
  do isneg <- Price_IsNegative p;
  let negative := if isneg then -1 else 1 in
  do scaled <- Float_Mul Float_new amountForRound (Price_precisionF p precision);
  let amountTruncatedFloat := Float_Float64 scaled in
  let '(integerPart, fractionalPart) := math_Modf amountTruncatedFloat in
  let amountTruncatedInt := int64_of_f64 integerPart in
  let valueAfterPrecision :=
    f64_mul (f64_div (math_Round (f64_mul fractionalPart (f64_of_Z 1000)))
                     (f64_of_Z 100))
            (f64_of_Z negative) in
  if f64_ge amountTruncatedFloat (f64_of_Z MaxInt64) then
    (* will not work if we are already above MaxInt - so we return unrounded price *)
    Done {| amount := amount p; currency := currency p |}
  else
    let amountTruncatedInt :=
      if mode_increments mode negative valueAfterPrecision
      then wrap64 (amountTruncatedInt + negative)
      else amountTruncatedInt in
    do amountRounded <- Float_Quo Float_new (Float_SetInt64 Float_new amountTruncatedInt)
                                  (Price_precisionF p precision);
    Done {| amount := amountRounded; currency := currency p |}.

Definition Price_GetPayable (p : Price) : outcome Price :=
  let '(mode, precision) := Price_payableRoundingPrecision p in
  Price_GetPayableByRoundingMode p mode precision.

Definition Price_IsPayable (p : Price) : outcome bool :=
  do q <- Price_GetPayable p;
  Done (Price_Equal q p).

Definition Price_Clone (p : Price) : Price :=
  {| amount := Float_Set Float_new (amount p); currency := currency p |}.

(** [for i := 0; i < n; i++ { a[i] = a[i] + 1 }]. *)
Definition incr_first (n : nat) (a : list Z) : list Z :=
  fold_left (fun a i => alter (fun v => wrap64 (v + 1)) i a) (seq 0 n) a.

Fixpoint mapM {A B : Type} (f : A -> outcome B) (l : list A) : outcome (list B) :=
  match l with
  | [] => Done []
  | a :: r => do b <- f a; do bs <- mapM f r; Done (b :: bs)
  end.

Definition err_split : string := "split must be higher than zero".

(** [make([]T, n)] for elements of [size] bytes, every element being [v]:
    [runtime.makeslice] panics when the length is negative or the slice
    would take more than [maxAlloc] bytes, which is 2^48 where addresses
    have 48 bits (amd64, arm64).  Below that limit the memory the slice
    needs is not accounted for: a process that cannot get it is killed, it
    does not panic. *)
Definition maxAlloc : Z := 2 ^ 48.

Definition err_makeslice : string := "runtime error: makeslice: len out of range".

Definition makeslice {A : Type} (size : Z) (v : A) (n : Z) : outcome (list A) :=
  if (n <? 0) || (maxAlloc <? size * n) then Panic err_makeslice
  else Done (replicate (Z.to_nat n) v).

(** Sizes in bytes of an [int64] and of a [Price]: a [big.Float] of 40
    bytes (precision, mode, accuracy, form and sign in 8, the mantissa slice
    in 24, the exponent in 4, padded to a multiple of 8) and a string header
    of 16. *)
Definition sizeof_int64 : Z := 8.
Definition sizeof_Price : Z := 56.

(** [int] is taken to be 64 bits wide; slices are lists ([nil] is the empty
    list).  The first loop writes [splittedAmount] into every element of the
    slice just made, the last one writes every element of [prices]. *)
Definition Price_SplitInPayables (p : Price) (count : Z) : outcome (list Price * error) :=
  if count <=? 0 then Done ([], Some err_split)
  else
    let '(_, precision) := Price_payableRoundingPrecision p in
    do payable <- Price_GetPayable p;
    do isneg <- Price_IsNegative p;
    do amount0 <-
      (if isneg then
         do payable' <- Price_GetPayable p;
         do inv <- Price_Inverse payable';
         Done (Price_Amount inv)
       else Done (Price_Amount payable));
    do scaled <- Float_Mul Float_new amount0 (Price_precisionF p precision);
    let amountToMatchFloat := Float_Float64 scaled in
    let amountToMatchInt := int64_of_f64 amountToMatchFloat in
    let splittedAmountModulo := Z.rem amountToMatchInt count in
    let splittedAmount := Z.quot amountToMatchInt count in
    do splittedAmounts <- makeslice sizeof_int64 0 count;
    let splittedAmounts := map (fun _ => splittedAmount) splittedAmounts in
    let splittedAmounts := incr_first (Z.to_nat splittedAmountModulo) splittedAmounts in
    do prices <- makeslice sizeof_Price (Price_blank EmptyString) count;
    do prices <-
      mapM (fun splittedAmount =>
              let '(_, precision) := Price_payableRoundingPrecision p in
              do isneg <- Price_IsNegative p;
              let splittedAmount :=
                if isneg then wrap64 (splittedAmount * -1) else splittedAmount in
              NewFromInt splittedAmount precision (Price_Currency p))
           splittedAmounts;
    Done (prices, None).

Definition err_no_price : string := "no price given".

Fixpoint SumAll_loop (result : Price) (prices : list Price) : outcome (Price * error) :=
  match prices with
  | [] => Done (result, None)
  | price :: rest =>
      do r <- Price_Add result price;
      match r with
      | (result, Some err) => Done (result, Some err)
      | (result, None) => SumAll_loop result rest
      end
  end.

Definition SumAll (prices : list Price) : outcome (Price * error) :=
  match prices with
  | [] => Done (NewZero "", Some err_no_price)
  | first :: rest => SumAll_loop (Price_Clone first) rest
  end.

(** ** Charge *)

Record Charge := mkCharge {
  chPrice : Price;       (* Price *)
  chValue : Price;       (* Value *)
  chType : string;       (* Type *)
  chReference : string   (* Reference *)
}.

(** The zero values [Price{}] and [Charge{}]. *)
Definition Price_zero_value : Price := Price_blank "".

Definition Charge_zero_value : Charge :=
  {| chPrice := Price_zero_value; chValue := Price_zero_value;
     chType := ""; chReference := "" |}.

Definition err_charge_type : string := "charge type mismatch".

Definition Charge_Add (p add : Charge) : outcome (Charge * error) :=
  if negb (String.eqb (chType p) (chType add)) then
    Done (Charge_zero_value, Some err_charge_type)
  else
    do r <- Price_Add (chPrice p) (chPrice add);
    match r with
    | (_, Some err) => Done (Charge_zero_value, Some err)
    | (newPrice, None) =>
        do r' <- Price_Add (chValue p) (chValue add);
        match r' with
        | (_, Some err) => Done (Charge_zero_value, Some err)
        | (newValue, None) =>
            Done ({| chPrice := newPrice; chValue := newValue;
                     chType := chType p; chReference := chReference p |}, None)
        end
    end.

Definition Charge_GetPayable (p : Charge) : outcome Charge :=
  do v <- Price_GetPayable (chValue p);
  do q <- Price_GetPayable (chPrice p);
  Done {| chPrice := q; chValue := v; chType := chType p; chReference := chReference p |}.

Definition Charge_Mul (p : Charge) (qty : Z) : outcome Charge :=
  do q <- Price_Multiply (chPrice p) qty;
  do v <- Price_Multiply (chValue p) qty;
  Done {| chPrice := q; chValue := v; chType := chType p; chReference := chReference p |}.

(** ** Charges

    A Go map is a reference: copying the [Charges] struct (every method has
    a value receiver) copies the reference, not the entries.  The maps live
    in a store; [chargesByQualifier] is [None] for the nil map and the
    address of a map otherwise. *)

Record Charges := mkCharges {
  chargesByQualifier : option nat
}.

Definition qmap := gmap ChargeQualifier Charge.

Record store := mkStore {
  maps : gmap nat (gmap ChargeQualifier Charge);
  next : nat
}.

Definition store_empty : store := {| maps := ∅; next := 0%nat |}.

(** [make(map[ChargeQualifier]Charge)]. *)
Definition store_make (h : store) : nat * store :=
  (next h, {| maps := <[next h := ∅]> (maps h); next := S (next h) |}).

(** The entries of the map a [Charges] value refers to; reading the nil
    map finds nothing. *)
Definition store_entries (h : store) (c : Charges) : gmap ChargeQualifier Charge :=
  match chargesByQualifier c with
  | Some l => default ∅ (maps h !! l)
  | None => ∅
  end.

(** [m[k] = v] *)
Definition store_set (h : store) (l : nat) (k : ChargeQualifier) (v : Charge) : store :=
  {| maps := <[l := <[k := v]> (default ∅ (maps h !! l))]> (maps h); next := next h |}.

(** [if c.chargesByQualifier == nil { c.chargesByQualifier = make(...) }]:
    the assignment is to the method's own copy of the struct. *)
Definition Charges_ensure (c : Charges) (h : store) : nat * store :=
  match chargesByQualifier c with
  | Some l => (l, h)
  | None => store_make h
  end.

(** [range] over a map visits the entries in an order Go leaves
    unspecified; the model takes the order of [map_to_list]. *)
Definition range_map (m : gmap ChargeQualifier Charge) : list (ChargeQualifier * Charge) :=
  map_to_list m.

Definition Charges_HasType (c : Charges) (ctype : string) (h : store) : bool :=
  existsb (fun kv => String.eqb (qType (fst kv)) ctype) (range_map (store_entries h c)).

Fixpoint GetByType_loop (ctype : string) (result : Charge)
    (l : list (ChargeQualifier * Charge)) : outcome Charge :=
  match l with
  | [] => Done result
  | (qualifier, charge) :: rest =>
      if String.eqb (qType qualifier) ctype then
        do r <- Charge_Add result charge;
        GetByType_loop ctype (fst r) rest
      else GetByType_loop ctype result rest
  end.

Definition Charges_GetByType (c : Charges) (ctype : string) (h : store)
  : outcome (Charge * bool) :=
  if negb (Charges_HasType c ctype h) then Done (Charge_zero_value, false)
  else
    let result := {| chPrice := Price_zero_value; chValue := Price_zero_value;
                     chType := ctype; chReference := "" |} in
    do r <- GetByType_loop ctype result (range_map (store_entries h c));
    Done (r, true).

Definition Charges_HasChargeQualifier (c : Charges) (qualifier : ChargeQualifier)
    (h : store) : bool :=
  match store_entries h c !! qualifier with
  | Some _ => true
  | None => false
  end.

Definition Charges_GetByChargeQualifier (c : Charges) (qualifier : ChargeQualifier)
    (h : store) : Charge * bool :=
  if negb (Charges_HasChargeQualifier c qualifier h) then (Charge_zero_value, false)
  else
    match store_entries h c !! qualifier with
    | Some charge => (charge, true)
    | None => (Charge_zero_value, false)
    end.

Definition Charges_GetByChargeQualifierForced (c : Charges) (qualifier : ChargeQualifier)
    (h : store) : Charge :=
  let '(result, ok) := Charges_GetByChargeQualifier c qualifier h in
  if negb ok then Charge_zero_value else result.

Definition Charges_GetByTypeForced (c : Charges) (ctype : string) (h : store)
  : outcome Charge :=
  do r <- Charges_GetByType c ctype h;
  let '(result, ok) := r in
  Done (if negb ok then Charge_zero_value else result).

(** The body of both merging loops: [existing.Add(toadd)] with its error
    dropped, rounded, stored under the qualifier; or the charge itself when
    the qualifier is new. *)
Definition merge_charge (l : nat) (k : ChargeQualifier) (toadd : Charge) (h : store)
  : outcome store :=
  match default ∅ (maps h !! l) !! k with
  | Some existingCharge =>
      do r <- Charge_Add existingCharge toadd;
      do payable <- Charge_GetPayable (fst r);
      Done (store_set h l k payable)
  | None => Done (store_set h l k toadd)
  end.

Fixpoint Charges_Add_loop (l : nat) (toadd : list (ChargeQualifier * Charge)) (h : store)
  : outcome store :=
  match toadd with
  | [] => Done h
  | (addk, addCharge) :: rest =>
      do h' <- merge_charge l addk addCharge h;
      Charges_Add_loop l rest h'
  end.

Definition Charges_Add (c toadd : Charges) (h : store) : outcome (Charges * store) :=
  let '(l, h) := Charges_ensure c h in
  do h' <- Charges_Add_loop l (range_map (store_entries h toadd)) h;
  Done ({| chargesByQualifier := Some l |}, h').

Definition Charges_AddCharge (c : Charges) (toadd : Charge) (h : store)
  : outcome (Charges * store) :=
  let '(l, h) := Charges_ensure c h in
  let qualifier := {| qType := chType toadd; qReference := chReference toadd |} in
  do h' <- merge_charge l qualifier toadd h;
  Done ({| chargesByQualifier := Some l |}, h').

Fixpoint Charges_Mul_loop (l : nat) (qty : Z) (entries : list (ChargeQualifier * Charge))
    (h : store) : outcome store :=
  match entries with
  | [] => Done h
  | (t, charge) :: rest =>
      do m <- Charge_Mul charge qty;
      Charges_Mul_loop l qty rest (store_set h l t m)
  end.

Definition Charges_Mul (c : Charges) (qty : Z) (h : store) : outcome (Charges * store) :=
  match chargesByQualifier c with
  | None => Done (c, h)
  | Some l =>
      do h' <- Charges_Mul_loop l qty (range_map (store_entries h c)) h;
      Done (c, h')
  end.

End Platform.

Import ListNotations.
Local Open Scope Z_scope.

(** ** Decimal conversion of math/big (decimal.go, ftoa.go)

    [x.String()] is [x.Text('g', 10)]: the exact decimal expansion of the
    value, rounded half-to-even to 10 significant digits, printed like
    [%g].  A [decimal] is [0.mant × 10^exp] with digits [0..9], no leading
    and no trailing zero. *)

Record decimal := mkDecimal {
  dmant : list Z;
  dexp : Z
}.

Fixpoint utoa_aux (fuel : nat) (n : Z) (acc : list Z) : list Z :=
  match fuel with
  | O => acc
  | S f => if n <? 10 then n :: acc else utoa_aux f (n / 10) (n mod 10 :: acc)
  end.

(** [nat.utoa(10)]: the decimal digits of [n], most significant first. *)
Definition utoa (n : Z) : list Z :=
  utoa_aux (S (Z.to_nat (Z.log2 n))) n [].

(** [trim]: drop the trailing zeros. *)
Fixpoint trim (l : list Z) : list Z :=
  match l with
  | [] => []
  | d :: r =>
      match trim r with
      | [] => if d =? 0 then [] else [d]
      | r' => d :: r'
      end
  end.

(** [m.trailingZeroBits()]. *)
Fixpoint ntz (m : positive) : Z :=
  match m with
  | xO p => 1 + ntz p
  | _ => 0
  end.

Definition llen {A} (l : list A) : Z := Z.of_nat (List.length l).

(** [d.init(m, shift)]: the decimal of [m × 2^shift].  A right shift first
    drops trailing zero bits of [m]; what is left of it is a division by a
    power of two, done exactly on the decimal digits, which amounts to the
    digits of [m × 5^k] with the point moved [k] places. *)
Definition decimal_init (m : positive) (shift : Z) : decimal :=
  let s := if shift <? 0 then Z.min (- shift) (ntz m) else 0 in
  let m1 := Z.shiftr (Zpos m) s in
  let shift1 := shift + s in
  let m2 := if 0 <? shift1 then Z.shiftl m1 shift1 else m1 in
  if shift1 <? 0 then
    let digits := utoa (m2 * 5 ^ (- shift1)) in
    {| dmant := trim digits; dexp := llen digits + shift1 |}
  else
    let digits := utoa m2 in
    {| dmant := trim digits; dexp := llen digits |}.

Definition digit_at (l : list Z) (i : Z) : Z :=
  if (0 <=? i) && (i <? llen l) then nth (Z.to_nat i) l 0 else 0.

Definition shouldRoundUp (mant : list Z) (n : Z) : bool :=
  if (digit_at mant n =? 5) && (n + 1 =? llen mant) then
    (* exactly halfway - round to even *)
    (0 <? n) && Z.odd (digit_at mant (n - 1))
  else 5 <=? digit_at mant n.

(** Drop the trailing nines. *)
Fixpoint strip9 (l : list Z) : list Z :=
  match l with
  | [] => []
  | d :: r =>
      match strip9 r with
      | [] => if 9 <=? d then [] else [d]
      | r' => d :: r'
      end
  end.

Fixpoint incr_last (l : list Z) : list Z :=
  match l with
  | [] => []
  | [d] => [d + 1]
  | d :: r => d :: incr_last r
  end.

Definition decimal_roundUp (d : decimal) (n : Z) : decimal :=
  match strip9 (take (Z.to_nat n) (dmant d)) with
  | [] => {| dmant := [1]; dexp := dexp d + 1 |}
  | l => {| dmant := incr_last l; dexp := dexp d |}
  end.

Definition decimal_roundDown (d : decimal) (n : Z) : decimal :=
  {| dmant := trim (take (Z.to_nat n) (dmant d)); dexp := dexp d |}.

(** [d.round(n)]. *)
Definition decimal_round (d : decimal) (n : Z) : decimal :=
  if (n <? 0) || (llen (dmant d) <=? n) then d
  else if shouldRoundUp (dmant d) n then decimal_roundUp d n
  else decimal_roundDown d n.

Definition digit_char (d : Z) : ascii := ascii_of_nat (48 + Z.to_nat d).

Fixpoint string_of_digits (l : list Z) : string :=
  match l with
  | [] => EmptyString
  | d :: r => String (digit_char d) (string_of_digits r)
  end.

Definition zeros (n : Z) : list Z := replicate (Z.to_nat n) 0.

(** [fmtF]: %f with [prec] digits after the point. *)
Definition fmtF (prec : Z) (d : decimal) : string :=
  let ip :=
    if 0 <? dexp d then
      let m := Z.min (llen (dmant d)) (dexp d) in
      string_of_digits (take (Z.to_nat m) (dmant d) ++ zeros (dexp d - m))
    else "0"%string in
  let fp :=
    if 0 <? prec then
      String "." (string_of_digits
                    (map (fun i => digit_at (dmant d) (dexp d + Z.of_nat i))
                         (seq 0 (Z.to_nat prec))))
    else EmptyString in
  (ip ++ fp)%string.

(** [fmtE]: %e with [prec] digits after the point and an exponent of two
    digits at least. *)
Definition fmtE (prec : Z) (d : decimal) : string :=
  let first := match dmant d with [] => 0 | c :: _ => c end in
  let more :=
    if 0 <? prec then
      let m := Z.min (llen (dmant d)) (prec + 1) in
      let ds := drop 1 (take (Z.to_nat m) (dmant d)) in
      String "." (string_of_digits (ds ++ zeros (prec - llen ds)))
    else EmptyString in
  let e := match dmant d with [] => 0 | _ => dexp d - 1 end in
  let sign := if e <? 0 then "-"%string else "+"%string in
  let a := Z.abs e in
  let pad := if a <? 10 then "0"%string else EmptyString in
  (String (digit_char first) more ++ "e" ++ sign ++ pad ++ string_of_digits (utoa a))%string.

(** [x.Text('g', 10)], that is [x.String()]. *)
Definition Float_String (x : Float) : string :=
  let sign := if neg x then "-"%string else EmptyString in
  match fform x with
  | inf => (sign ++ (if neg x then "" else "+") ++ "Inf")%string
  | f =>
      let d0 := match f with
                | finite m e => decimal_init m e
                | _ => {| dmant := []; dexp := 0 |}
                end in
      let d := decimal_round d0 10 in
      let eprec :=
        if (llen (dmant d) <? 10) && (dexp d <=? llen (dmant d))
        then llen (dmant d) else 10 in
      let exp := dexp d - 1 in
      if (exp <? -4) || (eprec <=? exp) then
        (sign ++ fmtE (Z.min 10 (llen (dmant d)) - 1) d)%string
      else
        let prec := if dexp d <? 10 then llen (dmant d) else 10 in
        (sign ++ fmtF (Z.max (prec - dexp d) 0) d)%string
  end.

(** ** Parsing (math/big floatconv.go, natconv.go), base 10 *)

Definition is_digit (c : ascii) : bool :=
  let n := nat_of_ascii c in ((48 <=? n) && (n <=? 57))%nat.

Definition digit_val (c : ascii) : Z := Z.of_nat (nat_of_ascii c) - 48.

(** [z.mant.scan(r, 10, true)]: digits with one radix point at most; the
    value of the digits, how many there are, how many follow the point
    (when one was seen) and what is left of the input. *)
Fixpoint scan_mantissa (s : string) (dot : bool) (val count frac : Z)
  : Z * Z * Z * bool * string :=
  match s with
  | String c r =>
      if is_digit c then
        scan_mantissa r dot (val * 10 + digit_val c) (count + 1)
                      (if dot then frac + 1 else frac)
      else if Ascii.eqb c "." && negb dot then
        scan_mantissa r true val count frac
      else (val, count, frac, dot, s)
  | EmptyString => (val, count, frac, dot, s)
  end.

Fixpoint scan_digits (s : string) (val count : Z) : Z * Z * string :=
  match s with
  | String c r =>
      if is_digit c then scan_digits r (val * 10 + digit_val c) (count + 1)
      else (val, count, s)
  | EmptyString => (val, count, s)
  end.

(** [scanExponent(r, true, false)]: the exponent, its base and the rest of
    the input; [None] for an exponent mark without digits or a value
    outside int64. *)
Definition scanExponent (s : string) : option (Z * Z * string) :=
  match s with
  | String c r =>
      let base :=
        if Ascii.eqb c "e" || Ascii.eqb c "E" then Some 10
        else if Ascii.eqb c "p" || Ascii.eqb c "P" then Some 2
        else None in
      match base with
      | None => Some (0, 10, s)
      | Some b =>
          let '(sneg, r1) :=
            match r with
            | String c1 r' =>
                if Ascii.eqb c1 "-" then (true, r')
                else if Ascii.eqb c1 "+" then (false, r')
                else (false, r)
            | EmptyString => (false, r)
            end in
          let '(v, count, rest) := scan_digits r1 0 0 in
          if count =? 0 then None
          else
            let e := if sneg then - v else v in
            if in_int64 e then Some (e, b, rest) else None
      end
  | EmptyString => Some (0, 10, s)
  end.

(** [z.SetUint64(x)] on a receiver of precision [p >= 64]. *)
Definition Float_of_uint (p : Z) (x : positive) : Float :=
  {| prec := p; acc := Exact; fform := finite x 0; neg := false |}.

(** The loop of [z.pow5(n)] for [n] beyond the table: square-and-multiply
    over the bits of what is left of [n]. *)
Fixpoint pow5_loop (n : positive) (z f : Float) : outcome Float :=
  match n with
  | xH => Float_Mul z z f
  | xO n' => do f' <- Float_Mul f f f; pow5_loop n' z f'
  | xI n' => do z' <- Float_Mul z z f; do f' <- Float_Mul f f f; pow5_loop n' z' f'
  end.

(** [z.pow5(n)] on a receiver of precision [p]. *)
Definition pow5 (p : Z) (n : Z) : outcome Float :=
  if n <=? 27 then Done (Float_of_uint p (Z.to_pos (5 ^ n)))
  else
    match n - 27 with
    | Zpos k => pow5_loop k (Float_of_uint p (Z.to_pos (5 ^ 27)))
                          (Float_of_uint (p + 64) 5)
    | _ => Done (Float_of_uint p (Z.to_pos (5 ^ 27)))
    end.

(** [z.scan(r, 10)] followed by the end-of-input test of [Parse]; [None]
    stands for a non-nil error. *)
Definition Float_scan (z : Float) (s : string) : outcome (option Float) :=
  let p := if prec z =? 0 then 64 else prec z in
  match s with
  | EmptyString => Done None
  | String c r =>
      let '(sneg, s1) :=
        if Ascii.eqb c "-" then (true, r)
        else if Ascii.eqb c "+" then (false, r)
        else (false, s) in
      let '(val, count, frac, dot, s2) := scan_mantissa s1 false 0 0 0 in
      if count =? 0 then Done None
      else
        match scanExponent s2 with
        | None => Done None
        | Some (exp, ebase, rest) =>
            match val with
            | Zpos m =>
                let exp5 := (if dot then - frac else 0) + (if ebase =? 10 then exp else 0) in
                let e2 := (if dot then - frac else 0) + exp in
                if (MinExp <=? gexp m e2) && (gexp m e2 <=? MaxExp) then
                  do r <-
                    (if exp5 =? 0 then
                       let '(f, a) := Float_round p sneg m e2 false in
                       Done {| prec := p; acc := a; fform := f; neg := sneg |}
                     else
                       let x := {| prec := p; acc := Exact; fform := finite m e2; neg := sneg |} in
                       if exp5 <? 0 then
                         do p5 <- pow5 (p + 64) (- exp5); Float_Quo x x p5
                       else
                         do p5 <- pow5 (p + 64) exp5; Float_Mul x x p5);
                  match rest with
                  | EmptyString => Done (Some r)
                  | _ => Done None
                  end
                else Done None
            | _ =>
                match rest with
                | EmptyString =>
                    Done (Some {| prec := p; acc := Exact; fform := zero; neg := sneg |})
                | _ => Done None
                end
            end
        end
  end.

(** [z.Parse(s, 10)]. *)
Definition Float_Parse (z : Float) (s : string) : outcome (option Float) :=
  if String.eqb s "Inf" || String.eqb s "inf" then
    Done (Some {| prec := prec z; acc := Exact; fform := inf; neg := false |})
  else if String.eqb s "+Inf" || String.eqb s "+inf" then
    Done (Some {| prec := prec z; acc := Exact; fform := inf; neg := false |})
  else if String.eqb s "-Inf" || String.eqb s "-inf" then
    Done (Some {| prec := prec z; acc := Exact; fform := inf; neg := true |})
  else Float_scan z s.

(** ** encoding/json, on the wire shape of a Price

    The wire text is represented by the JSON document it spells: the
    lexical layer of encoding/json (escapes, white space) maps documents
    and canonical texts one to one.  What the encoder does to the content
    of a string is kept: every byte that does not start a valid UTF-8
    sequence is written as U+FFFD. *)

#[warnings="-register-all"]
Inductive json :=
| JNull
| JBool (b : bool)
| JNumber (literal : string)
| JString (s : string)
| JArray (elements : list json)
| JObject (members : list (string * json)).

Record priceJSON := mkPriceJSON {
  pjAmount : string;     (* Amount, json:"amount,omitempty" *)
  pjCurrency : string    (* Currency, json:"currency,omitempty" *)
}.

Definition byte_in (c : ascii) (lo hi : nat) : bool :=
  let n := nat_of_ascii c in ((lo <=? n) && (n <=? hi))%nat.

Definition is_cont (c : ascii) : bool := byte_in c 128 191.

(** U+FFFD in UTF-8. *)
Definition replacement_char : string :=
  String (ascii_of_nat 239) (String (ascii_of_nat 191) (String (ascii_of_nat 189) EmptyString)).

(** The length of the valid UTF-8 sequence a string starts with
    ([utf8.DecodeRuneInString]); 0 when there is none. *)
Definition utf8_size (s : string) : nat :=
  match s with
  | String c0 r =>
      if byte_in c0 0 127 then 1%nat
      else
        match r with
        | String c1 r1 =>
            if byte_in c0 194 223 then (if is_cont c1 then 2 else 0)%nat
            else
              match r1 with
              | String c2 r2 =>
                  let second3 :=
                    if byte_in c0 224 224 then byte_in c1 160 191
                    else if byte_in c0 237 237 then byte_in c1 128 159
                    else if byte_in c0 225 239 then is_cont c1
                    else false in
                  if second3 then (if is_cont c2 then 3 else 0)%nat
                  else
                    match r2 with
                    | String c3 _ =>
                        let second4 :=
                          if byte_in c0 240 240 then byte_in c1 144 191
                          else if byte_in c0 244 244 then byte_in c1 128 143
                          else if byte_in c0 241 243 then is_cont c1
                          else false in
                        if second4 && is_cont c2 && is_cont c3 then 4%nat else 0%nat
                    | EmptyString => 0%nat
                    end
              | EmptyString => 0%nat
              end
        | EmptyString => 0%nat
        end
  | EmptyString => 0%nat
  end.

(** The content of the JSON string the encoder writes for a Go string. *)
Fixpoint json_string_content (fuel : nat) (s : string) : string :=
  match fuel with
  | O => EmptyString
  | S f =>
      match s with
      | EmptyString => EmptyString
      | String c r =>
          match utf8_size s with
          | O => (replacement_char ++ json_string_content f r)%string
          | n => (substring 0 n s ++ json_string_content f (substring n (String.length s - n) s))%string
          end
      end
  end.

Definition json_string (s : string) : json :=
  JString (json_string_content (String.length s) s).

(** [json.Marshal(pj)]: a field tagged [omitempty] is left out when empty. *)
Definition json_Marshal_priceJSON (pj : priceJSON) : json :=
  JObject
    ((if String.eqb (pjAmount pj) "" then [] else [("amount"%string, json_string (pjAmount pj))]) ++
     (if String.eqb (pjCurrency pj) "" then [] else [("currency"%string, json_string (pjCurrency pj))])).

(** Field lookup of the decoder: the key matches the field name exactly or
    up to case (the names hold none of the letters with a non-ASCII fold). *)
Definition key_matches (key name : string) : bool :=
  String.eqb (string_map ascii_lower key) name.

(** The *json.UnmarshalTypeError of a value that is not a string for a
    string field, or of a document that is not an object; its text names
    the value and the field, one message stands for all of them. *)
Definition err_unmarshal_type : string := "json: cannot unmarshal into Go struct field of type string".

Fixpoint json_decode_members (ms : list (string * json)) (pj : priceJSON) (err : error)
  : priceJSON * error :=
  match ms with
  | [] => (pj, err)
  | (k, v) :: rest =>
      let first_err e := match err with Some _ => err | None => Some e end in
      if key_matches k "amount" then
        match v with
        | JString s => json_decode_members rest {| pjAmount := s; pjCurrency := pjCurrency pj |} err
        | JNull => json_decode_members rest pj err
        | _ => json_decode_members rest pj (first_err err_unmarshal_type)
        end
      else if key_matches k "currency" then
        match v with
        | JString s => json_decode_members rest {| pjAmount := pjAmount pj; pjCurrency := s |} err
        | JNull => json_decode_members rest pj err
        | _ => json_decode_members rest pj (first_err err_unmarshal_type)
        end
      else json_decode_members rest pj err
  end.

(** [json.Unmarshal(b, pj)] for a document [b]. *)
Definition json_Unmarshal_priceJSON (b : json) (pj : priceJSON) : priceJSON * error :=
  match b with
  | JObject ms => json_decode_members ms pj None
  | JNull => (pj, None)
  | _ => (pj, Some err_unmarshal_type)
  end.

(** ** Price on the wire *)

Definition Price_MarshalText (p : Price) : json * error :=
  let pj := {| pjAmount := Float_String (amount p); pjCurrency := currency p |} in
  (json_Marshal_priceJSON pj, None).

(** The error of [Parse]; its text depends on the input (EOF for the empty
    text, "expected end of string" for trailing characters, and so on), one
    message stands for all of them. *)
Definition err_parse : string := "number has no digits".

(** [p.UnmarshalText(b)]: the receiver after the call, and the error. *)
Definition Price_UnmarshalText (p : Price) (b : json) : outcome (Price * error) :=
  match json_Unmarshal_priceJSON b {| pjAmount := ""; pjCurrency := "" |} with
  | (_, Some err) => Done (p, Some err)
  | (pj, None) =>
      do r <- Float_Parse Float_new (pjAmount pj);
      match r with
      | None => Done (p, Some err_parse)
      | Some am => Done ({| amount := am; currency := pjCurrency pj |}, None)
      end
  end.

(** Encode, then decode into a fresh Price. *)
Definition Price_roundtrip (p : Price) : outcome (Price * error) :=
  Price_UnmarshalText Price_zero_value (fst (Price_MarshalText p)).

Import ListNotations.
Local Open Scope Z_scope.

(** ** Price: division, discount and tax *)

Definition f64_sub : float64 -> float64 -> float64 := SFsub f64_prec f64_emax.

Definition Price_Divided (p : Price) (qty : Z) : outcome Price :=
  if qty =? 0 then Done (NewZero (currency p))
  else
    do a <- Float_Quo Float_new (amount p) (Float_SetInt64 Float_new qty);
    Done {| amount := a; currency := currency p |}.

Definition Price_Discounted (p : Price) (percent : float64) : outcome Price :=
  do f <- big_NewFloat (f64_div (f64_sub (f64_of_Z 100) percent) (f64_of_Z 100));
  do a <- Float_Mul Float_new (amount p) f;
  Done {| amount := a; currency := currency p |}.

Definition Price_TaxFromNet (p : Price) (percent : Float) : outcome Price :=
  do quo <- Float_Mul Float_new percent (amount p);
  do a <- Float_Quo Float_new quo (Float_SetInt64 Float_new 100);
  Done {| amount := a; currency := currency p |}.

Definition Price_Taxed (p : Price) (percent : Float) : outcome Price :=
  do tax <- Price_TaxFromNet p percent;
  do a <- Float_Add Float_new (amount p) (Price_Amount tax);
  Done {| amount := a; currency := currency p |}.

Definition Price_TaxFromGross (p : Price) (percent : Float) : outcome Price :=
  do quo <- Float_Mul Float_new percent (amount p);
  do percent100 <- Float_Add Float_new percent (Float_SetInt64 Float_new 100);
  do a <- Float_Quo Float_new quo percent100;
  Done {| amount := a; currency := currency p |}.

(** ** MutablePrice *)

Record MutablePrice := mkMutablePrice {
  mpPrice : Price;        (* the embedded Price *)
  mpAmount : float64;     (* Amount *)
  mpCurrency : string     (* Currency *)
}.

Definition NewMutablePrice (p : Price) : MutablePrice :=
  {| mpPrice := p; mpAmount := Price_FloatAmount p; mpCurrency := Price_Currency p |}.

(** ** Charges: the rest of the ledger *)

(** [GetAllCharges] hands out the map itself. *)
Definition Charges_GetAllCharges (c : Charges) : option nat := chargesByQualifier c.

(** [GetAllByType]: a new map with the entries of one type. *)
Definition Charges_GetAllByType (c : Charges) (ctype : string) (h : store) : nat * store :=
  let '(l, h1) := store_make h in
  (l,
   fold_left
     (fun h' kv =>
        let '(qualifier, charge) := kv in
        if String.eqb (qType qualifier) ctype then
          store_set h' l {| qType := qType qualifier; qReference := qReference qualifier |}
                    charge
        else h')
     (range_map (store_entries h c)) h1).

(** [Items]: the charges, appended in the order of the iteration. *)
Definition Charges_Items (c : Charges) (h : store) : list Charge :=
  fold_left (fun charges kv => charges ++ [snd kv]) (range_map (store_entries h c)) [].

(** [addChargeQualifier]: the ledger of a map keyed by charge type; the
    argument is only read and is taken by value. *)
Definition addChargeQualifier (chargesByType : gmap string Charge) (h : store)
  : Charges * store :=
  let '(l, h1) := store_make h in
  ({| chargesByQualifier := Some l |},
   fold_left
     (fun h' kv =>
        let '(chargeType, charge) := kv in
        store_set h' l {| qType := chargeType; qReference := chReference charge |} charge)
     (map_to_list chargesByType) h1).

Definition NewCharges (chargesByType : gmap string Charge) (h : store) : Charges * store :=
  addChargeQualifier chargesByType h.

Local Open Scope Z_scope.

Definition form_value (f : form) : Q :=
  match f with
  | finite m e => (inject_Z (Zpos m) * 2 ^ e)%Q
  | _ => 0%Q
  end.

Definition Float_value (x : Float) : Q :=
  if neg x then (- form_value (fform x))%Q else form_value (fform x).

Definition MaxPrec : Z := 2 ^ 32 - 1.

Definition Float_wf (x : Float) : bool :=
  (0 <=? prec x) && (prec x <=? MaxPrec) &&
  match fform x with
  | finite m e =>
      (0 <? prec x) && (bitlen m <=? prec x) &&
      (MinExp <=? gexp m e) && (gexp m e <=? MaxExp)
  | _ => true
  end.

Definition is_inf (x : Float) : bool :=
  match fform x with inf => true | _ => false end.

(** What [IsZero] decides on the form of an amount: its magnitude is
    compared with [big.NewFloat(0.000000001)]. *)
Definition tolerance : Float :=
  {| prec := 53; acc := Exact; fform := finite 4835703278458517 (-82); neg := false |}.

Definition below_tolerance (f : form) : bool :=
  match f with
  | zero => true
  | inf => false
  | finite m e => int_of_comparison (ucmp m e 4835703278458517 (-82)) =? -1
  end.

(** The exact signed sum of two finite operands, as an integer on the
    smaller exponent. *)
Definition signed_sum (xn : bool) (mx : positive) (ex : Z)
    (yn : bool) (my : positive) (ey : Z) : Z :=
  let ez := Z.min ex ey in
  (if xn then - (Zpos mx * 2 ^ (ex - ez)) else Zpos mx * 2 ^ (ex - ez)) +
  (if yn then - (Zpos my * 2 ^ (ey - ez)) else Zpos my * 2 ^ (ey - ez)).

Definition normalize (p : Z) (s : Z) (ez : Z) : Float :=
  match s with
  | Z0 => {| prec := p; acc := Exact; fform := zero; neg := false |}
  | Zpos m =>
      {| prec := p; acc := snd (setExpAndRound p false m ez false);
         fform := fst (setExpAndRound p false m ez false); neg := false |}
  | Zneg m =>
      {| prec := p; acc := snd (setExpAndRound p true m ez false);
         fform := fst (setExpAndRound p true m ez false); neg := true |}
  end.

Local Open Scope Q_scope.

Definition signedQ (n : bool) (m : positive) (e : Z) : Q :=
  if n then - (inject_Z (Zpos m) * 2 ^ e) else inject_Z (Zpos m) * 2 ^ e.

Local Open Scope Z_scope.

(** "[x] rounds to [num/den]" under a mode and a precision: the payable
    amount of [NewFromFloat(x, cur)] compares equal to
    [NewFromInt(num, den, cur)], whatever the currency. *)
Definition rounds_to (cvt : float64 -> Z) (x : float64) (mode : string) (precision : Z)
    (num den : Z) : Prop :=
  forall cur, exists r e,
    (do a <- NewFromFloat x cur; Price_GetPayableByRoundingMode cvt a mode precision)
      = Done r /\
    NewFromInt num den cur = Done e /\
    currency r = cur /\ Float_Cmp (amount r) (amount e) = 0.

(** Equality of two strings up to case, the comparison
    [strings.ToLower(s) == t] makes against a lower-case [t]. *)
Definition equal_fold (lower : string -> string) (s t : string) : Prop :=
  strings_ToLower lower s = strings_ToLower lower t.

(** An instance of [strings.Map(unicode.ToLower, s)] for text whose
    characters outside ASCII have no lower-case mapping. *)
Definition ToLower_caseless (s : string) : string := string_map ascii_lower s.

(** Sample amounts for the worked instances: an integer amount, as
    [NewFromInt(n, 1, cur)] builds it, and 1e-10, as [NewFromFloat] does. *)
Definition sample_int (n : Z) (cur : string) : Price :=
  {| amount := Float_SetInt64 Float_new n; currency := cur |}.

Definition sample_tiny (cur : string) : Price :=
  {| amount := {| prec := 53; acc := Exact;
                  fform := finite 7737125245533627 (-86); neg := false |};
     currency := cur |}.

(** The decision value of GetPayableByRoundingMode, from the fractional
    part of the scaled amount and the sign. *)
Definition valueAfterPrecision_of (fractionalPart : float64) (negative : Z) : float64 :=
  f64_mul (f64_div (math_Round (f64_mul fractionalPart (f64_of_Z 1000))) (f64_of_Z 100))
          (f64_of_Z negative).

(** Sample charges: 100 EUR of type [main] and 50 EUR of type [giftcard]. *)
Definition sample_main : Charge :=
  {| chPrice := sample_int 100 "EUR"; chValue := sample_int 100 "EUR";
     chType := "main"; chReference := "" |}.

Definition sample_giftcard : Charge :=
  {| chPrice := sample_int 50 "EUR"; chValue := sample_int 50 "EUR";
     chType := "giftcard"; chReference := "" |}.

(** [Charges{}]: the ledger with a nil map. *)
Definition Charges_zero_value : Charges := {| chargesByQualifier := None |}.

(** The payable total in the smallest unit, as SplitInPayables reads it
    back ([amountToMatchInt]): the magnitude of the payable amount times the
    precision, through float64 to int64. *)
Definition payable_units (cvt : float64 -> Z) (lower : string -> string) (p : Price)
  : outcome Z :=
  let '(_, precision) := Price_payableRoundingPrecision lower p in
  do payable <- Price_GetPayable cvt lower p;
  do isneg <- Price_IsNegative p;
  do amount0 <-
    (if isneg then
       do payable' <- Price_GetPayable cvt lower p;
       do inv <- Price_Inverse payable';
       Done (Price_Amount inv)
     else Done (Price_Amount payable));
  do scaled <- Float_Mul Float_new amount0 (Price_precisionF p precision);
  Done (int64_of_f64 cvt (Float_Float64 scaled)).

(** Largest-remainder shares of a total [t >= 0] over [count] parts: the
    first [t mod count] parts get one unit more. *)
Definition split_units (t count : Z) : list Z :=
  replicate (Z.to_nat (t mod count)) (t / count + 1) ++
  replicate (Z.to_nat (count - t mod count)) (t / count).

Definition sumZ (l : list Z) : Z := fold_right Z.add 0 l.

Import ListNotations.
Local Open Scope Z_scope.

(** The number a list of decimal digits spells, continuing from [v]. *)
Definition digits_value (l : list Z) (v : Z) : Z := fold_left (fun a d => a * 10 + d) l v.

Definition all_digits (l : list Z) : Prop := Forall (fun d => 0 <= d <= 9) l.

(** A value that [p] bits hold, within the exponent range of big.Float. *)
Definition representable (v : Q) (p : Z) : Prop :=
  exists M E, (v == inject_Z (Zpos M) * 2 ^ E)%Q /\ bitlen M <= p /\
              MinExp <= gexp M E <= MaxExp.

(** Shapes of a JSON value, for the statements about decoding. *)
Definition json_is_string (v : json) : bool :=
  match v with JString _ => true | _ => false end.

Definition json_is_null (v : json) : bool :=
  match v with JNull => true | _ => false end.

(** Whether an object has a member for the amount that carries text. *)
Definition has_amount_text (ms : list (string * json)) : bool :=
  existsb (fun kv => key_matches (fst kv) "amount" && json_is_string (snd kv)) ms.

Import ListNotations.
Local Open Scope Z_scope.

(** ** Rounding errors of the 64-bit operations

    [eta] is the largest relative error of one operation rounded to 64
    bits, [2^-64]; [eta2] is what one more operation adds to the relative
    error of its operands as long as that is at most [2^-54]:
    [2^-64 * (1 + 2^-54)]. *)
Definition eta : Q := 1 # 18446744073709551616.
Definition eta2 : Q := 18014398509481985 # 332306998946228968225951765070086144.

(** The magnitude of a finite [x] is within [eps], relatively, of [t]. *)
Definition near (x : Float) (t eps : Q) : Prop :=
  exists m e, fform x = finite m e /\
              (Qabs (inject_Z (Zpos m) * 2 ^ e - t) <= eps * t)%Q.

(** [x] stands for [u] units of [1/d] with sign [sg]: precision 64, zero
    for no unit, and within [eps] of [u/d] otherwise. *)
Definition holds_units (d : Z) (sg : bool) (eps : Q) (x : Float) (u : Z) : Prop :=
  prec x = 64 /\
  (u = 0 -> fform x = zero) /\
  (0 < u -> neg x = sg /\ near x (inject_Z u / inject_Z d) eps).

Local Open Scope Z_scope.

Lemma bitlen_spec m : 2 ^ (bitlen m - 1) <= Zpos m < 2 ^ bitlen m.
Proof.
  unfold bitlen. replace (Z.log2 (Z.pos m) + 1 - 1) with (Z.log2 (Z.pos m)) by lia.
  replace (Z.log2 (Z.pos m) + 1) with (Z.succ (Z.log2 (Z.pos m))) by lia.
  apply Z.log2_spec. lia.
Qed.

Lemma bitlen_pos m : 1 <= bitlen m.
Proof. unfold bitlen. pose proof (Z.log2_nonneg (Zpos m)). lia. Qed.

Lemma bitlen_unique m b : 2 ^ (b - 1) <= Zpos m < 2 ^ b -> bitlen m = b.
Proof.
  intros H. unfold bitlen.
  assert (0 <= b - 1).
  { destruct (Z_lt_le_dec (b - 1) 0) as [Hn|]; [|lia].
    assert (b <= 0) by lia. destruct H as [_ H].
    destruct (Z.eq_dec b 0) as [->|]; [simpl in H; lia|].
    rewrite Z.pow_neg_r in H by lia. lia. }
  rewrite (Z.log2_unique (Zpos m) (b - 1)); [lia|lia|].
  replace (Z.succ (b - 1)) with b by lia. exact H.
Qed.

Lemma bitlen_mul_pow2 m k : 0 <= k -> bitlen (Z.to_pos (Zpos m * 2 ^ k)) = bitlen m + k.
Proof.
  intros Hk. apply bitlen_unique.
  assert (0 < 2 ^ k) by (apply Z.pow_pos_nonneg; lia).
  rewrite Z2Pos.id by lia.
  pose proof (bitlen_spec m) as [H1 H2]. pose proof (bitlen_pos m).
  replace (bitlen m + k - 1) with ((bitlen m - 1) + k) by lia.
  rewrite !Z.pow_add_r by lia. split; nia.
Qed.

Lemma bitlen_le_mono a b : (Zpos a <= Zpos b) -> bitlen a <= bitlen b.
Proof. intros H. unfold bitlen. pose proof (Z.log2_le_mono _ _ H). lia. Qed.

(** Powers of two in Q *)
Local Open Scope Q_scope.

Lemma P2_pos e : 0 < 2 ^ e.
Proof. apply Qpower_0_lt. reflexivity. Qed.

Lemma P2_add a b : 2 ^ (a + b) == 2 ^ a * 2 ^ b.
Proof. apply Qpower_plus. discriminate. Qed.

Lemma P2_inject k : (0 <= k)%Z -> inject_Z (2 ^ k) == 2 ^ k.
Proof. intros. rewrite Zpower_Qpower by assumption. reflexivity. Qed.

Lemma P2_le a b : (a <= b)%Z -> 2 ^ a <= 2 ^ b.
Proof.
  intros H. replace b with (a + (b - a))%Z by lia. rewrite P2_add.
  rewrite <- (Qmult_1_r (2 ^ a)) at 1.
  apply Qmult_le_l; [apply P2_pos|].
  rewrite <- P2_inject by lia. 
  change 1 with (inject_Z 1). rewrite <- Zle_Qle.
  assert (0 < 2 ^ (b - a))%Z by (apply Z.pow_pos_nonneg; lia). lia.
Qed.

Lemma inject_shift m k e : (0 <= k)%Z -> inject_Z (m * 2 ^ k) * 2 ^ e == inject_Z m * 2 ^ (e + k).
Proof.
  intros. rewrite inject_Z_mult, P2_inject by assumption. rewrite P2_add. ring.
Qed.

Lemma Qcompare_scale a b c : 0 < c -> (inject_Z a * c ?= inject_Z b * c) = (a ?= b)%Z.
Proof.
  intros Hc. destruct (Z.compare_spec a b) as [E|L|G].
  - subst. apply Qeq_alt. reflexivity.
  - apply Qlt_alt. apply Qmult_lt_r; [assumption|]. rewrite <- Zlt_Qlt. assumption.
  - apply Qgt_alt. apply Qmult_lt_r; [assumption|]. rewrite <- Zlt_Qlt. assumption.
Qed.

Lemma mag_bounds m e : 2 ^ (gexp m e - 1) <= inject_Z (Zpos m) * 2 ^ e < 2 ^ gexp m e.
Proof.
  unfold gexp. pose proof (bitlen_spec m) as [H1 H2]. pose proof (bitlen_pos m).
  split.
  - replace (e + bitlen m - 1)%Z with (e + (bitlen m - 1))%Z by lia.
    rewrite P2_add, (Qmult_comm (2 ^ e)).
    apply Qmult_le_compat_r; [|apply Qlt_le_weak, P2_pos].
    rewrite <- P2_inject by lia. rewrite <- Zle_Qle. assumption.
  - rewrite P2_add, (Qmult_comm (2 ^ e)).
    apply Qmult_lt_r; [apply P2_pos|].
    rewrite <- P2_inject by lia. rewrite <- Zlt_Qlt. assumption.
Qed.

Lemma ucmp_spec mx ex my ey :
  ucmp mx ex my ey = (inject_Z (Zpos mx) * 2 ^ ex ?= inject_Z (Zpos my) * 2 ^ ey).
Proof.
  unfold ucmp.
  pose proof (mag_bounds mx ex) as [Lx Ux]. pose proof (mag_bounds my ey) as [Ly Uy].
  destruct (Z.compare_spec (gexp mx ex) (gexp my ey)) as [E|L|G].
  - set (l := Z.max (bitlen mx) (bitlen my)).
    rewrite !Z.shiftl_mul_pow2 by lia.
    rewrite <- (Qcompare_scale _ _ (2 ^ (gexp mx ex - l))) by apply P2_pos.
    rewrite (inject_shift (Zpos mx)) by lia.
    rewrite E at 2.
    rewrite (inject_shift (Zpos my)) by lia.
    unfold gexp.
    replace (ex + bitlen mx - l + (l - bitlen mx))%Z with ex by lia.
    replace (ey + bitlen my - l + (l - bitlen my))%Z with ey by lia.
    reflexivity.
  - symmetry. apply Qlt_alt.
    eapply Qlt_le_trans; [exact Ux|]. eapply Qle_trans; [|exact Ly].
    apply P2_le. lia.
  - symmetry. apply Qgt_alt.
    eapply Qlt_le_trans; [exact Uy|]. eapply Qle_trans; [|exact Lx].
    apply P2_le. lia.
Qed.

Local Open Scope Z_scope.

Local Open Scope Q_scope.

Lemma finite_value_pos m e : 0 < inject_Z (Zpos m) * 2 ^ e.
Proof.
  apply Qmult_lt_0_compat; [|apply P2_pos].
  change 0 with (inject_Z 0). rewrite <- Zlt_Qlt. lia.
Qed.

Lemma Qcompare_opp a b : (- a ?= - b) = (b ?= a).
Proof.
  destruct (Qcompare_spec b a) as [E|L|G].
  - apply Qeq_alt. rewrite E. reflexivity.
  - apply Qlt_alt. apply Qopp_lt_compat. assumption.
  - apply Qgt_alt. apply Qopp_lt_compat. assumption.
Qed.

Lemma Qcompare_neg_pos a b : 0 < a -> 0 < b -> (- a ?= b) = Lt.
Proof.
  intros Ha Hb. apply Qlt_alt. apply Qlt_trans with 0; [|assumption].
  change 0 with (- 0). apply Qopp_lt_compat. assumption.
Qed.

Lemma Qcompare_pos_neg a b : 0 < a -> 0 < b -> (a ?= - b) = Gt.
Proof.
  intros Ha Hb. apply Qgt_alt. apply Qlt_trans with 0; [|assumption].
  change 0 with (- 0). apply Qopp_lt_compat. assumption.
Qed.

Lemma Qcompare_0_pos a : 0 < a -> (0 ?= a) = Lt.
Proof. intros. apply Qlt_alt. assumption. Qed.

Lemma Qcompare_pos_0 a : 0 < a -> (a ?= 0) = Gt.
Proof. intros. apply Qgt_alt. assumption. Qed.

Lemma Qcompare_0_neg a : 0 < a -> (0 ?= - a) = Gt.
Proof. intros. apply Qgt_alt. change 0 with (- 0). apply Qopp_lt_compat. assumption. Qed.

Lemma Qcompare_neg_0 a : 0 < a -> (- a ?= 0) = Lt.
Proof. intros. apply Qlt_alt. change 0 with (- 0). apply Qopp_lt_compat. assumption. Qed.

(** [Cmp] compares the values, for operands that are not infinite. *)
Lemma Float_Cmp_spec x y :
  is_inf x = false -> is_inf y = false ->
  Float_Cmp x y = int_of_comparison (Float_value x ?= Float_value y).
Proof.
  destruct x as [px ax fx nx], y as [py ay fy ny].
  unfold is_inf, Float_Cmp, Float_value, ord; simpl.
  intros Hx Hy.
  destruct fx as [|mx ex|], fy as [|my ey|]; try discriminate;
    destruct nx, ny; simpl; try reflexivity;
    pose proof (finite_value_pos mx ex) as Px || idtac;
    pose proof (finite_value_pos my ey) as Py || idtac.
  all: try (rewrite Qcompare_0_pos by assumption; reflexivity).
  all: try (rewrite Qcompare_pos_0 by assumption; reflexivity).
  all: try (rewrite Qcompare_0_neg by assumption; reflexivity).
  all: try (rewrite Qcompare_neg_0 by assumption; reflexivity).
  all: try (rewrite Qcompare_neg_pos by assumption; reflexivity).
  all: try (rewrite Qcompare_pos_neg by assumption; reflexivity).
  - rewrite Qcompare_opp, ucmp_spec. reflexivity.
  - rewrite ucmp_spec. reflexivity.
Qed.

Local Open Scope Z_scope.

(** Low bits of a mantissa *)
Lemma low_bits_zero m r :
  0 <= r -> Z.testbit m r = false -> Z.land m (Z.ones r) = 0 ->
  Z.shiftr m (r + 1) * 2 ^ (r + 1) = m.
Proof.
  intros Hr Hb Hl.
  rewrite Z.land_ones in Hl by assumption.
  rewrite Z.shiftr_div_pow2 by lia.
  assert (H2 : 0 < 2 ^ r) by (apply Z.pow_pos_nonneg; lia).
  pose proof (Z.testbit_spec' m r Hr) as Ht. rewrite Hb in Ht. simpl in Ht.
  assert (Hm : m mod 2 ^ (r + 1) = 0).
  { rewrite Z.pow_add_r by lia. change (2 ^ 1) with 2.
    rewrite Z.rem_mul_r by lia. rewrite Hl, <- Ht. lia. }
  pose proof (Z.div_mod m (2 ^ (r + 1))) as D.
  assert (0 < 2 ^ (r + 1)) by (apply Z.pow_pos_nonneg; lia).
  rewrite Hm in D. lia.
Qed.

Lemma low_bits_of_multiple M k r :
  0 <= r < k -> Z.testbit (M * 2 ^ k) r = false /\ Z.land (M * 2 ^ k) (Z.ones r) = 0.
Proof.
  intros Hr. split.
  - apply Z.mul_pow2_bits_low. lia.
  - rewrite Z.land_ones by lia.
    replace k with ((k - r) + r) by lia. rewrite Z.pow_add_r by lia.
    rewrite Z.mul_assoc. apply Z.mod_mul.
    assert (0 < 2 ^ r) by (apply Z.pow_pos_nonneg; lia). lia.
Qed.

Local Open Scope Q_scope.

(** A rounding reported as [Exact] kept the value. *)
Lemma Float_round_exact p s m e sb f :
  Float_round p s m e sb = (f, Exact) ->
  exists m' e', f = finite m' e' /\
    inject_Z (Zpos m') * 2 ^ e' == inject_Z (Zpos m) * 2 ^ e.
Proof.
  unfold Float_round.
  destruct (Z.leb_spec (bitlen m) p) as [Hle|Hgt].
  { intros [= <-]. exists m, e. split; reflexivity. }
  set (r := (bitlen m - p - 1)%Z).
  destruct (Z.testbit (Zpos m) r) eqn:Hr; simpl.
  { unfold makeAcc.
    repeat (match goal with |- context [if ?c then _ else _] => destruct c end);
      intros [=]. }
  destruct sb; simpl.
  { unfold makeAcc; destruct s; simpl; intros [=]. }
  destruct (Z.eqb_spec (Z.land (Zpos m) (Z.ones r)) 0) as [Hl|Hl]; simpl.
  2:{ unfold makeAcc; destruct s; simpl; intros [=]. }
  intros [= <-].
  assert (Hr0 : (0 <= r)%Z) by (unfold r; lia).
  pose proof (low_bits_zero (Zpos m) r Hr0 Hr Hl) as Hm.
  assert (Hq : (0 < Z.shiftr (Zpos m) (r + 1))%Z).
  { assert (0 < 2 ^ (r + 1))%Z by (apply Z.pow_pos_nonneg; lia).
    destruct (Z.shiftr (Zpos m) (r + 1)) eqn:E; lia. }
  exists (Z.to_pos (Z.shiftr (Zpos m) (r + 1))), (e + r + 1)%Z. split; [reflexivity|].
  rewrite Z2Pos.id by assumption.
  rewrite <- Hm at 2.
  rewrite inject_shift by lia. replace (e + (r + 1))%Z with (e + r + 1)%Z by lia.
  reflexivity.
Qed.

(** A mantissa that is [M × 2^k] with [M] of at most [p] bits is rounded exactly. *)
Lemma Float_round_representable p s m e M k :
  (0 <= k)%Z -> Zpos m = (Zpos M * 2 ^ k)%Z -> (bitlen M <= p)%Z ->
  snd (Float_round p s m e false) = Exact.
Proof.
  intros Hk Hm HM. unfold Float_round.
  destruct (Z.leb_spec (bitlen m) p) as [Hle|Hgt]; [reflexivity|].
  set (r := (bitlen m - p - 1)%Z).
  assert (Hb : bitlen m = (bitlen M + k)%Z).
  { rewrite <- (bitlen_mul_pow2 M k Hk). f_equal. rewrite <- Hm. reflexivity. }
  assert (Hr : (0 <= r < k)%Z) by (unfold r; lia).
  destruct (low_bits_of_multiple (Zpos M) k r Hr) as [H1 H2].
  rewrite Hm, H1, H2. reflexivity.
Qed.

Lemma setExpAndRound_exact p s m e sb f :
  setExpAndRound p s m e sb = (f, Exact) ->
  exists m' e', f = finite m' e' /\
    inject_Z (Zpos m') * 2 ^ e' == inject_Z (Zpos m) * 2 ^ e.
Proof.
  unfold setExpAndRound.
  destruct (gexp m e <? MinExp)%Z; [unfold makeAcc; destruct s; intros [=]|].
  destruct (MaxExp <? gexp m e)%Z; [unfold makeAcc; destruct s; intros [=]|].
  apply Float_round_exact.
Qed.

Local Open Scope Z_scope.

Lemma ucmp_Z mx ex my ey :
  ucmp mx ex my ey =
  (Zpos mx * 2 ^ (ex - Z.min ex ey) ?= Zpos my * 2 ^ (ey - Z.min ex ey)).
Proof.
  rewrite ucmp_spec.
  rewrite <- (Qcompare_scale _ _ (2 ^ Z.min ex ey)%Q) by apply P2_pos.
  rewrite !inject_shift by lia.
  replace (Z.min ex ey + (ex - Z.min ex ey)) with ex by lia.
  replace (Z.min ex ey + (ey - Z.min ex ey)) with ey by lia.
  reflexivity.
Qed.

Lemma add_finite_spec p xn mx ex yn my ey :
  add_finite p xn mx ex yn my ey =
  normalize p (signed_sum xn mx ex yn my ey) (Z.min ex ey).
Proof.
  unfold add_finite, signed_sum, uadd, usub.
  rewrite ucmp_Z. rewrite (Z.min_comm ey ex).
  rewrite !Z.shiftl_mul_pow2 by lia.
  set (ez := Z.min ex ey).
  set (X := Zpos mx * 2 ^ (ex - ez)). set (Y := Zpos my * 2 ^ (ey - ez)).
  assert (HX : 0 < X).
  { unfold X. assert (0 < 2 ^ (ex - ez)) by (apply Z.pow_pos_nonneg; lia). lia. }
  assert (HY : 0 < Y).
  { unfold Y. assert (0 < 2 ^ (ey - ez)) by (apply Z.pow_pos_nonneg; lia). lia. }
  destruct xn, yn; simpl.
  - destruct (X + Y) eqn:E; try lia.
    replace (- X + - Y) with (Z.neg p0) by lia. simpl.
    destruct (setExpAndRound p true p0 ez false); reflexivity.
  - destruct (Z.compare_spec X Y) as [C|C|C].
    + replace (Y - X) with 0 by lia. replace (- X + Y) with 0 by lia. reflexivity.
    + destruct (Y - X) eqn:E; try lia. replace (- X + Y) with (Z.pos p0) by lia.
      simpl. destruct (setExpAndRound p false p0 ez false); reflexivity.
    + destruct (X - Y) eqn:E; try lia. replace (- X + Y) with (Z.neg p0) by lia.
      simpl. destruct (setExpAndRound p true p0 ez false); reflexivity.
  - destruct (Z.compare_spec X Y) as [C|C|C].
    + replace (Y - X) with 0 by lia. replace (X + - Y) with 0 by lia. reflexivity.
    + destruct (Y - X) eqn:E; try lia. replace (X + - Y) with (Z.neg p0) by lia.
      simpl. destruct (setExpAndRound p true p0 ez false); reflexivity.
    + destruct (X - Y) eqn:E; try lia. replace (X + - Y) with (Z.pos p0) by lia.
      simpl. destruct (setExpAndRound p false p0 ez false); reflexivity.
  - destruct (X + Y) eqn:E; try lia. simpl.
    destruct (setExpAndRound p false p0 ez false); reflexivity.
Qed.

Local Open Scope Q_scope.

Lemma signed_sum_value xn mx ex yn my ey :
  inject_Z (signed_sum xn mx ex yn my ey) * 2 ^ Z.min ex ey ==
  signedQ xn mx ex + signedQ yn my ey.
Proof.
  unfold signed_sum, signedQ. set (ez := Z.min ex ey).
  assert (Hx : inject_Z (Zpos mx * 2 ^ (ex - ez)) * 2 ^ ez == inject_Z (Zpos mx) * 2 ^ ex).
  { rewrite inject_shift by lia. replace (ez + (ex - ez))%Z with ex by lia. reflexivity. }
  assert (Hy : inject_Z (Zpos my * 2 ^ (ey - ez)) * 2 ^ ez == inject_Z (Zpos my) * 2 ^ ey).
  { rewrite inject_shift by lia. replace (ez + (ey - ez))%Z with ey by lia. reflexivity. }
  rewrite inject_Z_plus.
  destruct xn, yn; rewrite ?inject_Z_opp; rewrite <- Hx, <- Hy; ring.
Qed.

Lemma normalize_exact p s ez :
  acc (normalize p s ez) = Exact ->
  is_inf (normalize p s ez) = false /\
  Float_value (normalize p s ez) == inject_Z s * 2 ^ ez.
Proof.
  destruct s as [|m|m]; simpl; intros H.
  - split; [reflexivity|]. unfold Float_value; simpl. ring.
  - destruct (setExpAndRound p false m ez false) as [f a] eqn:E. simpl in *. subst a.
    destruct (setExpAndRound_exact _ _ _ _ _ _ E) as (m' & e' & -> & V).
    split; [reflexivity|]. unfold Float_value; simpl. exact V.
  - destruct (setExpAndRound p true m ez false) as [f a] eqn:E. simpl in *. subst a.
    destruct (setExpAndRound_exact _ _ _ _ _ _ E) as (m' & e' & -> & V).
    split; [reflexivity|]. unfold Float_value; simpl. rewrite V.
    change (Z.neg m) with (- Z.pos m)%Z. rewrite inject_Z_opp. ring.
Qed.

(** Equal dyadic values, as integers. *)
Lemma dyadic_eq_Z a e1 b e2 :
  inject_Z a * 2 ^ e1 == inject_Z b * 2 ^ e2 -> (e1 <= e2)%Z ->
  a = (b * 2 ^ (e2 - e1))%Z.
Proof.
  intros H Hle.
  assert (H' : inject_Z a * 2 ^ e1 == inject_Z (b * 2 ^ (e2 - e1)) * 2 ^ e1).
  { rewrite H, inject_shift by lia. replace (e1 + (e2 - e1))%Z with e2 by lia. reflexivity. }
  apply Qmult_inj_r in H'.
  - unfold Qeq in H'. simpl in H'. lia.
  - intro E. pose proof (P2_pos e1) as P. rewrite E in P. discriminate.
Qed.

Lemma gexp_of_value m1 e1 m2 e2 :
  inject_Z (Zpos m1) * 2 ^ e1 == inject_Z (Zpos m2) * 2 ^ e2 ->
  gexp m1 e1 = gexp m2 e2.
Proof.
  intros H.
  pose proof (mag_bounds m1 e1) as [L1 U1]. pose proof (mag_bounds m2 e2) as [L2 U2].
  rewrite H in L1, U1.
  destruct (Z.lt_total (gexp m1 e1) (gexp m2 e2)) as [C|[C|C]]; [|exact C|]; exfalso.
  - assert (2 ^ gexp m1 e1 <= 2 ^ (gexp m2 e2 - 1)) by (apply P2_le; lia).
    apply (Qlt_irrefl (inject_Z (Zpos m2) * 2 ^ e2)).
    eapply Qlt_le_trans; [exact U1|]. eapply Qle_trans; eassumption.
  - assert (2 ^ gexp m2 e2 <= 2 ^ (gexp m1 e1 - 1)) by (apply P2_le; lia).
    apply (Qlt_irrefl (inject_Z (Zpos m2) * 2 ^ e2)).
    eapply Qlt_le_trans; [exact U2|]. eapply Qle_trans; eassumption.
Qed.

(** A value that fits [p] bits and the exponent range is not altered by
    [setExpAndRound]. *)
Lemma setExpAndRound_representable p s m e M E :
  inject_Z (Zpos m) * 2 ^ e == inject_Z (Zpos M) * 2 ^ E ->
  (bitlen M <= p)%Z -> (MinExp <= gexp M E <= MaxExp)%Z ->
  snd (setExpAndRound p s m e false) = Exact.
Proof.
  intros V Hb Hr. unfold setExpAndRound.
  rewrite (gexp_of_value _ _ _ _ V).
  destruct (Z.ltb_spec (gexp M E) MinExp); [lia|].
  destruct (Z.ltb_spec MaxExp (gexp M E)); [lia|].
  destruct (Z_le_gt_dec e E) as [C|C].
  - apply (Float_round_representable p s m e M (E - e)); [lia| |exact Hb].
    apply (dyadic_eq_Z _ _ _ _ V C).
  - symmetry in V. apply dyadic_eq_Z in V; [|lia].
    apply (Float_round_representable p s m e m 0); [lia|lia|].
    assert (Zpos m <= Zpos M)%Z.
    { rewrite V. assert (0 < 2 ^ (e - E))%Z by (apply Z.pow_pos_nonneg; lia). nia. }
    pose proof (bitlen_le_mono _ _ H1). lia.
Qed.

Local Open Scope Z_scope.

Lemma bind_Done {A B} (a : A) (k : A -> outcome B) : bind (Done a) k = k a.
Proof. reflexivity. Qed.

Lemma umax32_ge_l x y : x <= umax32 x y.
Proof. unfold umax32. destruct (Z.ltb_spec y x); lia. Qed.

Lemma umax32_ge_r x y : y <= umax32 x y.
Proof. unfold umax32. destruct (Z.ltb_spec y x); lia. Qed.

(** [Set] into a receiver whose precision is 0 or not below the operand's
    copies form and sign. *)
Lemma Float_Set_copy z x :
  prec z = 0 \/ prec x <= prec z ->
  fform (Float_Set z x) = fform x /\ neg (Float_Set z x) = neg x /\
  acc (Float_Set z x) = Exact /\
  prec (Float_Set z x) = (if prec z =? 0 then prec x else prec z).
Proof.
  intros H. unfold Float_Set.
  assert (E : ((if prec z =? 0 then prec x else prec z) <? prec x) = false).
  { destruct (Z.eqb_spec (prec z) 0); apply Z.ltb_ge; lia. }
  destruct (fform x); rewrite ?E; simpl; auto.
Qed.

Lemma ucmp_refl m e : ucmp m e m e = Eq.
Proof. rewrite ucmp_spec. apply Qeq_alt. reflexivity. Qed.

Lemma Float_Cmp_same x y :
  fform x = fform y -> neg x = neg y -> Float_Cmp x y = 0.
Proof.
  intros Hf Hn. unfold Float_Cmp, ord. rewrite Hf, Hn.
  rewrite Z.ltb_irrefl.
  destruct (fform y); try reflexivity.
  rewrite ucmp_refl. destruct (neg y); reflexivity.
Qed.

Lemma Float_Cmp_zero_zero x y :
  fform x = zero -> fform y = zero -> Float_Cmp x y = 0.
Proof.
  intros Hx Hy. unfold Float_Cmp, ord. rewrite Hx, Hy.
  destruct (neg x), (neg y); reflexivity.
Qed.

Lemma tolerance_eq : big_NewFloat (f64_lit 1 1000000000) = Done tolerance.
Proof. vm_compute. reflexivity. Qed.

Lemma tolerance_above : (1 # 1000000000 <= Float_value tolerance)%Q.
Proof. vm_compute. discriminate. Qed.

(** Subtracting a zero keeps the form and, off zero, the sign. *)
Lemma Float_Sub_zero_r x y :
  fform y = zero ->
  exists d, Float_Sub Float_new x y = Done d /\ fform d = fform x /\
            (fform x <> zero -> neg d = neg x).
Proof.
  intros Hy. unfold Float_Sub. rewrite Hy.
  set (p := result_prec Float_new x y).
  destruct (Float_Set_copy (with_prec p Float_new) x) as (F & N & _).
  { simpl. right. apply umax32_ge_l. }
  destruct (fform x) eqn:E.
  - eexists. split; [reflexivity|]. simpl. split; [reflexivity|]. congruence.
  - eexists. split; [reflexivity|]. split; [exact F|intros _; exact N].
  - eexists. split; [reflexivity|]. split; [exact F|intros _; exact N].
Qed.

Lemma Float_Abs_new d :
  fform (Float_Abs Float_new d) = fform d /\ neg (Float_Abs Float_new d) = false.
Proof.
  unfold Float_Abs. destruct (Float_Set_copy Float_new d) as (F & _); [left; reflexivity|].
  simpl. auto.
Qed.

Lemma Float_Cmp_tolerance x :
  neg x = false -> (Float_Cmp x tolerance =? -1) = below_tolerance (fform x).
Proof.
  intros Hn. unfold Float_Cmp, ord, below_tolerance. rewrite Hn.
  destruct (fform x); reflexivity.
Qed.

Lemma LikelyEqual_zero p z :
  currency z = currency p -> fform (amount z) = zero ->
  Price_LikelyEqual p z = Done (below_tolerance (fform (amount p))).
Proof.
  intros Hc Hz. unfold Price_LikelyEqual. rewrite Hc, String.eqb_refl.
  cbn [negb].
  destruct (Float_Sub_zero_r (amount p) (amount z) Hz) as (d & -> & F & _).
  rewrite bind_Done, tolerance_eq, bind_Done.
  destruct (Float_Abs_new d) as (F' & N').
  rewrite Float_Cmp_tolerance by exact N'. rewrite F', F. reflexivity.
Qed.

(** [IsZero] never panics; it is the tolerance test on the amount. *)
Lemma Price_IsZero_spec p :
  Price_IsZero p = Done (below_tolerance (fform (amount p))).
Proof.
  unfold Price_IsZero, Price_Currency.
  rewrite LikelyEqual_zero by reflexivity. rewrite bind_Done.
  destruct (below_tolerance (fform (amount p))) eqn:E; [reflexivity|].
  unfold NewFromFloat.
  change (big_NewFloat (f64_of_Z 0))
    with (Done {| prec := 53; acc := Exact; fform := zero; neg := false |}).
  rewrite !bind_Done.
  rewrite LikelyEqual_zero by reflexivity. rewrite E. reflexivity.
Qed.

Lemma below_tolerance_small m e n :
  (Qabs (Float_value {| prec := 0; acc := Exact; fform := finite m e; neg := n |})
   < 1 # 1000000000)%Q ->
  below_tolerance (finite m e) = true.
Proof.
  intros H. unfold below_tolerance.
  rewrite ucmp_spec.
  assert (V : (inject_Z (Zpos m) * 2 ^ e < inject_Z 4835703278458517 * 2 ^ (-82))%Q).
  { eapply Qlt_le_trans; [|exact tolerance_above].
    eapply Qle_lt_trans; [|exact H].
    unfold Float_value; simpl.
    pose proof (finite_value_pos m e) as P.
    destruct n.
    - rewrite Qabs_opp, Qabs_pos; [apply Qle_refl|apply Qlt_le_weak, P].
    - rewrite Qabs_pos; [apply Qle_refl|apply Qlt_le_weak, P]. }
  assert (C : (inject_Z (Zpos m) * 2 ^ e ?= inject_Z 4835703278458517 * 2 ^ (-82))%Q = Lt)
    by (apply Qlt_alt; exact V).
  rewrite C. reflexivity.
Qed.

Local Open Scope Z_scope.

Lemma below_tolerance_of_value x m e :
  fform x = finite m e ->
  (Qabs (Float_value x) < 1 # 1000000000)%Q ->
  below_tolerance (fform x) = true.
Proof.
  intros F H. rewrite F. apply (below_tolerance_small m e (neg x)).
  unfold Float_value in *. simpl. rewrite F in H. exact H.
Qed.

Lemma eqb_false_of_neq (s t : string) : s <> t -> String.eqb s t = false.
Proof. intros H. apply String.eqb_neq. exact H. Qed.

Lemma Float_Add_finite_l z x y m e :
  fform x = finite m e -> exists s, Float_Add z x y = Done s.
Proof.
  intros F. unfold Float_Add. rewrite F. destruct (fform y); eexists; reflexivity.
Qed.

(** C10 (IsZero, currencyGuard).  The guard's zero test is the tolerance
    comparison: an Amount that is not exactly zero but below 1e-9 in
    magnitude, added to an Amount of another currency, gives no error; the
    sum carries the other currency and includes the small value. *)
Theorem C10_sub_tolerance_amount_crosses_currency a b m e :
  currency a <> currency b ->
  fform (amount a) = finite m e ->
  (Qabs (Float_value (amount a)) < 1 # 1000000000)%Q ->
  exists s, Float_Add Float_new (amount a) (amount b) = Done s /\
            Price_Add a b = Done ({| amount := s; currency := currency b |}, None).
Proof.
  intros Hc F H.
  destruct (Float_Add_finite_l Float_new (amount a) (amount b) m e F) as [s Hs].
  exists s. split; [exact Hs|].
  unfold Price_Add, Price_currencyGuard.
  rewrite (eqb_false_of_neq _ _ Hc), Price_IsZero_spec, bind_Done.
  rewrite (below_tolerance_of_value _ m e F H).
  rewrite bind_Done. cbn [Price_blank amount currency].
  rewrite Hs. reflexivity.
Qed.

Lemma Float_Add_zero_l x y :
  fform x = zero ->
  exists s, Float_Add Float_new x y = Done s /\ Float_Cmp s y = 0.
Proof.
  intros F. unfold Float_Add. rewrite F.
  set (p := result_prec Float_new x y).
  destruct (Float_Set_copy (with_prec p Float_new) y) as (Fy & Ny & _).
  { simpl. right. apply umax32_ge_r. }
  destruct (fform y) eqn:E.
  - eexists. split; [reflexivity|]. apply Float_Cmp_zero_zero; [reflexivity|exact E].
  - eexists. split; [reflexivity|]. apply Float_Cmp_same; [rewrite Fy, E; reflexivity|exact Ny].
  - eexists. split; [reflexivity|]. apply Float_Cmp_same; [rewrite Fy, E; reflexivity|exact Ny].
Qed.

(** C2 (currencyGuard, Add, Sub).  If the currencies differ and neither
    operand is zero by IsZero, Add and Sub return the currency-mismatch
    error; and for every Amount of value exactly zero, whatever its
    currency, adding any other Amount succeeds, carries that Amount's
    currency and is Equal to it. *)
Theorem C2_currency_guard a b :
  (currency a <> currency b ->
   Price_IsZero a = Done false -> Price_IsZero b = Done false ->
   Price_Add a b = Done (NewZero (currency a), Some err_currency) /\
   Price_Sub a b = Done (NewZero (currency a), Some err_currency)) /\
  (fform (amount a) = zero ->
   exists r, Price_Add a b = Done (r, None) /\
             currency r = currency b /\ Price_Equal r b = true).
Proof.
  split.
  - intros Hc Ha Hb. unfold Price_Add, Price_Sub, Price_currencyGuard.
    rewrite (eqb_false_of_neq _ _ Hc), Ha, Hb. split; reflexivity.
  - intros F.
    destruct (Float_Add_zero_l (amount a) (amount b) F) as (s & Hs & Hcmp).
    exists {| amount := s; currency := currency b |}.
    assert (G : Price_currencyGuard a b = Done (Price_blank (currency b), None)).
    { unfold Price_currencyGuard.
      destruct (String.eqb (currency a) (currency b)); [reflexivity|].
      rewrite Price_IsZero_spec, F. reflexivity. }
    unfold Price_Add. rewrite G, bind_Done. cbn [Price_blank amount currency].
    rewrite Hs. split; [reflexivity|]. split; [reflexivity|].
    unfold Price_Equal. cbn [amount currency]. rewrite String.eqb_refl, Hcmp. reflexivity.
Qed.

Local Open Scope Z_scope.

Lemma Float_Add_finite z x y mx ex my ey :
  fform x = finite mx ex -> fform y = finite my ey ->
  Float_Add z x y =
  Done (normalize (result_prec z x y) (signed_sum (neg x) mx ex (neg y) my ey) (Z.min ex ey)).
Proof.
  intros Fx Fy. unfold Float_Add. rewrite Fx, Fy, add_finite_spec. reflexivity.
Qed.

Lemma Float_Sub_finite z x y mx ex my ey :
  fform x = finite mx ex -> fform y = finite my ey ->
  Float_Sub z x y =
  Done (normalize (result_prec z x y)
          (signed_sum (neg x) mx ex (negb (neg y)) my ey) (Z.min ex ey)).
Proof.
  intros Fx Fy. unfold Float_Sub. rewrite Fx, Fy, add_finite_spec. reflexivity.
Qed.

Lemma prec_normalize p s ez : prec (normalize p s ez) = p.
Proof. destruct s; reflexivity. Qed.

Lemma signedQ_value x m e : fform x = finite m e -> Float_value x = signedQ (neg x) m e.
Proof. intros F. unfold Float_value, signedQ. rewrite F. reflexivity. Qed.

Lemma signedQ_negb n m e : (signedQ (negb n) m e == - signedQ n m e)%Q.
Proof. unfold signedQ. destruct n; simpl; ring. Qed.

Lemma normalize_representable p S ez n M E :
  (inject_Z S * 2 ^ ez == signedQ n M E)%Q ->
  bitlen M <= p -> MinExp <= gexp M E <= MaxExp ->
  acc (normalize p S ez) = Exact.
Proof.
  intros V Hb Hr.
  pose proof (finite_value_pos M E) as PM.
  destruct S as [|s|s]; simpl; [reflexivity| |].
  - pose proof (finite_value_pos s ez) as Ps.
    destruct n; unfold signedQ in V.
    + exfalso. rewrite V in Ps.
      apply (Qlt_irrefl 0). eapply Qlt_trans; [exact Ps|].
      change 0%Q with (- 0)%Q. apply Qopp_lt_compat. exact PM.
    + apply (setExpAndRound_representable p false s ez M E V Hb Hr).
  - pose proof (finite_value_pos s ez) as Ps.
    assert (V' : (inject_Z (Z.neg s) * 2 ^ ez == - (inject_Z (Zpos s) * 2 ^ ez))%Q).
    { change (Z.neg s) with (- Z.pos s). rewrite inject_Z_opp. ring. }
    destruct n; unfold signedQ in V.
    + apply (setExpAndRound_representable p true s ez M E); [|exact Hb|exact Hr].
      rewrite V' in V.
      rewrite <- (Qopp_involutive (inject_Z (Z.pos s) * 2 ^ ez)), V.
      apply Qopp_involutive.
    + exfalso. rewrite V' in V.
      apply (Qlt_irrefl 0). eapply Qlt_trans; [exact PM|]. rewrite <- V.
      change 0%Q with (- 0)%Q. apply Qopp_lt_compat. exact Ps.
Qed.

Lemma signed_sum_cancel n m e : signed_sum n m e (negb n) m e = 0.
Proof. unfold signed_sum. destruct n; simpl; lia. Qed.

Lemma Float_wf_finite x m e :
  Float_wf x = true -> fform x = finite m e ->
  bitlen m <= prec x /\ MinExp <= gexp m e <= MaxExp.
Proof.
  unfold Float_wf. intros H F. rewrite F in H.
  repeat (apply andb_prop in H; destruct H as [H ?]). lia.
Qed.

(** Adding and subtracting back on [big.Float]: when the sum came out
    exact, the difference compares equal to the first operand. *)
Lemma Float_add_sub_exact x y :
  Float_wf x = true -> is_inf y = false ->
  exists s, Float_Add Float_new x y = Done s /\
    (acc s = Exact -> exists r, Float_Sub Float_new s y = Done r /\ Float_Cmp r x = 0).
Proof.
  intros W Hy.
  destruct (fform x) as [|mx ex|] eqn:Fx; destruct (fform y) as [|my ey|] eqn:Fy;
    try (unfold is_inf in Hy; rewrite Fy in Hy; discriminate).
  - (* 0 + 0 *)
    unfold Float_Add. rewrite Fx, Fy. eexists. split; [reflexivity|]. intros _.
    unfold Float_Sub. rewrite Fy. cbn [fform]. eexists. split; [reflexivity|].
    apply Float_Cmp_zero_zero; [reflexivity|exact Fx].
  - (* 0 + y *)
    unfold Float_Add. rewrite Fx, Fy. eexists. split; [reflexivity|]. intros _.
    set (s := Float_Set _ y).
    destruct (Float_Set_copy (with_prec (result_prec Float_new x y) Float_new) y)
      as (Fs & Ns & _).
    { simpl. right. apply umax32_ge_r. }
    fold s in Fs, Ns. rewrite Fy in Fs.
    rewrite (Float_Sub_finite _ s y my ey my ey Fs Fy).
    eexists. split; [reflexivity|].
    rewrite Ns, signed_sum_cancel. apply Float_Cmp_zero_zero; [reflexivity|exact Fx].
  - (* x + 0 *)
    unfold Float_Add. rewrite Fx, Fy. eexists. split; [reflexivity|]. intros _.
    set (s := Float_Set _ x).
    destruct (Float_Set_copy (with_prec (result_prec Float_new x y) Float_new) x)
      as (Fs & Ns & _).
    { simpl. right. apply umax32_ge_l. }
    fold s in Fs, Ns. rewrite Fx in Fs.
    unfold Float_Sub. rewrite Fs, Fy. eexists. split; [reflexivity|].
    destruct (Float_Set_copy (with_prec (result_prec Float_new s y) Float_new) s)
      as (Fr & Nr & _).
    { simpl. right. apply umax32_ge_l. }
    apply Float_Cmp_same; [rewrite Fr, Fs, Fx; reflexivity|rewrite Nr, Ns; reflexivity].
  - (* x + y, both finite *)
    rewrite (Float_Add_finite _ x y mx ex my ey Fx Fy).
    eexists. split; [reflexivity|]. intros Hacc.
    set (p := result_prec Float_new x y) in *.
    set (S := signed_sum (neg x) mx ex (neg y) my ey) in *.
    set (s := normalize p S (Z.min ex ey)) in *.
    destruct (normalize_exact p S (Z.min ex ey) Hacc) as (Is & Vs).
    fold s in Is, Vs.
    assert (Vs' : (Float_value s == signedQ (neg x) mx ex + signedQ (neg y) my ey)%Q).
    { rewrite Vs. unfold S. apply signed_sum_value. }
    clear Vs. rename Vs' into Vs.
    destruct (Float_wf_finite x mx ex W Fx) as (Bx & Rx).
    assert (Hp : prec x <= p) by apply umax32_ge_l.
    assert (Ix : is_inf x = false) by (unfold is_inf; rewrite Fx; reflexivity).
    destruct (fform s) as [|ms es|] eqn:Fs.
    + (* the operands cancelled *)
      unfold Float_Sub. rewrite Fs, Fy.
      eexists. split; [reflexivity|].
      set (r := Float_Neg _ y).
      destruct (Float_Set_copy (with_prec (result_prec Float_new s y) Float_new) y)
        as (Fr & Nr & _).
      { simpl. right. apply umax32_ge_r. }
      assert (Fr' : fform r = finite my ey) by (unfold r, Float_Neg; simpl; rewrite Fr; exact Fy).
      assert (Nr' : neg r = negb (neg y)) by (unfold r, Float_Neg; simpl; rewrite Nr; reflexivity).
      rewrite Float_Cmp_spec; [|unfold is_inf; rewrite Fr'; reflexivity|exact Ix].
      assert (E : (Float_value r == Float_value x)%Q).
      { rewrite (signedQ_value r my ey Fr'), (signedQ_value x mx ex Fx), Nr', signedQ_negb.
        assert (Z0 : (Float_value s == 0)%Q) by (unfold Float_value; rewrite Fs; destruct (neg s); reflexivity).
        rewrite Z0 in Vs.
        rewrite <- (Qplus_0_l (- signedQ (neg y) my ey)), Vs. ring. }
      apply Qeq_alt in E. rewrite E. reflexivity.
    + rewrite (Float_Sub_finite _ s y ms es my ey Fs Fy).
      eexists. split; [reflexivity|].
      set (p' := result_prec Float_new s y).
      set (S' := signed_sum (neg s) ms es (negb (neg y)) my ey).
      assert (V' : (inject_Z S' * 2 ^ Z.min es ey == signedQ (neg x) mx ex)%Q).
      { unfold S'. rewrite signed_sum_value, signedQ_negb.
        rewrite <- (signedQ_value s ms es Fs), Vs. ring. }
      assert (Hp' : p <= p').
      { unfold p'. change (result_prec Float_new s y) with (umax32 (prec s) (prec y)).
        unfold s. rewrite prec_normalize. apply umax32_ge_l. }
      assert (A : acc (normalize p' S' (Z.min es ey)) = Exact).
      { apply (normalize_representable p' S' _ (neg x) mx ex V'); lia. }
      destruct (normalize_exact p' S' _ A) as (Ir & Vr).
      rewrite Float_Cmp_spec; [|exact Ir|exact Ix].
      assert (E : (Float_value (normalize p' S' (Z.min es ey)) == Float_value x)%Q).
      { rewrite Vr, V'. rewrite (signedQ_value x mx ex Fx). reflexivity. }
      apply Qeq_alt in E. rewrite E. reflexivity.
    + discriminate Is || (unfold is_inf in Is; rewrite Fs in Is; discriminate).
  - (* Inf + 0 *)
    unfold Float_Add. rewrite Fx, Fy. eexists. split; [reflexivity|]. intros _.
    set (s := Float_Set _ x).
    destruct (Float_Set_copy (with_prec (result_prec Float_new x y) Float_new) x)
      as (Fs & Ns & _).
    { simpl. right. apply umax32_ge_l. }
    fold s in Fs, Ns. rewrite Fx in Fs.
    unfold Float_Sub. rewrite Fs, Fy. eexists. split; [reflexivity|].
    destruct (Float_Set_copy (with_prec (result_prec Float_new s y) Float_new) s)
      as (Fr & Nr & _).
    { simpl. right. apply umax32_ge_l. }
    apply Float_Cmp_same; [rewrite Fr, Fs, Fx; reflexivity|rewrite Nr, Ns; reflexivity].
  - (* Inf + y *)
    unfold Float_Add. rewrite Fx, Fy. eexists. split; [reflexivity|]. intros _.
    set (s := Float_Set _ x).
    destruct (Float_Set_copy (with_prec (result_prec Float_new x y) Float_new) x)
      as (Fs & Ns & _).
    { simpl. right. apply umax32_ge_l. }
    fold s in Fs, Ns. rewrite Fx in Fs.
    unfold Float_Sub. rewrite Fs, Fy. eexists. split; [reflexivity|].
    destruct (Float_Set_copy (with_prec (result_prec Float_new s y) Float_new) s)
      as (Fr & Nr & _).
    { simpl. right. apply umax32_ge_l. }
    apply Float_Cmp_same; [rewrite Fr, Fs, Fx; reflexivity|rewrite Nr, Ns; reflexivity].
Qed.

(** C8 (Add, Sub).  For Amounts of one currency, the first well formed
    and the second not infinite, Add succeeds, and whenever the sum is exact
    subtracting the second again succeeds and gives an Amount Equal to the
    first. *)
Theorem C8_add_then_sub a b :
  currency a = currency b ->
  Float_wf (amount a) = true -> is_inf (amount b) = false ->
  exists s, Price_Add a b = Done (s, None) /\
    (acc (amount s) = Exact ->
     exists r, Price_Sub s b = Done (r, None) /\ Price_Equal r a = true).
Proof.
  intros Hc W Hb.
  destruct (Float_add_sub_exact (amount a) (amount b) W Hb) as (fs & Hs & K).
  exists {| amount := fs; currency := currency b |}. split.
  - unfold Price_Add, Price_currencyGuard. rewrite Hc, String.eqb_refl, bind_Done.
    cbn [Price_blank amount currency]. rewrite Hs. reflexivity.
  - cbn [amount]. intros A. destruct (K A) as (fr & Hr & Hcmp).
    exists {| amount := fr; currency := currency b |}. split.
    + unfold Price_Sub, Price_currencyGuard. cbn [currency].
      rewrite String.eqb_refl, bind_Done. cbn [Price_blank amount currency].
      rewrite Hr. reflexivity.
    + unfold Price_Equal. cbn [amount currency].
      rewrite Hc, String.eqb_refl, Hcmp. reflexivity.
Qed.

Local Open Scope Z_scope.

Section PlatformFacts.

Variable cvt_overflow : float64 -> Z.
Variable unicode_ToLower : string -> string.

Ltac rounds :=
  intros cur; eexists; eexists;
  split; [vm_compute; reflexivity|];
  split; [vm_compute; reflexivity|];
  split; [reflexivity|vm_compute; reflexivity].

(** C3 (GetPayableByRoundingMode).  The rounding table: HalfUp and
    HalfDown at precision 1 (7.5, 7.4, -7.5, -7.45), Floor and Ceil at
    precision 100 (12.34567 and its negative) round to the values
    listed. *)
Theorem C3_rounding_table :
  rounds_to cvt_overflow (f64_lit 75 10) RoundingModeHalfUp 1 8 1 /\
  rounds_to cvt_overflow (f64_lit 74 10) RoundingModeHalfUp 1 7 1 /\
  rounds_to cvt_overflow (f64_lit (-75) 10) RoundingModeHalfUp 1 (-8) 1 /\
  rounds_to cvt_overflow (f64_lit (-745) 100) RoundingModeHalfUp 1 (-7) 1 /\
  rounds_to cvt_overflow (f64_lit 75 10) RoundingModeHalfDown 1 7 1 /\
  rounds_to cvt_overflow (f64_lit (-75) 10) RoundingModeHalfDown 1 (-7) 1 /\
  rounds_to cvt_overflow (f64_lit 1234567 100000) RoundingModeFloor 100 1234 100 /\
  rounds_to cvt_overflow (f64_lit (-1234567) 100000) RoundingModeFloor 100 (-1235) 100 /\
  rounds_to cvt_overflow (f64_lit 1234567 100000) RoundingModeCeil 100 1235 100 /\
  rounds_to cvt_overflow (f64_lit (-1234567) 100000) RoundingModeCeil 100 (-1234) 100.
Proof.
  repeat split; rounds.
Qed.

End PlatformFacts.

Lemma C3_counterexample :
  ~ rounds_to cvt_amd64 (f64_lit 75 10) RoundingModeHalfUp 10 8 1 /\
  rounds_to cvt_amd64 (f64_lit 75 10) RoundingModeHalfUp 10 75 10.
Proof.
  split.
  - intros H. destruct (H "EUR"%string) as (r & e & H1 & H2 & _ & H3).
    vm_compute in H1. vm_compute in H2.
    injection H1 as <-. injection H2 as <-.
    vm_compute in H3. discriminate.
  - intros cur; eexists; eexists;
    split; [vm_compute; reflexivity|];
    split; [vm_compute; reflexivity|];
    split; [reflexivity|vm_compute; reflexivity].
Qed.

Local Open Scope Z_scope.

Section PolicyFacts.

Variable cvt_overflow : float64 -> Z.
Variable unicode_ToLower : string -> string.

Lemma ToLower_miles : strings_ToLower unicode_ToLower "miles" = "miles"%string.
Proof. reflexivity. Qed.

Lemma ToLower_points : strings_ToLower unicode_ToLower "points" = "points"%string.
Proof. reflexivity. Qed.

(** C5 (payableRoundingPrecision, GetPayable).  The payable policy: a
    currency equal to "miles" or "points" up to case rounds with Floor at
    precision 1, every other currency with HalfUp at precision 100; 12.34567
    EUR becomes 12.35 and -0.119 EUR becomes -0.12. *)
Theorem C5_payable_policy :
  (forall p,
     equal_fold unicode_ToLower (currency p) "miles" \/
     equal_fold unicode_ToLower (currency p) "points" ->
     Price_GetPayable cvt_overflow unicode_ToLower p =
     Price_GetPayableByRoundingMode cvt_overflow p RoundingModeFloor 1) /\
  (forall p,
     ~ equal_fold unicode_ToLower (currency p) "miles" ->
     ~ equal_fold unicode_ToLower (currency p) "points" ->
     Price_GetPayable cvt_overflow unicode_ToLower p =
     Price_GetPayableByRoundingMode cvt_overflow p RoundingModeHalfUp 100) /\
  (exists r,
     (do a <- NewFromFloat (f64_lit 1234567 100000) "EUR";
      Price_GetPayable cvt_overflow unicode_ToLower a) = Done r /\
     NewFromInt 1235 100 "EUR" = Done r /\
     Price_FloatAmount r = f64_lit 1235 100) /\
  (exists r,
     (do a <- NewFromFloat (f64_lit (-119) 1000) "EUR";
      Price_GetPayable cvt_overflow unicode_ToLower a) = Done r /\
     NewFromInt (-12) 100 "EUR" = Done r /\
     Price_FloatAmount r = f64_lit (-12) 100).
Proof.
  split; [|split; [|split]].
  - intros p H. unfold Price_GetPayable, Price_payableRoundingPrecision.
    unfold equal_fold in H. rewrite ToLower_miles, ToLower_points in H.
    destruct H as [H|H]; rewrite H; [reflexivity|].
    rewrite orb_true_r. reflexivity.
  - intros p H1 H2. unfold Price_GetPayable, Price_payableRoundingPrecision.
    unfold equal_fold in H1, H2. rewrite ToLower_miles in H1. rewrite ToLower_points in H2.
    apply String.eqb_neq in H1. apply String.eqb_neq in H2.
    rewrite H1, H2. reflexivity.
  - eexists. split; [vm_compute; reflexivity|].
    split; vm_compute; reflexivity.
  - eexists. split; [vm_compute; reflexivity|].
    split; vm_compute; reflexivity.
Qed.

End PolicyFacts.

Lemma C5_payable_policy_witness :
  (equal_fold ToLower_caseless "MILES" "miles" \/
   equal_fold ToLower_caseless "MILES" "points") /\
  Price_GetPayable cvt_amd64 ToLower_caseless (NewZero "MILES") =
  Price_GetPayableByRoundingMode cvt_amd64 (NewZero "MILES") RoundingModeFloor 1 /\
  ~ equal_fold ToLower_caseless "EUR" "miles" /\
  ~ equal_fold ToLower_caseless "EUR" "points" /\
  Price_GetPayable cvt_amd64 ToLower_caseless (NewZero "EUR") =
  Price_GetPayableByRoundingMode cvt_amd64 (NewZero "EUR") RoundingModeHalfUp 100.
Proof.
  destruct (C5_payable_policy cvt_amd64 ToLower_caseless) as (H1 & H2 & _).
  split; [left; reflexivity|].
  split; [apply (H1 (NewZero "MILES")); left; reflexivity|].
  split; [discriminate|]. split; [discriminate|].
  apply (H2 (NewZero "EUR")); discriminate.
Defined.

Local Open Scope Z_scope.

Lemma Price_IsNegative_Done p :
  Price_IsNegative p =
  Done (Float_Cmp (amount p) {| prec := 53; acc := Exact; fform := zero; neg := false |} =? -1).
Proof. reflexivity. Qed.

Lemma wrap64_range n : in_int64 (wrap64 n) = true.
Proof.
  unfold in_int64, wrap64, MinInt64, MaxInt64.
  pose proof (Z.mod_pos_bound (n + 2 ^ 63) (2 ^ 64) ltac:(lia)).
  apply andb_true_intro. split; apply Z.leb_le; lia.
Qed.

Lemma f64_trunc_norm s i :
  f64_trunc (f64_norm s i 0) = Some (if s then - Zpos i else Zpos i).
Proof.
  unfold f64_norm, f64_trunc.
  set (k := Z.max 0 (Z.min (f64_prec - (Z.log2 (Z.pos i) + 1)) (0 + 1074))).
  assert (Hk : 0 <= k) by (unfold k; lia).
  clearbody k.
  assert (H2 : 0 < 2 ^ k) by (apply Z.pow_pos_nonneg; lia).
  rewrite Z2Pos.id by lia.
  destruct (Z.leb_spec 0 (0 - k)).
  - assert (k = 0) by lia. replace (0 - k) with 0 by lia.
    rewrite Z.shiftl_0_r. replace (2 ^ k) with 1 by (subst; reflexivity).
    rewrite Z.mul_1_r. reflexivity.
  - replace (- (0 - k)) with k by lia.
    rewrite Z.shiftr_div_pow2 by lia. rewrite Z.div_mul by lia. reflexivity.
Qed.

Section RoundingFacts.

Variable cvt_overflow : float64 -> Z.

Lemma int64_of_f64_range f : in_int64 (int64_of_f64 cvt_overflow f) = true.
Proof.
  unfold int64_of_f64. destruct (f64_trunc f) as [n|].
  - destruct (in_int64 n) eqn:E; [exact E|apply wrap64_range].
  - apply wrap64_range.
Qed.

(** The integer part [math.Modf] yields converts to the truncation of the
    argument itself. *)
Lemma int64_of_Modf f n :
  f64_trunc f = Some n -> in_int64 n = true ->
  int64_of_f64 cvt_overflow (fst (math_Modf f)) = n.
Proof.
  intros T R. unfold int64_of_f64.
  assert (E : f64_trunc (fst (math_Modf f)) = Some n).
  { destruct f as [s|s| |s m e]; try discriminate; simpl in *.
    - exact T.
    - destruct (Z.leb_spec 0 e); simpl.
      + destruct (Z.leb_spec 0 e); [exact T|lia].
      + injection T as <-.
        pose proof (Z.shiftr_nonneg (Zpos m) (- e)) as Hn.
        destruct (Z.shiftr (Z.pos m) (- e)) as [|i|i] eqn:Ei.
        * simpl. destruct s; reflexivity.
        * rewrite f64_trunc_norm. reflexivity.
        * exfalso. assert (0 <= Z.neg i) by (apply Hn; lia). lia. }
  rewrite E, R. reflexivity.
Qed.

Lemma GetPayableByRoundingMode_unfold p mode precision scaled :
  Float_Mul Float_new (amount p) (Float_SetInt64 Float_new precision) = Done scaled ->
  f64_ge (Float_Float64 scaled) (f64_of_Z MaxInt64) = false ->
  mode_increments mode
    (if Float_Cmp (amount p) {| prec := 53; acc := Exact; fform := zero; neg := false |} =? -1
     then -1 else 1)
    (valueAfterPrecision_of (snd (math_Modf (Float_Float64 scaled)))
       (if Float_Cmp (amount p) {| prec := 53; acc := Exact; fform := zero; neg := false |} =? -1
        then -1 else 1)) = false ->
  Price_GetPayableByRoundingMode cvt_overflow p mode precision =
  (do q <- Float_Quo Float_new
             (Float_SetInt64 Float_new
                (int64_of_f64 cvt_overflow (fst (math_Modf (Float_Float64 scaled)))))
             (Float_SetInt64 Float_new precision);
   Done {| amount := q; currency := currency p |}).
Proof.
  intros HM HG HI. unfold Price_GetPayableByRoundingMode.
  rewrite Price_IsNegative_Done, bind_Done.
  unfold Float_Copy, Price_precisionF. rewrite HM, bind_Done.
  destruct (math_Modf (Float_Float64 scaled)) as [ip fp] eqn:EM.
  rewrite HG. unfold valueAfterPrecision_of in HI. cbn [fst snd] in *.
  rewrite HI. reflexivity.
Qed.

Lemma mode_increments_unknown mode negative v :
  mode <> RoundingModeFloor -> mode <> RoundingModeCeil ->
  mode <> RoundingModeHalfUp -> mode <> RoundingModeHalfDown ->
  mode_increments mode negative v = false.
Proof.
  intros H1 H2 H3 H4. unfold mode_increments.
  apply String.eqb_neq in H1, H2, H3, H4. rewrite H1, H2, H3, H4. reflexivity.
Qed.

Lemma Float_SetInt64_new_form k :
  Float_SetInt64 Float_new k =
  {| prec := 64; acc := Exact;
     fform := match Z.abs k with Zpos u => finite u 0 | _ => zero end;
     neg := k <? 0 |}.
Proof. unfold Float_SetInt64. cbn [prec Float_new]. destruct (Z.abs k); reflexivity. Qed.

Lemma NewFromInt_total a precision cur :
  precision <> 0 ->
  exists r, NewFromInt a precision cur = Done r /\ currency r = cur.
Proof.
  intros H. unfold NewFromInt. apply Z.eqb_neq in H. rewrite H.
  rewrite !Float_SetInt64_new_form. unfold Float_Quo. cbn [fform].
  apply Z.eqb_neq in H.
  destruct (Z.abs precision) as [|u|u] eqn:E; try lia.
  destruct (Z.abs a) as [|v|v]; rewrite ?bind_Done;
    try (eexists; split; reflexivity).
  destruct (uquo _ _ _ _ _ _). rewrite bind_Done. eexists; split; reflexivity.
Qed.

(** C9 (GetPayableByRoundingMode).  A mode that is none of the four
    constants performs no increment: when the float64 image of the scaled
    amount is below float64(MaxInt64) and truncates to an int64, the result
    is NewFromInt of that truncation at the precision, in the same
    currency. *)
Theorem C9_unknown_mode_truncates p mode precision scaled n :
  mode <> RoundingModeFloor -> mode <> RoundingModeCeil ->
  mode <> RoundingModeHalfUp -> mode <> RoundingModeHalfDown ->
  precision <> 0 ->
  Float_Mul Float_new (amount p) (Float_SetInt64 Float_new precision) = Done scaled ->
  f64_ge (Float_Float64 scaled) (f64_of_Z MaxInt64) = false ->
  f64_trunc (Float_Float64 scaled) = Some n -> in_int64 n = true ->
  exists r,
    Price_GetPayableByRoundingMode cvt_overflow p mode precision = Done r /\
    NewFromInt n precision (currency p) = Done r /\
    currency r = currency p.
Proof.
  intros H1 H2 H3 H4 Hp HM HG HT HR.
  destruct (NewFromInt_total n precision (currency p) Hp) as (r & Hr & Hc).
  exists r. split; [|split; assumption].
  rewrite (GetPayableByRoundingMode_unfold p mode precision scaled HM HG).
  - rewrite (int64_of_Modf _ n HT HR).
    rewrite <- Hr. unfold NewFromInt. apply Z.eqb_neq in Hp. rewrite Hp. reflexivity.
  - apply mode_increments_unknown; assumption.
Qed.

End RoundingFacts.

Local Open Scope Z_scope.

Lemma bitlen_le_of_lt m b : 0 <= b -> Zpos m < 2 ^ b -> bitlen m <= b.
Proof.
  intros Hb H. unfold bitlen.
  assert (Z.log2 (Zpos m) < b) by (apply Z.log2_lt_pow2; lia). lia.
Qed.

(** Rounding raises Go's exponent by one at most. *)
Lemma Float_round_gexp p s m e sb m' e' a :
  1 <= p -> Float_round p s m e sb = (finite m' e', a) ->
  gexp m' e' <= gexp m e + 1.
Proof.
  intros Hp. unfold Float_round.
  destruct (Z.leb_spec (bitlen m) p) as [Hle|Hgt].
  { intros [= <- <- _]. lia. }
  set (r := bitlen m - p - 1).
  set (q := Z.shiftr (Zpos m) (r + 1)).
  assert (Hr : 0 <= r) by (unfold r; lia).
  assert (Hq : 0 <= q < 2 ^ p).
  { unfold q. rewrite Z.shiftr_div_pow2 by lia.
    pose proof (bitlen_spec m) as [_ U].
    assert (0 < 2 ^ (r + 1)) by (apply Z.pow_pos_nonneg; lia).
    split; [apply Z.div_pos; lia|].
    apply Z.div_lt_upper_bound; [lia|].
    rewrite <- Z.pow_add_r by lia. replace (r + 1 + p) with (bitlen m) by (unfold r; lia).
    exact U. }
  assert (B : forall x, 0 <= x < 2 ^ p -> bitlen (Z.to_pos x) <= p).
  { intros x Hx. apply bitlen_le_of_lt; [lia|].
    destruct x; simpl; try lia.
    assert (1 < 2 ^ p) by (apply Z.pow_gt_1; lia). lia. }
  assert (G : forall x, 0 <= x < 2 ^ p -> gexp (Z.to_pos x) (e + r + 1) <= gexp m e + 1).
  { intros x Hx. pose proof (B x Hx). unfold gexp, r. lia. }
  assert (G2 : gexp (Z.to_pos (2 ^ (p - 1))) (e + r + 2) <= gexp m e + 1).
  { assert (bitlen (Z.to_pos (2 ^ (p - 1))) <= p).
    { apply bitlen_le_of_lt; [lia|].
      assert (0 < 2 ^ (p - 1)) by (apply Z.pow_pos_nonneg; lia).
      rewrite Z2Pos.id by lia. apply Z.pow_lt_mono_r; lia. }
    unfold gexp, r. lia. }
  repeat match goal with
         | |- context [if ?c then _ else _] => destruct c eqn:?
         end; intros [= <- <- _]; try apply G; try exact G2; try lia.
Qed.

Lemma setExpAndRound_gexp p s m e sb m' e' a :
  1 <= p -> setExpAndRound p s m e sb = (finite m' e', a) ->
  gexp m' e' <= gexp m e + 1.
Proof.
  intros Hp. unfold setExpAndRound.
  destruct (gexp m e <? MinExp); [intros [=]|].
  destruct (MaxExp <? gexp m e); [intros [=]|].
  apply Float_round_gexp. exact Hp.
Qed.

Lemma uquo_gexp p s mx ex my ey m' e' a :
  1 <= p -> uquo p s mx ex my ey = (finite m' e', a) ->
  gexp m' e' <= ex - ey + bitlen mx + 1.
Proof.
  intros Hp H. unfold uquo in H.
  set (d := Z.max 0 (p + 1 + bitlen my - bitlen mx)) in *.
  assert (Hd : 0 <= d) by (unfold d; lia).
  apply setExpAndRound_gexp in H; [|exact Hp].
  set (q := Z.shiftl (Zpos mx) d / Zpos my) in *.
  assert (Hb : bitlen (Z.to_pos q) <= bitlen mx + d).
  { apply bitlen_le_of_lt; [pose proof (bitlen_pos mx); lia|].
    assert (X : Z.shiftl (Zpos mx) d < 2 ^ (bitlen mx + d)).
    { rewrite Z.shiftl_mul_pow2 by lia. rewrite Z.pow_add_r by (pose proof (bitlen_pos mx); lia).
      pose proof (bitlen_spec mx) as [_ U].
      assert (0 < 2 ^ d) by (apply Z.pow_pos_nonneg; lia). nia. }
    assert (Q : q <= Z.shiftl (Zpos mx) d).
    { unfold q. apply Z.div_le_upper_bound; [lia|].
      assert (0 <= Z.shiftl (Zpos mx) d) by (apply Z.shiftl_nonneg; lia). nia. }
    assert (1 < 2 ^ (bitlen mx + d)).
    { apply Z.pow_gt_1; [lia|]. pose proof (bitlen_pos mx). lia. }
    destruct q; simpl; lia. }
  unfold gexp in *. lia.
Qed.

(** No int64 divided by 100 compares equal to -1e30. *)
Lemma minus_1e30_not_a_payable k P :
  in_int64 k = true ->
  big_NewFloat (f64_of_Z (- 10 ^ 30)) = Done P ->
  exists q, Float_Quo Float_new (Float_SetInt64 Float_new k) (Float_SetInt64 Float_new 100)
            = Done q /\ (Float_Cmp q P =? 0) = false.
Proof.
  intros Hk HP. vm_compute in HP. injection HP as <-.
  rewrite !Float_SetInt64_new_form. unfold Float_Quo. cbn [fform neg prec].
  change (Z.abs 100) with 100.
  destruct (Z.abs k) as [|u|u] eqn:Eu; cbv iota.
  - eexists. split; [reflexivity|]. destruct (k <? 0); reflexivity.
  - assert (Hu : bitlen u <= 64).
    { apply bitlen_le_of_lt; [lia|].
      unfold in_int64, MinInt64, MaxInt64 in Hk. apply andb_prop in Hk.
      destruct Hk as [H1 H2]. apply Z.leb_le in H1, H2. lia. }
    set (sg := xorb (k <? 0) (100 <? 0)).
    destruct (uquo _ sg _ _ _ _) as [f a] eqn:Eq.
    eexists. split; [reflexivity|].
    unfold Float_Cmp, ord. cbn [fform neg].
    destruct f as [|m' e'|]; [destruct sg; reflexivity| |destruct sg; reflexivity].
    apply uquo_gexp in Eq; [|unfold result_prec; cbn; lia].
    destruct sg; [|reflexivity].
    cbn [Z.ltb Z.compare Z.opp Pos.compare Pos.compare_cont].
    unfold ucmp.
    assert (G : gexp 7105427357601002 47 = 100) by reflexivity.
    rewrite G.
    destruct (Z.compare_spec 100 (gexp m' e')) as [C|C|C]; try lia.
    reflexivity.
  - lia.
Qed.

Section GuardFacts.

Variable cvt_overflow : float64 -> Z.

(** C4 (GetPayableByRoundingMode).  The overflow guard misses negative
    amounts: for -1e30 at precision 100 under HalfUp the call does not
    return the Amount unchanged, its result is not Equal to it. *)
Theorem C4_negative_overflow_is_rounded cur :
  exists p r,
    NewFromFloat (f64_of_Z (- 10 ^ 30)) cur = Done p /\
    Price_GetPayableByRoundingMode cvt_overflow p RoundingModeHalfUp 100 = Done r /\
    Price_Equal r p = false.
Proof.
  destruct (big_NewFloat (f64_of_Z (- 10 ^ 30))) as [P|] eqn:EP; [|vm_compute in EP; discriminate].
  set (p := {| amount := P; currency := cur |}).
  assert (HM : exists scaled,
             Float_Mul Float_new (amount p) (Float_SetInt64 Float_new 100) = Done scaled /\
             f64_ge (Float_Float64 scaled) (f64_of_Z MaxInt64) = false /\
             mode_increments RoundingModeHalfUp
               (if Float_Cmp (amount p) {| prec := 53; acc := Exact; fform := zero; neg := false |} =? -1
                then -1 else 1)
               (valueAfterPrecision_of (snd (math_Modf (Float_Float64 scaled)))
                  (if Float_Cmp (amount p) {| prec := 53; acc := Exact; fform := zero; neg := false |} =? -1
                   then -1 else 1)) = false).
  { unfold p. cbn [amount]. vm_compute in EP. injection EP as <-.
    eexists. split; [vm_compute; reflexivity|]. split; vm_compute; reflexivity. }
  destruct HM as (scaled & HM & HG & HI).
  set (k := int64_of_f64 cvt_overflow (fst (math_Modf (Float_Float64 scaled)))).
  destruct (minus_1e30_not_a_payable k P (int64_of_f64_range cvt_overflow _) EP)
    as (q & Hq & Hc).
  exists p, {| amount := q; currency := cur |}.
  split; [unfold NewFromFloat; rewrite EP; reflexivity|].
  split.
  - rewrite (GetPayableByRoundingMode_unfold cvt_overflow p _ 100 scaled HM HG HI).
    fold k. rewrite Hq. reflexivity.
  - unfold Price_Equal. cbn [amount currency p]. rewrite String.eqb_refl. exact Hc.
Qed.

End GuardFacts.

Lemma C9_counterexample :
  exists p r one,
    NewFromInt 999999999999999999 1000000000000000000 "EUR" = Done p /\
    Price_GetPayableByRoundingMode cvt_amd64 p "" 1 = Done r /\
    NewFromInt 1 1 "EUR" = Done one /\
    Price_Equal r one = true /\
    Price_IsGreaterThen r p = true.
Proof.
  do 3 eexists.
  split; [vm_compute; reflexivity|].
  split; [vm_compute; reflexivity|].
  split; [vm_compute; reflexivity|].
  split; vm_compute; reflexivity.
Qed.

Lemma C9_unknown_mode_truncates_witness :
  exists p scaled r,
    NewFromFloat (f64_lit 1234567 100000) "EUR" = Done p /\
    "trunc"%string <> RoundingModeFloor /\ "trunc"%string <> RoundingModeCeil /\
    "trunc"%string <> RoundingModeHalfUp /\ "trunc"%string <> RoundingModeHalfDown /\
    100 <> 0 /\
    Float_Mul Float_new (amount p) (Float_SetInt64 Float_new 100) = Done scaled /\
    f64_ge (Float_Float64 scaled) (f64_of_Z MaxInt64) = false /\
    f64_trunc (Float_Float64 scaled) = Some 1234 /\ in_int64 1234 = true /\
    Price_GetPayableByRoundingMode cvt_amd64 p "trunc" 100 = Done r /\
    NewFromInt 1234 100 (currency p) = Done r /\
    currency r = currency p.
Proof.
  eexists. eexists.
  match goal with |- exists r, ?A /\ ?B /\ ?C /\ ?D /\ ?E /\ ?F /\ ?G /\ ?H /\ ?I /\ ?J /\ _ =>
    assert (HA : A) by (vm_compute; reflexivity);
    assert (HG : G) by (vm_compute; reflexivity);
    assert (HH : H) by (vm_compute; reflexivity);
    assert (HI : I) by (vm_compute; reflexivity)
  end.
  destruct (C9_unknown_mode_truncates cvt_amd64 _ "trunc" 100 _ 1234
              ltac:(discriminate) ltac:(discriminate) ltac:(discriminate)
              ltac:(discriminate) ltac:(discriminate) HG HH HI eq_refl)
    as (r & R1 & R2 & R3).
  exists r. repeat split; try assumption; try discriminate.
Defined.

Local Open Scope Z_scope.

(** Loops over slices *)

Lemma incr_first_spec r (a : list Z) :
  (r <= List.length a)%nat ->
  incr_first r a = ((fun v => wrap64 (v + 1)) <$> take r a) ++ drop r a.
Proof.
  unfold incr_first. induction r as [|r IH]; intros Hr.
  - simpl. rewrite drop_0. reflexivity.
  - rewrite seq_S, fold_left_app. simpl. rewrite IH by lia.
    destruct (lookup_lt_is_Some_2 a r ltac:(lia)) as [x Hx].
    rewrite (take_S_r a r x Hx), (drop_S a x r Hx).
    rewrite fmap_app. simpl. rewrite <- app_assoc. simpl.
    assert (L : List.length ((fun v => wrap64 (v + 1)) <$> take r a) = r).
    { rewrite length_fmap, length_take. lia. }
    rewrite <- L at 1.
    replace (List.length ((λ v : Z, wrap64 (v + 1)) <$> take r a))
      with (List.length ((λ v : Z, wrap64 (v + 1)) <$> take r a) + 0)%nat at 1 by lia.
    rewrite alter_app_r. reflexivity.
Qed.

Lemma incr_first_replicate r n b :
  (r <= n)%nat ->
  incr_first r (replicate n b) = replicate r (wrap64 (b + 1)) ++ replicate (n - r) b.
Proof.
  intros H. rewrite incr_first_spec by (rewrite length_replicate; lia).
  rewrite take_replicate, drop_replicate, fmap_replicate.
  replace (r `min` n)%nat with r by lia. reflexivity.
Qed.

Lemma sumZ_app l1 l2 : sumZ (l1 ++ l2) = sumZ l1 + sumZ l2.
Proof. unfold sumZ. induction l1; simpl; lia. Qed.

Lemma sumZ_replicate n b : sumZ (replicate n b) = Z.of_nat n * b.
Proof. unfold sumZ. induction n; simpl replicate; simpl fold_right; lia. Qed.

Lemma sum_split_units t count :
  0 <= t -> 1 <= count -> sumZ (split_units t count) = t.
Proof.
  intros Ht Hc. unfold split_units.
  rewrite sumZ_app, !sumZ_replicate.
  pose proof (Z.mod_pos_bound t count ltac:(lia)) as Hm.
  rewrite !Z2Nat.id by lia.
  pose proof (Z.div_mod t count ltac:(lia)). nia.
Qed.

Lemma length_split_units t count :
  0 <= t -> 1 <= count -> List.length (split_units t count) = Z.to_nat count.
Proof.
  intros Ht Hc. unfold split_units.
  pose proof (Z.mod_pos_bound t count ltac:(lia)) as Hm.
  rewrite length_app, !length_replicate. lia.
Qed.

Lemma split_units_range t count u :
  0 <= t <= MaxInt64 -> 1 <= count -> In u (split_units t count) -> 0 <= u <= MaxInt64.
Proof.
  intros Ht Hc Hu. unfold split_units in Hu.
  pose proof (Z.mod_pos_bound t count ltac:(lia)) as Hm.
  pose proof (Z.div_mod t count ltac:(lia)) as Hd.
  assert (0 <= t / count) by (apply Z.div_pos; lia).
  apply in_app_or in Hu. destruct Hu as [Hu|Hu].
  - apply list_elem_of_In, elem_of_replicate in Hu. destruct Hu as [-> Hn].
    assert (0 < t mod count) by lia. nia.
  - apply list_elem_of_In, elem_of_replicate in Hu. destruct Hu as [-> Hn]. nia.
Qed.

Lemma wrap64_id n : in_int64 n = true -> wrap64 n = n.
Proof.
  unfold in_int64, wrap64, MinInt64, MaxInt64. intros H.
  apply andb_prop in H. destruct H as [H1 H2]. apply Z.leb_le in H1, H2.
  rewrite Z.mod_small by lia. lia.
Qed.

(** The two loops of SplitInPayables on a total in range. *)
Lemma shares_are_split_units t count :
  0 <= t <= MaxInt64 -> 1 <= count ->
  incr_first (Z.to_nat (Z.rem t count)) (replicate (Z.to_nat count) (Z.quot t count))
  = split_units t count.
Proof.
  intros Ht Hc. rewrite Z.rem_mod_nonneg, Z.quot_div_nonneg by lia.
  pose proof (Z.mod_pos_bound t count ltac:(lia)) as Hm.
  pose proof (Z.div_mod t count ltac:(lia)) as Hd.
  assert (0 <= t / count) by (apply Z.div_pos; lia).
  rewrite incr_first_replicate by lia. unfold split_units.
  replace (Z.to_nat count - Z.to_nat (t mod count))%nat
    with (Z.to_nat (count - t mod count)) by lia.
  f_equal.
  destruct (Z.eq_dec (t mod count) 0) as [E|E].
  - rewrite E. reflexivity.
  - rewrite wrap64_id; [reflexivity|].
    unfold in_int64, MinInt64, MaxInt64 in *.
    apply andb_true_intro. split; apply Z.leb_le; nia.
Qed.

Lemma mapM_ext_in {A B} (f g : A -> outcome B) l :
  (forall a, In a l -> f a = g a) -> mapM f l = mapM g l.
Proof.
  induction l as [|a l IH]; intros H; [reflexivity|].
  simpl. rewrite (H a (or_introl eq_refl)).
  rewrite IH; [reflexivity|]. intros x Hx. apply H. right. exact Hx.
Qed.

Lemma mapM_total {A B} (f : A -> outcome B) (P : B -> Prop) l :
  (forall a, exists b, f a = Done b /\ P b) ->
  exists bs, mapM f l = Done bs /\ List.length bs = List.length l /\ Forall P bs.
Proof.
  intros H. induction l as [|a l (bs & E & L & F)].
  - exists []. simpl. auto.
  - destruct (H a) as (b & Hb & Pb). exists (b :: bs). simpl.
    rewrite Hb, E. simpl. auto.
Qed.

Local Open Scope Z_scope.

Lemma Float_Mul_finite_r z x y m e :
  fform y = finite m e -> exists s, Float_Mul z x y = Done s.
Proof.
  intros F. unfold Float_Mul. rewrite F.
  destruct (fform x); try (eexists; reflexivity).
  destruct (setExpAndRound _ _ _ _ _). eexists; reflexivity.
Qed.

Lemma Float_SetInt64_finite k :
  k <> 0 -> exists u, fform (Float_SetInt64 Float_new k) = finite u 0.
Proof.
  intros H. rewrite Float_SetInt64_new_form. cbn [fform].
  destruct (Z.abs k) eqn:E; try lia. eexists; reflexivity.
Qed.

Lemma Float_Quo_int k precision :
  precision <> 0 ->
  exists q, Float_Quo Float_new (Float_SetInt64 Float_new k)
                      (Float_SetInt64 Float_new precision) = Done q.
Proof.
  intros H. destruct (NewFromInt_total k precision "" H) as (r & Hr & _).
  unfold NewFromInt in Hr. apply Z.eqb_neq in H. rewrite H in Hr.
  destruct (Float_Quo _ _ _) as [q|]; [eexists; reflexivity|discriminate].
Qed.

Lemma incr_first_length r (a : list Z) : List.length (incr_first r a) = List.length a.
Proof.
  unfold incr_first. generalize (seq 0 r). intros idx. revert a.
  induction idx as [|i idx IH]; intros a; simpl; [reflexivity|].
  rewrite IH. apply length_alter.
Qed.

Section SplitFacts.

Variable cvt_overflow : float64 -> Z.
Variable unicode_ToLower : string -> string.

Lemma GetPayableByRoundingMode_total p mode precision :
  precision <> 0 ->
  exists r, Price_GetPayableByRoundingMode cvt_overflow p mode precision = Done r /\
            currency r = currency p.
Proof.
  intros H. unfold Price_GetPayableByRoundingMode.
  rewrite Price_IsNegative_Done, bind_Done.
  unfold Float_Copy, Price_precisionF.
  destruct (Float_SetInt64_finite precision H) as [u Hu].
  destruct (Float_Mul_finite_r Float_new (amount p) _ u 0 Hu) as [scaled ->].
  rewrite bind_Done.
  destruct (math_Modf (Float_Float64 scaled)) as [ip fp].
  destruct (f64_ge _ _); [eexists; split; reflexivity|].
  match goal with
  | |- context [Float_Quo Float_new (Float_SetInt64 Float_new ?k) _] =>
      destruct (Float_Quo_int k precision H) as [q ->]
  end.
  eexists; split; reflexivity.
Qed.

Lemma policy_precision p :
  snd (Price_payableRoundingPrecision unicode_ToLower p) <> 0.
Proof.
  unfold Price_payableRoundingPrecision.
  destruct (_ || _); simpl; lia.
Qed.

Lemma GetPayable_total p :
  exists r, Price_GetPayable cvt_overflow unicode_ToLower p = Done r /\
            currency r = currency p.
Proof.
  unfold Price_GetPayable. pose proof (policy_precision p) as H.
  destruct (Price_payableRoundingPrecision unicode_ToLower p) as [mode precision].
  apply GetPayableByRoundingMode_total. exact H.
Qed.

Lemma payable_units_total p :
  exists t, payable_units cvt_overflow unicode_ToLower p = Done t /\ in_int64 t = true.
Proof.
  unfold payable_units. pose proof (policy_precision p) as H.
  destruct (Price_payableRoundingPrecision unicode_ToLower p) as [mode precision].
  simpl in H.
  destruct (GetPayable_total p) as (payable & -> & _). rewrite bind_Done.
  rewrite Price_IsNegative_Done, bind_Done.
  destruct (Float_SetInt64_finite precision H) as [u Hu].
  assert (A : exists amount0,
             (if Float_Cmp (amount p) {| prec := 53; acc := Exact; fform := zero; neg := false |} =? -1
              then do payable' <- Done payable; do inv <- Price_Inverse payable';
                   Done (Price_Amount inv)
              else Done (Price_Amount payable)) = Done amount0).
  { destruct (_ =? _); [|eexists; reflexivity].
    rewrite bind_Done. unfold Price_Inverse.
    change (big_NewFloat (f64_of_Z (-1)))
      with (Done {| prec := 53; acc := Exact; fform := finite 4503599627370496 (-52); neg := true |}).
    rewrite bind_Done.
    destruct (Float_Mul_finite_r Float_new (amount payable)
                {| prec := 53; acc := Exact; fform := finite 4503599627370496 (-52); neg := true |}
                _ _ eq_refl) as [s ->].
    eexists; reflexivity. }
  destruct A as [amount0 ->]. rewrite bind_Done.
  unfold Price_precisionF.
  destruct (Float_Mul_finite_r Float_new amount0 _ u 0 Hu) as [scaled ->].
  rewrite bind_Done. eexists. split; [reflexivity|apply int64_of_f64_range].
Qed.

Lemma map_replicate_const {A B} (b : B) n (a : A) :
  map (fun _ => b) (replicate n a) = replicate n b.
Proof. induction n; simpl; congruence. Qed.

Lemma makeslice_Done {A} size (v : A) n :
  0 <= n -> size * n <= maxAlloc ->
  makeslice size v n = Done (replicate (Z.to_nat n) v).
Proof.
  intros H0 H. unfold makeslice.
  destruct (Z.ltb_spec n 0); [lia|].
  destruct (Z.ltb_spec maxAlloc (size * n)); [lia|]. reflexivity.
Qed.

Lemma SplitInPayables_unfold p count :
  0 < count -> sizeof_Price * count <= maxAlloc ->
  Price_SplitInPayables cvt_overflow unicode_ToLower p count =
  (do t <- payable_units cvt_overflow unicode_ToLower p;
   do prices <-
     mapM (fun u =>
             NewFromInt
               (if Float_Cmp (amount p) {| prec := 53; acc := Exact; fform := zero; neg := false |} =? -1
                then wrap64 (u * -1) else u)
               (snd (Price_payableRoundingPrecision unicode_ToLower p)) (currency p))
          (incr_first (Z.to_nat (Z.rem t count))
                      (replicate (Z.to_nat count) (Z.quot t count)));
   Done (prices, None)).
Proof.
  intros Hc Ha. unfold Price_SplitInPayables, payable_units.
  destruct (Z.leb_spec count 0); [lia|].
  destruct (Price_payableRoundingPrecision unicode_ToLower p) as [mode precision].
  cbn [snd].
  destruct (Price_GetPayable cvt_overflow unicode_ToLower p) as [payable|]; [|reflexivity].
  rewrite !bind_Done. rewrite Price_IsNegative_Done, !bind_Done.
  match goal with
  | |- bind ?a _ = _ => destruct a as [amount0|]; [|reflexivity]
  end.
  rewrite !bind_Done.
  destruct (Float_Mul _ _ _) as [scaled|]; [|reflexivity].
  rewrite !bind_Done.
  rewrite !makeslice_Done by (unfold sizeof_int64, sizeof_Price in *; lia).
  rewrite !bind_Done, map_replicate_const. reflexivity.
Qed.

End SplitFacts.

Local Open Scope Z_scope.

Section LedgerFacts.

Variable cvt_overflow : float64 -> Z.
Variable unicode_ToLower : string -> string.

(** C7 (AddCharge, Add, Mul).  The ledger mutators write through the
    receiver: after L.AddCharge(c), L.Add(other) and L.Mul(2), lookups on L
    itself find the new charge, or the doubled one, that they did not find
    before. *)
Theorem C7_mutators_write_through_the_receiver :
  let q := {| qType := "giftcard"; qReference := "" |} in
  let qm := {| qType := "main"; qReference := "" |} in
  exists L h1,
    Charges_AddCharge cvt_overflow unicode_ToLower Charges_zero_value sample_main store_empty
      = Done (L, h1) /\
    Charges_GetByChargeQualifier L q h1 = (Charge_zero_value, false) /\
    Charges_GetByType L "giftcard" h1 = Done (Charge_zero_value, false) /\
    Charges_GetByChargeQualifier L qm h1 = (sample_main, true) /\
    (* L.AddCharge(c) *)
    (exists L2 h2,
       Charges_AddCharge cvt_overflow unicode_ToLower L sample_giftcard h1 = Done (L2, h2) /\
       Charges_GetByChargeQualifier L q h2 = (sample_giftcard, true) /\
       exists c, Charges_GetByType L "giftcard" h2 = Done (c, true)) /\
    (* L.Add(other) *)
    (exists other h0 L3 h3,
       Charges_AddCharge cvt_overflow unicode_ToLower Charges_zero_value sample_giftcard h1
         = Done (other, h0) /\
       Charges_GetByChargeQualifier L q h0 = (Charge_zero_value, false) /\
       Charges_Add cvt_overflow unicode_ToLower L other h0 = Done (L3, h3) /\
       Charges_GetByChargeQualifier L q h3 = (sample_giftcard, true)) /\
    (* L.Mul(qty) *)
    (exists L4 h4 c,
       Charges_Mul L 2 h1 = Done (L4, h4) /\
       Charges_GetByChargeQualifier L qm h4 = (c, true) /\
       c <> sample_main /\
       Price_Equal (chPrice c) (sample_int 200 "EUR") = true).
Proof.
  intros q qm. eexists. eexists.
  split; [vm_compute; reflexivity|].
  split; [vm_compute; reflexivity|].
  split; [vm_compute; reflexivity|].
  split; [vm_compute; reflexivity|].
  split; [|split].
  - eexists. eexists. split; [vm_compute; reflexivity|].
    split; [vm_compute; reflexivity|].
    eexists. vm_compute. reflexivity.
  - do 4 eexists. split; [vm_compute; reflexivity|].
    split; [vm_compute; reflexivity|].
    split; vm_compute; reflexivity.
  - do 3 eexists. split; [vm_compute; reflexivity|].
    split; [vm_compute; reflexivity|].
    split; [discriminate|vm_compute; reflexivity].
Qed.

End LedgerFacts.

Local Open Scope Z_scope.

Lemma C10_witness :
  NewFromFloat (f64_lit 1 10000000000) "EUR" = Done (sample_tiny "EUR") /\
  currency (sample_tiny "EUR") <> currency (sample_int 1 "USD") /\
  (Qabs (Float_value (amount (sample_tiny "EUR"))) < 1 # 1000000000)%Q /\
  exists s,
    Float_Add Float_new (amount (sample_tiny "EUR")) (amount (sample_int 1 "USD")) = Done s /\
    Price_Add (sample_tiny "EUR") (sample_int 1 "USD")
      = Done ({| amount := s; currency := "USD" |}, None).
Proof.
  split; [vm_compute; reflexivity|].
  split; [discriminate|].
  split; [vm_compute; reflexivity|].
  apply (C10_sub_tolerance_amount_crosses_currency
           (sample_tiny "EUR") (sample_int 1 "USD") 7737125245533627 (-86)).
  - discriminate.
  - reflexivity.
  - vm_compute. reflexivity.
Defined.

Lemma C2_counterexample :
  exists a b r,
    NewFromFloat (f64_lit 1 10000000000) "EUR" = Done a /\
    NewFromFloat (f64_of_Z 1) "USD" = Done b /\
    Price_IsZero a = Done true /\ fform (amount a) <> zero /\
    Price_IsZero b = Done false /\
    Price_Add a b = Done (r, None) /\
    Price_Equal r b = false.
Proof.
  do 3 eexists.
  split; [vm_compute; reflexivity|].
  split; [vm_compute; reflexivity|].
  split; [vm_compute; reflexivity|].
  split; [discriminate|].
  split; [vm_compute; reflexivity|].
  split; vm_compute; reflexivity.
Qed.

Lemma C2_currency_guard_witness :
  (currency (sample_int 1 "EUR") <> currency (sample_int 2 "USD") /\
   Price_IsZero (sample_int 1 "EUR") = Done false /\
   Price_IsZero (sample_int 2 "USD") = Done false /\
   Price_Add (sample_int 1 "EUR") (sample_int 2 "USD")
     = Done (NewZero "EUR", Some err_currency) /\
   Price_Sub (sample_int 1 "EUR") (sample_int 2 "USD")
     = Done (NewZero "EUR", Some err_currency)) /\
  (fform (amount (NewZero "EUR")) = zero /\
   exists r, Price_Add (NewZero "EUR") (sample_int 2 "USD") = Done (r, None) /\
             currency r = "USD"%string /\ Price_Equal r (sample_int 2 "USD") = true).
Proof.
  split.
  - split; [discriminate|].
    split; [vm_compute; reflexivity|]. split; [vm_compute; reflexivity|].
    apply (proj1 (C2_currency_guard (sample_int 1 "EUR") (sample_int 2 "USD"))).
    + discriminate.
    + vm_compute; reflexivity.
    + vm_compute; reflexivity.
  - split; [reflexivity|].
    apply (proj2 (C2_currency_guard (NewZero "EUR") (sample_int 2 "USD"))).
    reflexivity.
Defined.

Lemma C8_counterexample :
  exists a b s r,
    NewFromFloat (f64_lit 1 10) "EUR" = Done a /\
    NewFromFloat (f64_lit 2 10) "EUR" = Done b /\
    Price_Add a b = Done (s, None) /\
    Price_Sub s b = Done (r, None) /\
    Price_Equal r a = false.
Proof.
  do 4 eexists.
  split; [vm_compute; reflexivity|].
  split; [vm_compute; reflexivity|].
  split; [vm_compute; reflexivity|].
  split; vm_compute; reflexivity.
Qed.

Lemma C8_add_then_sub_witness :
  currency (sample_int 1 "EUR") = currency (sample_int 2 "EUR") /\
  Float_wf (amount (sample_int 1 "EUR")) = true /\
  is_inf (amount (sample_int 2 "EUR")) = false /\
  exists s r,
    Price_Add (sample_int 1 "EUR") (sample_int 2 "EUR") = Done (s, None) /\
    acc (amount s) = Exact /\
    Price_Sub s (sample_int 2 "EUR") = Done (r, None) /\
    Price_Equal r (sample_int 1 "EUR") = true.
Proof.
  split; [reflexivity|]. split; [reflexivity|]. split; [reflexivity|].
  destruct (C8_add_then_sub (sample_int 1 "EUR") (sample_int 2 "EUR"))
    as (s & Hs & K); [reflexivity|reflexivity|reflexivity|].
  assert (E : s = sample_int 3 "EUR").
  { vm_compute in Hs. injection Hs as <-. reflexivity. }
  assert (A : acc (amount s) = Exact) by (rewrite E; reflexivity).
  destruct (K A) as (r & Hr & He).
  exists s, r. repeat split; assumption.
Defined.

Import ListNotations.
Local Open Scope Z_scope.

(** Decimal digits *)

Lemma utoa_aux_value f n acc :
  0 <= n < 10 ^ Z.of_nat f -> (0 < f)%nat ->
  digits_value (utoa_aux f n acc) 0 = digits_value acc n.
Proof.
  revert n acc. induction f as [|f IH]; intros n acc Hn Hf; [lia|].
  simpl. destruct (Z.ltb_spec n 10) as [L|L].
  - simpl. reflexivity.
  - assert (Hf' : (0 < f)%nat).
    { destruct f; [|lia]. simpl in Hn. lia. }
    rewrite IH; [|split|exact Hf'].
    + simpl. f_equal. pose proof (Z.div_mod n 10 ltac:(lia)). lia.
    + apply Z.div_pos; lia.
    + apply Z.div_lt_upper_bound; [lia|].
      replace (10 * 10 ^ Z.of_nat f) with (10 ^ Z.of_nat (S f)); [lia|].
      rewrite Nat2Z.inj_succ, Z.pow_succ_r by lia. reflexivity.
Qed.

Lemma utoa_aux_digits f n acc :
  0 <= n -> all_digits acc -> (n < 10 \/ (0 < f)%nat) ->
  n < 10 ^ Z.of_nat f -> all_digits (utoa_aux f n acc).
Proof.
  revert n acc. induction f as [|f IH]; intros n acc Hn Ha Hf Hb; [exact Ha|].
  simpl. destruct (Z.ltb_spec n 10) as [L|L].
  - constructor; [lia|exact Ha].
  - assert (Hq : n / 10 < 10 ^ Z.of_nat f).
    { apply Z.div_lt_upper_bound; [lia|].
      replace (10 * 10 ^ Z.of_nat f) with (10 ^ Z.of_nat (S f)); [lia|].
      rewrite Nat2Z.inj_succ, Z.pow_succ_r by lia. reflexivity. }
    apply IH.
    + apply Z.div_pos; lia.
    + constructor; [|exact Ha]. pose proof (Z.mod_pos_bound n 10 ltac:(lia)). lia.
    + destruct f; [simpl in Hq; left; lia|right; lia].
    + exact Hq.
Qed.

Lemma utoa_aux_length f n acc j :
  0 <= n < 10 ^ Z.of_nat j -> (0 < j)%nat ->
  (List.length acc < List.length (utoa_aux f n acc) <= List.length acc + j)%nat
  \/ f = O.
Proof.
  revert n acc j. induction f as [|f IH]; intros n acc j Hn Hj; [right; reflexivity|].
  left. simpl. destruct (Z.ltb_spec n 10) as [L|L].
  - simpl. lia.
  - destruct j as [|j]; [lia|].
    assert (Hj' : (0 < j)%nat).
    { destruct j; [|lia]. simpl in Hn. lia. }
    assert (Hq : 0 <= n / 10 < 10 ^ Z.of_nat j).
    { split; [apply Z.div_pos; lia|].
      apply Z.div_lt_upper_bound; [lia|].
      replace (10 * 10 ^ Z.of_nat j) with (10 ^ Z.of_nat (S j)); [lia|].
      rewrite Nat2Z.inj_succ, Z.pow_succ_r by lia. reflexivity. }
    destruct (IH (n / 10) (n mod 10 :: acc) j Hq Hj') as [H|H].
    + simpl in H. lia.
    + subst f. simpl. lia.
Qed.

Lemma pow10_ge_pow2 k : 0 <= k -> 2 ^ k <= 10 ^ k.
Proof. intros H. apply Z.pow_le_mono_l. lia. Qed.

Lemma utoa_fuel n : 0 < n -> n < 10 ^ Z.of_nat (S (Z.to_nat (Z.log2 n))).
Proof.
  intros H. pose proof (Z.log2_spec n H) as [_ U]. pose proof (Z.log2_nonneg n).
  rewrite Nat2Z.inj_succ, Z2Nat.id by lia.
  eapply Z.lt_le_trans; [exact U|]. apply pow10_ge_pow2. lia.
Qed.

Lemma utoa_value n : 0 < n -> digits_value (utoa n) 0 = n.
Proof.
  intros H. unfold utoa. rewrite utoa_aux_value; [reflexivity| |lia].
  split; [lia|apply utoa_fuel; exact H].
Qed.

Lemma utoa_digits n : 0 < n -> all_digits (utoa n).
Proof.
  intros H. unfold utoa. apply utoa_aux_digits; [lia|constructor|right; lia|].
  apply utoa_fuel; exact H.
Qed.

Lemma utoa_length n : 0 < n < 10 ^ 10 -> 1 <= llen (utoa n) <= 10.
Proof.
  intros H. unfold utoa, llen.
  destruct (utoa_aux_length (S (Z.to_nat (Z.log2 n))) n [] 10) as [L|L];
    [change (Z.of_nat 10) with 10; lia|lia| |discriminate].
  change (List.length (@nil Z)) with O in L. lia.
Qed.

(** Trailing zeros *)

Lemma trim_pad l :
  trim l ++ replicate (List.length l - List.length (trim l)) 0 = l.
Proof.
  induction l as [|d r IH]; [reflexivity|].
  simpl. destruct (trim r) as [|x r'] eqn:E.
  - simpl in IH. rewrite Nat.sub_0_r in IH.
    destruct (Z.eqb_spec d 0) as [->|N]; simpl.
    + f_equal. exact IH.
    + rewrite Nat.sub_0_r. f_equal. exact IH.
  - simpl. f_equal. simpl in IH. exact IH.
Qed.

Lemma trim_length l : (List.length (trim l) <= List.length l)%nat.
Proof.
  induction l as [|d r IH]; [simpl; lia|].
  simpl. destruct (trim r); [destruct (d =? 0); simpl; lia|simpl in *; lia].
Qed.

(** Characters *)

Lemma digit_char_is_digit d : 0 <= d <= 9 -> is_digit (digit_char d) = true.
Proof.
  intros H. assert (C : d = 0 \/ d = 1 \/ d = 2 \/ d = 3 \/ d = 4 \/ d = 5 \/ d = 6 \/ d = 7 \/ d = 8 \/ d = 9) by lia.
  repeat (destruct C as [->|C]; [reflexivity|]). subst. reflexivity.
Qed.

Lemma digit_char_val d : 0 <= d <= 9 -> digit_val (digit_char d) = d.
Proof.
  intros H. assert (C : d = 0 \/ d = 1 \/ d = 2 \/ d = 3 \/ d = 4 \/ d = 5 \/ d = 6 \/ d = 7 \/ d = 8 \/ d = 9) by lia.
  repeat (destruct C as [->|C]; [reflexivity|]). subst. reflexivity.
Qed.

Lemma digit_char_ascii d : 0 <= d <= 9 -> is_ascii_byte (digit_char d) = true.
Proof.
  intros H. assert (C : d = 0 \/ d = 1 \/ d = 2 \/ d = 3 \/ d = 4 \/ d = 5 \/ d = 6 \/ d = 7 \/ d = 8 \/ d = 9) by lia.
  repeat (destruct C as [->|C]; [reflexivity|]). subst. reflexivity.
Qed.

Lemma digit_char_not c d :
  is_digit c = false -> 0 <= d <= 9 -> Ascii.eqb (digit_char d) c = false.
Proof.
  intros Hc Hd. destruct (Ascii.eqb_spec (digit_char d) c) as [E|]; [|reflexivity].
  subst c. rewrite digit_char_is_digit in Hc by exact Hd. discriminate.
Qed.

Lemma scan_mantissa_digits l val count :
  all_digits l ->
  scan_mantissa (string_of_digits l) false val count 0 =
  (digits_value l val, count + llen l, 0, false, EmptyString).
Proof.
  revert val count. induction l as [|d r IH]; intros val count H.
  - simpl. unfold llen. simpl. rewrite Z.add_0_r. reflexivity.
  - inversion H as [|? ? Hd Hr]; subst.
    cbn [string_of_digits scan_mantissa].
    rewrite digit_char_is_digit, digit_char_val by exact Hd.
    rewrite IH by exact Hr. unfold llen. cbn [List.length].
    rewrite Nat2Z.inj_succ. f_equal. f_equal. f_equal. f_equal. lia.
Qed.

(** The decimal of an integer value *)

Lemma ntz_ge m : forall j K, 0 <= j -> Zpos m = K * 2 ^ j -> j <= ntz m.
Proof.
  induction m as [p IH|p IH|]; intros j K Hj H; simpl.
  - destruct (Z.eq_dec j 0) as [->|N]; [lia|].
    exfalso. replace j with (Z.succ (j - 1)) in H by lia.
    rewrite Z.pow_succ_r in H by lia. lia.
  - destruct (Z.eq_dec j 0) as [->|N]; [pose proof (IH 0 (Zpos p) ltac:(lia) ltac:(lia)); lia|].
    assert (H' : Zpos p = K * 2 ^ (j - 1)).
    { replace j with (Z.succ (j - 1)) in H by lia.
      rewrite Z.pow_succ_r in H by lia. lia. }
    pose proof (IH (j - 1) K ltac:(lia) H'). lia.
  - destruct (Z.eq_dec j 0) as [->|N]; [lia|].
    exfalso. replace j with (Z.succ (j - 1)) in H by lia.
    rewrite Z.pow_succ_r in H by lia. lia.
Qed.

Lemma Qpower_2_0 (a : Q) : (a * 2 ^ 0 == a)%Q.
Proof. simpl. ring. Qed.

Lemma decimal_init_integer m e K :
  0 < K -> (inject_Z (Zpos m) * 2 ^ e == inject_Z K)%Q ->
  decimal_init m e = {| dmant := trim (utoa K); dexp := llen (utoa K) |}.
Proof.
  intros HK V. unfold decimal_init.
  destruct (Z.ltb_spec e 0) as [L|L].
  - assert (Hm : Zpos m = K * 2 ^ (0 - e)).
    { apply dyadic_eq_Z; [|lia]. rewrite V, Qpower_2_0. reflexivity. }
    replace (0 - e) with (- e) in Hm by lia.
    pose proof (ntz_ge m (- e) K ltac:(lia) Hm).
    rewrite Z.min_l by lia.
    replace (e + - e) with 0 by lia.
    rewrite Z.shiftr_div_pow2 by lia. rewrite Hm.
    rewrite Z.div_mul by (apply Z.pow_nonzero; lia).
    change (0 <? 0) with false. cbv iota. reflexivity.
  - assert (HKm : K = Zpos m * 2 ^ (e - 0)).
    { apply dyadic_eq_Z; [|lia]. rewrite V, Qpower_2_0. reflexivity. }
    replace (e - 0) with e in HKm by lia.
    rewrite Z.shiftr_0_r, Z.add_0_r.
    destruct (Z.ltb_spec 0 e) as [L'|L'].
    + rewrite Z.shiftl_mul_pow2 by lia. rewrite <- HKm.
      destruct (Z.ltb_spec e 0); [lia|]. reflexivity.
    + assert (e = 0) by lia. subst e. rewrite Z.pow_0_r, Z.mul_1_r in HKm.
      rewrite <- HKm. reflexivity.
Qed.

Lemma llen_nonneg {A} (l : list A) : 0 <= llen l.
Proof. unfold llen. lia. Qed.

Lemma llen_trim l : llen (trim l) <= llen l.
Proof. unfold llen. pose proof (trim_length l). lia. Qed.

Lemma append_empty_r (s : string) : (s ++ "")%string = s.
Proof.
  induction s as [|c s IH]; [reflexivity|].
  change (String c (s ++ "") = String c s)%string. rewrite IH. reflexivity.
Qed.

(** Printing: an integer below 10^10 is written with all its digits, no
    point and no exponent. *)
Lemma Float_String_integer x m e K :
  fform x = finite m e ->
  0 < K < 10 ^ 10 -> (inject_Z (Zpos m) * 2 ^ e == inject_Z K)%Q ->
  Float_String x =
  ((if neg x then "-" else "") ++ string_of_digits (utoa K))%string.
Proof.
  intros F HK V. unfold Float_String. rewrite F.
  rewrite (decimal_init_integer m e K) by (lia || exact V).
  pose proof (utoa_length K HK) as HL.
  pose proof (llen_trim (utoa K)) as HT.
  pose proof (llen_nonneg (trim (utoa K))) as HT0.
  set (D := utoa K) in *. set (T := trim D) in *.
  unfold decimal_round. cbn [dmant dexp].
  replace ((10 <? 0) || (llen T <=? 10)) with true
    by (symmetry; apply orb_true_iff; right; apply Z.leb_le; lia).
  cbn [dmant dexp].
  assert (E1 : ((llen D - 1 <? -4) ||
                ((if (llen T <? 10) && (llen D <=? llen T) then llen T else 10)
                 <=? llen D - 1)) = false).
  { apply orb_false_iff. split; [apply Z.ltb_ge; lia|].
    destruct (Z.ltb_spec (llen T) 10); destruct (Z.leb_spec (llen D) (llen T));
      cbn [andb]; apply Z.leb_gt; lia. }
  rewrite E1.
  assert (E2 : Z.max ((if llen D <? 10 then llen T else 10) - llen D) 0 = 0).
  { destruct (Z.ltb_spec (llen D) 10); lia. }
  rewrite E2. f_equal.
  unfold fmtF. cbn [dmant dexp].
  destruct (Z.ltb_spec 0 (llen D)) as [_|?]; [|lia].
  change (0 <? 0) with false. cbv iota.
  rewrite Z.min_l by lia.
  assert (E3 : take (Z.to_nat (llen T)) T ++ zeros (llen D - llen T) = D).
  { unfold zeros, llen. rewrite Nat2Z.id.
    rewrite firstn_all.
    replace (Z.to_nat (Z.of_nat (List.length D) - Z.of_nat (List.length T)))
      with (List.length D - List.length T)%nat by lia.
    apply trim_pad. }
  rewrite E3.
  apply append_empty_r.
Qed.

(** Parsing a string of digits *)

Lemma eqb_head_false c r c' r' :
  Ascii.eqb c c' = false -> String.eqb (String c r) (String c' r') = false.
Proof. intros H. cbn [String.eqb]. rewrite H. reflexivity. Qed.

Lemma digits_not_inf d r :
  0 <= d <= 9 ->
  let s := String (digit_char d) r in
  (String.eqb s "Inf" || String.eqb s "inf") = false /\
  (String.eqb s "+Inf" || String.eqb s "+inf") = false /\
  (String.eqb s "-Inf" || String.eqb s "-inf") = false.
Proof.
  intros H s. unfold s.
  rewrite !eqb_head_false by (apply digit_char_not; [reflexivity|exact H]).
  repeat split.
Qed.

Lemma minus_digits_not_inf d r :
  0 <= d <= 9 ->
  let s := String "-" (String (digit_char d) r) in
  (String.eqb s "Inf" || String.eqb s "inf") = false /\
  (String.eqb s "+Inf" || String.eqb s "+inf") = false /\
  (String.eqb s "-Inf" || String.eqb s "-inf") = false.
Proof.
  intros H s. unfold s.
  rewrite (eqb_head_false "-" _ "I"), (eqb_head_false "-" _ "i"),
          (eqb_head_false "-" _ "+") by reflexivity.
  rewrite (eqb_head_false "-" _ "+") by reflexivity.
  split; [reflexivity|]. split; [reflexivity|].
  cbn [String.eqb]. change (Ascii.eqb "-" "-") with true. cbv iota.
  rewrite !(digit_char_not _ d) by (reflexivity || exact H). reflexivity.
Qed.

Lemma Float_scan_digits D K :
  all_digits D -> D <> [] -> digits_value D 0 = K -> 0 < K < 2 ^ 64 ->
  Float_scan Float_new (string_of_digits D) =
  Done (Some {| prec := 64; acc := Exact; fform := finite (Z.to_pos K) 0; neg := false |}) /\
  Float_scan Float_new (String "-" (string_of_digits D)) =
  Done (Some {| prec := 64; acc := Exact; fform := finite (Z.to_pos K) 0; neg := true |}).
Proof.
  intros HD HN HV HK.
  assert (Hlen : 1 <= llen D).
  { destruct D; [congruence|]. unfold llen. cbn [List.length]. lia. }
  assert (Hb : bitlen (Z.to_pos K) <= 64).
  { apply bitlen_le_of_lt; [lia|]. rewrite Z2Pos.id by lia. lia. }
  pose proof (bitlen_pos (Z.to_pos K)) as Hb1.
  assert (Hscan : forall sg,
    (let '(val, count, frac, dot, s2) := scan_mantissa (string_of_digits D) false 0 0 0 in
     if count =? 0 then Done None
     else
       match scanExponent s2 with
       | None => Done None
       | Some (exp, ebase, rest) =>
           match val with
           | Zpos m =>
               let exp5 := (if dot then - frac else 0) + (if ebase =? 10 then exp else 0) in
               let e2 := (if dot then - frac else 0) + exp in
               if (MinExp <=? gexp m e2) && (gexp m e2 <=? MaxExp) then
                 do r <-
                   (if exp5 =? 0 then
                      let '(f, a) := Float_round 64 sg m e2 false in
                      Done {| prec := 64; acc := a; fform := f; neg := sg |}
                    else
                      let x := {| prec := 64; acc := Exact; fform := finite m e2; neg := sg |} in
                      if exp5 <? 0 then
                        do p5 <- pow5 (64 + 64) (- exp5); Float_Quo x x p5
                      else
                        do p5 <- pow5 (64 + 64) exp5; Float_Mul x x p5);
                 match rest with
                 | EmptyString => Done (Some r)
                 | _ => Done None
                 end
               else Done None
           | _ =>
               match rest with
               | EmptyString =>
                   Done (Some {| prec := 64; acc := Exact; fform := zero; neg := sg |})
               | _ => Done None
               end
           end
       end) =
    Done (Some {| prec := 64; acc := Exact; fform := finite (Z.to_pos K) 0; neg := sg |})).
  { intros sg. rewrite scan_mantissa_digits by exact HD. rewrite HV.
    destruct (Z.eqb_spec (0 + llen D) 0) as [?|_]; [lia|].
    cbn [scanExponent].
    destruct K as [|k|k]; try lia.
    cbn [Z.to_pos] in *.
    cbv zeta.
    change (0 + (if 10 =? 10 then 0 else 0)) with 0.
    change (0 + 0) with 0.
    assert (G : (MinExp <=? gexp k 0) && (gexp k 0 <=? MaxExp) = true).
    { unfold gexp, MinExp, MaxExp. apply andb_true_iff.
      split; apply Z.leb_le; lia. }
    rewrite G. change (0 =? 0) with true. cbv iota.
    unfold Float_round. destruct (Z.leb_spec (bitlen k) 64) as [_|?]; [|lia].
    reflexivity. }
  split.
  - destruct D as [|d D']; [congruence|].
    inversion HD as [|? ? Hd _]; subst.
    unfold Float_scan. change (prec Float_new =? 0) with true. cbv iota.
    cbn [string_of_digits].
    rewrite !(digit_char_not _ d) by (reflexivity || exact Hd).
    apply (Hscan false).
  - unfold Float_scan. change (prec Float_new =? 0) with true. cbv iota.
    change (Ascii.eqb "-" "-") with true. cbv iota.
    apply (Hscan true).
Qed.

(** The wire form of ASCII text *)

Lemma substring_all s : substring 0 (String.length s) s = s.
Proof. induction s as [|c s IH]; [reflexivity|]. cbn. rewrite IH. reflexivity. Qed.

Lemma substring_head c r : substring 0 1 (String c r) = String c EmptyString.
Proof. cbn. destruct r; reflexivity. Qed.

Lemma append_cons c r s : (String c r ++ s)%string = String c (r ++ s)%string.
Proof. reflexivity. Qed.

Lemma json_string_content_ascii fuel s :
  (String.length s <= fuel)%nat -> string_forall is_ascii_byte s = true ->
  json_string_content fuel s = s.
Proof.
  revert s. induction fuel as [|f IH]; intros s Hl Ha.
  - destruct s; [reflexivity|]. cbn in Hl. lia.
  - destruct s as [|c r]; [reflexivity|].
    cbn [string_forall] in Ha. apply andb_true_iff in Ha as [Hc Hr].
    cbn [String.length] in Hl.
    cbn [json_string_content].
    assert (U : utf8_size (String c r) = 1%nat).
    { unfold utf8_size, byte_in. unfold is_ascii_byte in Hc.
      apply Nat.ltb_lt in Hc.
      replace ((0 <=? nat_of_ascii c)%nat && (nat_of_ascii c <=? 127)%nat) with true;
        [reflexivity|].
      symmetry. apply andb_true_iff. split; apply Nat.leb_le; lia. }
    rewrite U.
    rewrite substring_head.
    cbn [String.length].
    replace (S (String.length r) - 1)%nat with (String.length r) by lia.
    change (substring 1 (String.length r) (String c r))
      with (substring 0 (String.length r) r).
    rewrite substring_all, append_cons. rewrite IH by (lia || exact Hr).
    reflexivity.
Qed.

Lemma json_string_ascii s :
  string_forall is_ascii_byte s = true -> json_string s = JString s.
Proof.
  intros H. unfold json_string. rewrite json_string_content_ascii by (lia || exact H).
  reflexivity.
Qed.

Lemma string_of_digits_ascii D :
  all_digits D -> string_forall is_ascii_byte (string_of_digits D) = true.
Proof.
  induction 1 as [|d r Hd _ IH]; [reflexivity|].
  cbn [string_of_digits string_forall]. rewrite digit_char_ascii by exact Hd.
  exact IH.
Qed.

(** Decoding what the encoder wrote for an amount text [a] (not empty) and
    a currency [cur]. *)
Lemma decode_marshalled a cur :
  a <> EmptyString ->
  string_forall is_ascii_byte a = true -> string_forall is_ascii_byte cur = true ->
  json_Unmarshal_priceJSON
    (json_Marshal_priceJSON {| pjAmount := a; pjCurrency := cur |})
    {| pjAmount := ""; pjCurrency := "" |} =
  ({| pjAmount := a; pjCurrency := cur |}, None).
Proof.
  intros Ha Aa Ac. unfold json_Marshal_priceJSON. cbn [pjAmount pjCurrency].
  rewrite (eqb_false_of_neq a "") by exact Ha.
  rewrite !json_string_ascii by assumption.
  destruct (String.eqb_spec cur "") as [->|N]; reflexivity.
Qed.

Lemma UnmarshalText_marshalled p a am :
  Float_String (amount p) = a -> a <> EmptyString ->
  string_forall is_ascii_byte a = true ->
  string_forall is_ascii_byte (currency p) = true ->
  Float_Parse Float_new a = Done (Some am) ->
  Price_roundtrip p = Done ({| amount := am; currency := currency p |}, None).
Proof.
  intros Hs Ha Aa Ac Hp. unfold Price_roundtrip, Price_MarshalText, Price_UnmarshalText.
  cbn [fst]. rewrite Hs, decode_marshalled by assumption.
  cbn [pjAmount pjCurrency]. rewrite Hp. reflexivity.
Qed.

Lemma Float_Parse_digits D K :
  all_digits D -> D <> [] -> digits_value D 0 = K -> 0 < K < 2 ^ 64 ->
  Float_Parse Float_new (string_of_digits D) =
  Done (Some {| prec := 64; acc := Exact; fform := finite (Z.to_pos K) 0; neg := false |}) /\
  Float_Parse Float_new (String "-" (string_of_digits D)) =
  Done (Some {| prec := 64; acc := Exact; fform := finite (Z.to_pos K) 0; neg := true |}).
Proof.
  intros HD HN HV HK.
  destruct (Float_scan_digits D K HD HN HV HK) as [S1 S2].
  destruct D as [|d D']; [congruence|].
  inversion HD as [|? ? Hd _]; subst.
  unfold Float_Parse. cbn [string_of_digits] in *.
  destruct (digits_not_inf d (string_of_digits D') Hd) as (A1 & A2 & A3).
  destruct (minus_digits_not_inf d (string_of_digits D') Hd) as (B1 & B2 & B3).
  cbv zeta in A1, A2, A3, B1, B2, B3.
  rewrite A1, A2, A3, B1, B2, B3. split; assumption.
Qed.

Lemma Price_Equal_of_value am p :
  is_inf am = false -> is_inf (amount p) = false ->
  (Float_value am == Float_value (amount p))%Q ->
  Price_Equal {| amount := am; currency := currency p |} p = true.
Proof.
  intros I1 I2 V. unfold Price_Equal. cbn [currency amount].
  rewrite String.eqb_refl. cbn [negb].
  rewrite Float_Cmp_spec by assumption.
  apply Qeq_alt in V. rewrite V. reflexivity.
Qed.

Lemma roundtrip_integer p k :
  is_inf (amount p) = false ->
  (Float_value (amount p) == inject_Z k)%Q -> Z.abs k < 10 ^ 10 ->
  string_forall is_ascii_byte (currency p) = true ->
  exists q, Price_roundtrip p = Done (q, None) /\
            currency q = currency p /\ Price_Equal q p = true.
Proof.
  intros I V B A. destruct p as [x cur]. cbn [amount currency] in *.
  destruct (fform x) as [|m e|] eqn:F; [| |unfold is_inf in I; rewrite F in I; discriminate].
  - (* zero *)
    set (am := {| prec := 64; acc := Exact; fform := zero; neg := neg x |}).
    exists {| amount := am; currency := cur |}. split; [|split; [reflexivity|]].
    + apply (UnmarshalText_marshalled {| amount := x; currency := cur |}
               (if neg x then "-0" else "0")%string am).
      * unfold Float_String. cbn [amount]. rewrite F. destruct (neg x); reflexivity.
      * destruct (neg x); discriminate.
      * destruct (neg x); reflexivity.
      * exact A.
      * unfold am. destruct (neg x); reflexivity.
    + unfold Price_Equal. cbn [amount currency]. rewrite String.eqb_refl. cbn [negb].
      rewrite Float_Cmp_zero_zero; [reflexivity|reflexivity|exact F].
  - (* finite *)
    pose proof (finite_value_pos m e) as Hpos.
    set (K := Z.abs k).
    assert (VK : (inject_Z (Zpos m) * 2 ^ e == inject_Z K)%Q /\ neg x = (k <? 0) /\ 0 < K).
    { unfold Float_value, form_value in V. rewrite F in V. unfold K.
      destruct (neg x) eqn:N.
      - assert (Hk : (inject_Z k < 0)%Q) by (rewrite <- V; exact (Qopp_lt_compat 0 _ Hpos)).
        change 0%Q with (inject_Z 0) in Hk. rewrite <- Zlt_Qlt in Hk.
        rewrite Z.abs_neq by lia. rewrite inject_Z_opp, <- V.
        split; [ring|]. split; [symmetry; apply Z.ltb_lt; lia|lia].
      - assert (Hk : (0 < inject_Z k)%Q) by (rewrite <- V; exact Hpos).
        change 0%Q with (inject_Z 0) in Hk. rewrite <- Zlt_Qlt in Hk.
        rewrite Z.abs_eq by lia.
        split; [exact V|]. split; [symmetry; apply Z.ltb_ge; lia|lia]. }
    destruct VK as (VK & Nx & K0).
    assert (HK : 0 < K < 10 ^ 10) by (unfold K in *; lia).
    pose proof (utoa_digits K K0) as HD.
    pose proof (utoa_value K K0) as HV.
    pose proof (utoa_length K HK) as HL.
    assert (HN : utoa K <> []).
    { intros E. rewrite E in HL. unfold llen in HL. cbn in HL. lia. }
    destruct (Float_Parse_digits (utoa K) K HD HN HV ltac:(lia)) as [P1 P2].
    set (am := {| prec := 64; acc := Exact; fform := finite (Z.to_pos K) 0; neg := neg x |}).
    exists {| amount := am; currency := cur |}. split; [|split; [reflexivity|]].
    + apply (UnmarshalText_marshalled {| amount := x; currency := cur |}
               ((if neg x then "-" else "") ++ string_of_digits (utoa K))%string am).
      * cbn [amount]. apply (Float_String_integer x m e K F HK VK).
      * destruct (neg x); [discriminate|].
        change (string_of_digits (utoa K) <> EmptyString).
        destruct (utoa K); [congruence|discriminate].
      * destruct (neg x).
        -- change (string_forall is_ascii_byte (String "-" (string_of_digits (utoa K))) = true).
           cbn [string_forall]. rewrite string_of_digits_ascii by exact HD. reflexivity.
        -- change (string_forall is_ascii_byte (string_of_digits (utoa K)) = true).
           apply string_of_digits_ascii. exact HD.
      * exact A.
      * unfold am. destruct (neg x); [exact P2|exact P1].
    + apply (Price_Equal_of_value am {| amount := x; currency := cur |}).
      * reflexivity.
      * exact I.
      * cbn [amount]. unfold Float_value, form_value, am. cbn [neg fform]. rewrite F.
        rewrite Z2Pos.id by lia.
        assert (E0 : (inject_Z K * 2 ^ 0 == inject_Z (Zpos m) * 2 ^ e)%Q)
          by (rewrite Qpower_2_0, VK; reflexivity).
        destruct (neg x); rewrite E0; reflexivity.
Qed.

Lemma roundtrip_infinite p :
  is_inf (amount p) = true ->
  string_forall is_ascii_byte (currency p) = true ->
  exists q, Price_roundtrip p = Done (q, None) /\
            currency q = currency p /\ Price_Equal q p = true.
Proof.
  intros I A. destruct p as [x cur]. cbn [amount currency] in *.
  unfold is_inf in I. destruct (fform x) eqn:F; try discriminate.
  set (am := {| prec := 0; acc := Exact; fform := inf; neg := neg x |}).
  exists {| amount := am; currency := cur |}. split; [|split; [reflexivity|]].
  - apply (UnmarshalText_marshalled {| amount := x; currency := cur |}
             (if neg x then "-Inf" else "+Inf")%string am).
    + unfold Float_String. cbn [amount]. rewrite F. destruct (neg x); reflexivity.
    + destruct (neg x); discriminate.
    + destruct (neg x); reflexivity.
    + exact A.
    + unfold am. destruct (neg x); reflexivity.
  - unfold Price_Equal. cbn [amount currency]. rewrite String.eqb_refl. cbn [negb].
    rewrite Float_Cmp_same; [reflexivity| |reflexivity].
    cbn [fform]. rewrite F. reflexivity.
Qed.

(** X1 (MarshalText, UnmarshalText).  An Amount that is a whole number
    below 10^10 in magnitude, or infinite, with a currency of ASCII
    characters, survives the wire: encoding it and decoding the result
    into a fresh Price succeeds and gives an Amount of the same currency
    that is Equal to it. *)
Theorem wire_roundtrip_whole_amounts p :
  string_forall is_ascii_byte (currency p) = true ->
  (is_inf (amount p) = true \/
   exists k, is_inf (amount p) = false /\
             (Float_value (amount p) == inject_Z k)%Q /\ Z.abs k < 10 ^ 10) ->
  exists q, Price_roundtrip p = Done (q, None) /\
            currency q = currency p /\ Price_Equal q p = true.
Proof.
  intros A [I|(k & I & V & B)].
  - apply roundtrip_infinite; assumption.
  - apply (roundtrip_integer p k); assumption.
Qed.

Lemma wire_roundtrip_whole_amounts_witness :
  exists q, Price_roundtrip (sample_int (-1250) "EUR") = Done (q, None) /\
            currency q = "EUR"%string /\
            Price_Equal q (sample_int (-1250) "EUR") = true.
Proof.
  apply (wire_roundtrip_whole_amounts (sample_int (-1250) "EUR")).
  - reflexivity.
  - right. exists (-1250). split; [reflexivity|]. split; [reflexivity|lia].
Defined.

Import ListNotations.
Local Open Scope Z_scope.

(** * Comparisons *)

Lemma ioc_CompOpp c : int_of_comparison (CompOpp c) = - int_of_comparison c.
Proof. destruct c; reflexivity. Qed.

Lemma ucmp_antisym mx ex my ey : ucmp my ey mx ex = CompOpp (ucmp mx ex my ey).
Proof. rewrite !ucmp_spec. symmetry. apply Qcompare_antisym. Qed.

Lemma Float_Cmp_antisym x y : Float_Cmp y x = - Float_Cmp x y.
Proof.
  unfold Float_Cmp.
  destruct (Z.ltb_spec (ord x) (ord y)) as [L|L];
    destruct (Z.ltb_spec (ord y) (ord x)) as [L'|L']; try lia; try reflexivity.
  assert (E : ord x = ord y) by lia. unfold ord in E.
  destruct (fform x) as [|mx ex|], (fform y) as [|my ey|];
    destruct (neg x), (neg y); try discriminate; try reflexivity;
    rewrite (ucmp_antisym mx ex my ey) || rewrite (ucmp_antisym my ey mx ex);
    rewrite ioc_CompOpp; lia.
Qed.

Lemma Float_Cmp_range x y :
  Float_Cmp x y = -1 \/ Float_Cmp x y = 0 \/ Float_Cmp x y = 1.
Proof.
  unfold Float_Cmp.
  destruct (ord x <? ord y); [left; reflexivity|].
  destruct (ord y <? ord x); [right; right; reflexivity|].
  destruct (fform x) as [|mx ex|], (fform y) as [|my ey|]; try (right; left; reflexivity).
  destruct (neg x);
    [destruct (ucmp my ey mx ex)|destruct (ucmp mx ex my ey)]; cbn; auto.
Qed.

Lemma Price_Equal_spec a b :
  is_inf (amount a) = false -> is_inf (amount b) = false ->
  (Price_Equal a b = true <->
   currency a = currency b /\ (Float_value (amount a) == Float_value (amount b))%Q).
Proof.
  intros Ia Ib. unfold Price_Equal. rewrite Float_Cmp_spec by assumption.
  destruct (String.eqb_spec (currency a) (currency b)) as [E|N]; cbn [negb].
  - split.
    + intros H. split; [exact E|]. apply Qeq_alt.
      destruct (Float_value (amount a) ?= Float_value (amount b))%Q; cbn in H;
        congruence.
    + intros [_ V]. apply Qeq_alt in V. rewrite V. reflexivity.
  - split; [discriminate|]. intros [E _]. contradiction.
Qed.

(** X2 (Equal).  Equal looks at the currency and at the numeric value
    only: two Amounts that are not infinite are Equal exactly when their
    currencies are the same string and their values are the same number,
    whatever their precision, accuracy or the sign of a zero. *)
Theorem Equal_iff_same_currency_and_value a b :
  is_inf (amount a) = false -> is_inf (amount b) = false ->
  (Price_Equal a b = true <->
   currency a = currency b /\ (Float_value (amount a) == Float_value (amount b))%Q).
Proof. intros Ia Ib. apply Price_Equal_spec; assumption. Qed.

Lemma Equal_iff_same_currency_and_value_witness :
  Price_Equal (sample_int 2 "EUR")
    {| amount := {| prec := 53; acc := Below; fform := finite 4 (-1); neg := false |};
       currency := "EUR" |} = true <->
  "EUR"%string = "EUR"%string /\
  (Float_value (amount (sample_int 2 "EUR")) ==
   Float_value {| prec := 53; acc := Below; fform := finite 4 (-1); neg := false |})%Q.
Proof.
  apply (Equal_iff_same_currency_and_value (sample_int 2 "EUR")
           {| amount := {| prec := 53; acc := Below; fform := finite 4 (-1); neg := false |};
              currency := "EUR" |}); reflexivity.
Defined.

(** X3 (IsLessThen, Equal, IsGreaterThen).  For two Amounts of one
    currency exactly one of IsLessThen, Equal and IsGreaterThen holds, and
    a.IsLessThen(b) is b.IsGreaterThen(a); for different currencies all
    three are false, in both directions. *)
Theorem comparison_trichotomy a b :
  Price_IsLessThen a b = Price_IsGreaterThen b a /\
  if String.eqb (currency a) (currency b) then
    (Price_IsLessThen a b, Price_Equal a b, Price_IsGreaterThen a b) = (true, false, false) \/
    (Price_IsLessThen a b, Price_Equal a b, Price_IsGreaterThen a b) = (false, true, false) \/
    (Price_IsLessThen a b, Price_Equal a b, Price_IsGreaterThen a b) = (false, false, true)
  else
    (Price_IsLessThen a b, Price_Equal a b, Price_IsGreaterThen a b) = (false, false, false) /\
    (Price_IsLessThen b a, Price_Equal b a, Price_IsGreaterThen b a) = (false, false, false).
Proof.
  unfold Price_IsLessThen, Price_IsGreaterThen, Price_Equal.
  rewrite (String.eqb_sym (currency b) (currency a)).
  rewrite (Float_Cmp_antisym a.(amount) b.(amount)).
  destruct (String.eqb (currency a) (currency b)); cbn [negb].
  - destruct (Float_Cmp_range (amount a) (amount b)) as [H|[H|H]]; rewrite H;
      split; try reflexivity; cbn; auto.
  - repeat split.
Qed.

(** * Sign and zero tests *)

Lemma Price_IsPositive_Done p :
  Price_IsPositive p =
  Done (Float_Cmp (amount p) {| prec := 53; acc := Exact; fform := zero; neg := false |} =? 1).
Proof. reflexivity. Qed.

Lemma Qcompare_Lt_iff (a b : Q) : (a ?= b)%Q = Lt <-> (a < b)%Q.
Proof. symmetry. apply Qlt_alt. Qed.

Lemma Qcompare_Gt_iff (a b : Q) : (a ?= b)%Q = Gt <-> (b < a)%Q.
Proof. symmetry. apply Qgt_alt. Qed.

(** X4 (IsNegative, IsPositive).  Neither test ever panics, and they
    never hold together.  On an Amount that is not infinite IsNegative
    holds exactly when the value is below zero and IsPositive exactly when
    it is above zero, so that a zero of either sign is neither; on an
    infinite Amount IsNegative is the sign and IsPositive its opposite. *)
Theorem sign_tests_follow_the_value p :
  exists n s, Price_IsNegative p = Done n /\ Price_IsPositive p = Done s /\
    n && s = false /\
    if is_inf (amount p)
    then n = neg (amount p) /\ s = negb (neg (amount p))
    else (n = true <-> (Float_value (amount p) < 0)%Q) /\
         (s = true <-> (0 < Float_value (amount p))%Q).
Proof.
  rewrite Price_IsNegative_Done, Price_IsPositive_Done.
  eexists. eexists. split; [reflexivity|]. split; [reflexivity|].
  split.
  - destruct (Float_Cmp_range (amount p)
                {| prec := 53; acc := Exact; fform := zero; neg := false |}) as [H|[H|H]];
      rewrite H; reflexivity.
  - destruct (is_inf (amount p)) eqn:I.
    + unfold is_inf in I. destruct (fform (amount p)) eqn:F; try discriminate.
      unfold Float_Cmp, ord. cbn [fform neg]. rewrite F.
      destruct (neg (amount p)); split; reflexivity.
    + rewrite Float_Cmp_spec by (exact I || reflexivity).
      change (Float_value {| prec := 53; acc := Exact; fform := zero; neg := false |})
        with 0%Q.
      rewrite <- Qcompare_Lt_iff, <- Qcompare_Gt_iff.
      destruct (Float_value (amount p) ?= 0)%Q; cbn; split; split; congruence.
Qed.

Lemma Qabs_signed (n : bool) (v : Q) : (0 < v)%Q -> (Qabs (if n then - v else v) == v)%Q.
Proof.
  intros H. destruct n.
  - rewrite Qabs_opp. apply Qabs_pos. apply Qlt_le_weak. exact H.
  - apply Qabs_pos. apply Qlt_le_weak. exact H.
Qed.

(** X5 (IsZero).  IsZero never panics.  An infinite Amount is not zero,
    and an Amount that is not infinite is zero exactly when its magnitude
    is below the tolerance [big.NewFloat(0.000000001)], the float64 nearest
    to 1e-9. *)
Theorem IsZero_iff_below_tolerance p :
  exists z, Price_IsZero p = Done z /\
    if is_inf (amount p) then z = false
    else (z = true <-> (Qabs (Float_value (amount p)) < Float_value tolerance)%Q).
Proof.
  rewrite Price_IsZero_spec. eexists. split; [reflexivity|].
  unfold is_inf. unfold Float_value at 1.
  destruct (fform (amount p)) as [|m e|] eqn:F; [| |reflexivity].
  - cbn [below_tolerance form_value].
    split; [intros _|reflexivity].
    destruct (neg (amount p)); vm_compute; reflexivity.
  - cbn [below_tolerance form_value].
    rewrite Qabs_signed by apply finite_value_pos.
    rewrite ucmp_spec.
    change (Float_value tolerance) with (inject_Z 4835703278458517 * 2 ^ (-82))%Q.
    rewrite <- Qcompare_Lt_iff.
    destruct (inject_Z (Z.pos m) * 2 ^ e ?= inject_Z 4835703278458517 * 2 ^ (-82))%Q;
      cbn; split; congruence.
Qed.

Import ListNotations.
Local Open Scope Z_scope.

(** * Addition and subtraction *)

Lemma umax32_comm x y : umax32 x y = umax32 y x.
Proof. unfold umax32. destruct (Z.ltb_spec y x), (Z.ltb_spec x y); lia. Qed.

Lemma result_prec_comm z x y : result_prec z x y = result_prec z y x.
Proof. unfold result_prec. rewrite umax32_comm. reflexivity. Qed.

Lemma signed_sum_comm xn mx ex yn my ey :
  signed_sum xn mx ex yn my ey = signed_sum yn my ey xn mx ex.
Proof. unfold signed_sum. rewrite (Z.min_comm ey ex). cbv zeta. lia. Qed.

Lemma Float_wf_prec x : Float_wf x = true -> 0 <= prec x.
Proof.
  unfold Float_wf. intros H. apply andb_true_iff in H as [H _].
  apply andb_true_iff in H as [H _]. apply Z.leb_le in H. exact H.
Qed.

Lemma Float_Set_inf z x :
  fform x = inf ->
  Float_Set z x =
  {| prec := (if prec z =? 0 then prec x else prec z); acc := Exact; fform := inf;
     neg := neg x |}.
Proof. intros F. unfold Float_Set. rewrite F. reflexivity. Qed.

Lemma Float_Add_comm x y :
  0 <= prec x -> 0 <= prec y ->
  Float_Add Float_new x y = Float_Add Float_new y x.
Proof.
  intros Px Py. unfold Float_Add. rewrite (result_prec_comm Float_new y x).
  destruct (fform x) as [|mx ex|] eqn:Fx, (fform y) as [|my ey|] eqn:Fy;
    try reflexivity.
  - rewrite (andb_comm (neg y) (neg x)). reflexivity.
  - rewrite !add_finite_spec, signed_sum_comm, (Z.min_comm ey ex). reflexivity.
  - replace (Bool.eqb (neg y) (neg x)) with (Bool.eqb (neg x) (neg y))
      by (destruct (neg x), (neg y); reflexivity).
    destruct (Bool.eqb (neg x) (neg y)) eqn:E; [|reflexivity].
    apply Bool.eqb_prop in E.
    rewrite !Float_Set_inf by assumption. cbn [with_prec prec].
    rewrite E. f_equal. f_equal.
    unfold result_prec. cbn [prec Float_new]. change (0 =? 0) with true. cbv iota.
    unfold umax32.
    destruct (Z.ltb_spec (prec y) (prec x)); destruct (Z.eqb_spec (prec x) 0);
      destruct (Z.eqb_spec (prec y) 0); lia.
Qed.

(** X6 (Add).  Addition commutes: for two well-formed Amounts of one
    currency a.Add(b) and b.Add(a) are the same result, bit for bit (or the
    same panic, for infinities of opposite signs). *)
Theorem Add_commutes a b :
  currency a = currency b ->
  Float_wf (amount a) = true -> Float_wf (amount b) = true ->
  Price_Add a b = Price_Add b a.
Proof.
  intros E Wa Wb. unfold Price_Add, Price_currencyGuard.
  rewrite <- E, String.eqb_refl. rewrite !bind_Done. cbn [Price_blank amount currency].
  rewrite (Float_Add_comm (amount a) (amount b))
    by (apply Float_wf_prec; assumption).
  reflexivity.
Qed.

Lemma Add_commutes_witness :
  Price_Add (sample_int 7 "EUR") (sample_tiny "EUR") =
  Price_Add (sample_tiny "EUR") (sample_int 7 "EUR").
Proof.
  apply (Add_commutes (sample_int 7 "EUR") (sample_tiny "EUR")); reflexivity.
Defined.

(** X7 (Sub).  An Amount minus itself is exactly zero, in its own
    currency and without error, unless it is infinite: then Sub panics. *)
Theorem Sub_self a :
  if is_inf (amount a) then exists msg, Price_Sub a a = Panic msg
  else exists r, Price_Sub a a = Done (r, None) /\
                 currency r = currency a /\ fform (amount r) = zero.
Proof.
  unfold Price_Sub, Price_currencyGuard. rewrite String.eqb_refl, !bind_Done.
  cbn [Price_blank amount currency]. unfold is_inf.
  destruct (fform (amount a)) as [|m e|] eqn:F.
  - unfold Float_Sub. rewrite F. rewrite bind_Done.
    eexists. split; [reflexivity|]. split; reflexivity.
  - rewrite (Float_Sub_finite Float_new (amount a) (amount a) m e m e F F).
    rewrite signed_sum_cancel. rewrite bind_Done.
    eexists. split; [reflexivity|]. split; reflexivity.
  - unfold Float_Sub. rewrite F. rewrite Bool.eqb_reflx. eexists. reflexivity.
Qed.

(** * Products that are exact *)

Lemma setExpAndRound_same_value p s m e M E :
  (inject_Z (Zpos m) * 2 ^ e == inject_Z (Zpos M) * 2 ^ E)%Q ->
  bitlen M <= p -> MinExp <= gexp M E <= MaxExp ->
  exists m' e', setExpAndRound p s m e false = (finite m' e', Exact) /\
    (inject_Z (Zpos m') * 2 ^ e' == inject_Z (Zpos M) * 2 ^ E)%Q.
Proof.
  intros V B R.
  pose proof (setExpAndRound_representable p s m e M E V B R) as A.
  destruct (setExpAndRound p s m e false) as [f a] eqn:S. cbn [snd] in A. subst a.
  destruct (setExpAndRound_exact p s m e false f S) as (m' & e' & -> & V').
  exists m', e'. split; [reflexivity|]. rewrite V'. exact V.
Qed.

Lemma representable_wf x m e :
  Float_wf x = true -> fform x = finite m e ->
  representable (inject_Z (Zpos m) * 2 ^ e) (prec x).
Proof.
  intros W F. destruct (Float_wf_finite x m e W F) as [B R].
  exists m, e. split; [reflexivity|]. split; assumption.
Qed.

Lemma representable_mono v p q : representable v p -> p <= q -> representable v q.
Proof. intros (M & E & V & B & R) L. exists M, E. repeat split; try assumption; lia. Qed.

Lemma representable_eq v w p : (v == w)%Q -> representable v p -> representable w p.
Proof.
  intros H (M & E & V & B & R). exists M, E. split; [rewrite <- H; exact V|].
  split; assumption.
Qed.

Lemma Float_Mul_unit z x u mx ex mu eu :
  fform x = finite mx ex -> fform u = finite mu eu ->
  (inject_Z (Zpos mu) * 2 ^ eu == 1)%Q ->
  representable (inject_Z (Zpos mx) * 2 ^ ex) (result_prec z x u) ->
  exists r m' e', Float_Mul z x u = Done r /\ fform r = finite m' e' /\
    (inject_Z (Zpos m') * 2 ^ e' == inject_Z (Zpos mx) * 2 ^ ex)%Q /\
    neg r = xorb (neg x) (neg u) /\ acc r = Exact /\ prec r = result_prec z x u.
Proof.
  intros Fx Fu U (M & E & V & B & R). unfold Float_Mul. rewrite Fx, Fu.
  assert (VP : (inject_Z (Zpos (mx * mu)) * 2 ^ (ex + eu) ==
                inject_Z (Zpos M) * 2 ^ E)%Q).
  { rewrite <- V. rewrite Pos2Z.inj_mul, inject_Z_mult, P2_add.
    transitivity ((inject_Z (Zpos mx) * 2 ^ ex) * (inject_Z (Zpos mu) * 2 ^ eu))%Q;
      [ring|]. rewrite U. ring. }
  destruct (setExpAndRound_same_value (result_prec z x u) (xorb (neg x) (neg u))
              (mx * mu) (ex + eu) M E VP B R) as (m' & e' & S & V').
  rewrite S. eexists. exists m', e'. split; [reflexivity|].
  cbn [fform neg acc prec]. split; [reflexivity|]. split; [rewrite V', V; reflexivity|].
  repeat split.
Qed.

Lemma minus_one_form :
  big_NewFloat (f64_of_Z (-1)) =
  Done {| prec := 53; acc := Exact; fform := finite 4503599627370496 (-52); neg := true |}.
Proof. vm_compute. reflexivity. Qed.

Lemma result_prec_new x y : result_prec Float_new x y = umax32 (prec x) (prec y).
Proof. reflexivity. Qed.

Lemma Qabs_value x m e :
  fform x = finite m e -> (Qabs (Float_value x) == inject_Z (Zpos m) * 2 ^ e)%Q.
Proof.
  intros F. unfold Float_value. rewrite F. cbn [form_value].
  apply Qabs_signed. apply finite_value_pos.
Qed.

(** The amount of [p.Inverse()], for an amount whose value [prec p] bits
    hold (every well-formed amount is one). *)
Lemma Inverse_amount p :
  match fform (amount p) with
  | finite m e => representable (inject_Z (Zpos m) * 2 ^ e) (prec (amount p))
  | _ => True
  end ->
  is_inf (amount p) = false ->
  exists q, Price_Inverse p = Done q /\ currency q = currency p /\
    is_inf (amount q) = false /\
    prec (amount q) = umax32 (prec (amount p)) 53 /\
    (Float_value (amount q) == - Float_value (amount p))%Q.
Proof.
  intros Rp I. unfold Price_Inverse. rewrite minus_one_form, bind_Done.
  set (u := {| prec := 53; acc := Exact; fform := finite 4503599627370496 (-52);
               neg := true |}).
  unfold is_inf in I.
  destruct (fform (amount p)) as [|m e|] eqn:F; [| |discriminate].
  - unfold Float_Mul. rewrite F. cbn [fform u]. rewrite bind_Done.
    eexists. split; [reflexivity|]. cbn [amount currency].
    split; [reflexivity|]. split; [reflexivity|]. split; [reflexivity|].
    unfold Float_value. cbn [fform neg form_value]. rewrite F. cbn [form_value].
    destruct (xorb (neg (amount p)) true), (neg (amount p)); reflexivity.
  - destruct (Float_Mul_unit Float_new (amount p) u m e 4503599627370496 (-52) F
                eq_refl) as (r & m' & e' & M & Fr & V & N & A & P).
    + reflexivity.
    + rewrite result_prec_new. eapply representable_mono; [exact Rp|apply umax32_ge_l].
    + rewrite M, bind_Done. eexists. split; [reflexivity|]. cbn [amount currency].
      split; [reflexivity|]. split; [unfold is_inf; rewrite Fr; reflexivity|].
      split; [rewrite P; reflexivity|].
      unfold Float_value. rewrite Fr, F, N. cbn [form_value neg u].
      destruct (neg (amount p)); cbn [xorb negb]; rewrite V; ring.
Qed.

(** X8 (Inverse).  On a well-formed Amount that is not infinite Inverse
    is exact: it keeps the currency, its value is the negated value, and
    inverting twice gives an Amount Equal to the first. *)
Theorem Inverse_is_exact p :
  Float_wf (amount p) = true -> is_inf (amount p) = false ->
  exists q r, Price_Inverse p = Done q /\ currency q = currency p /\
    (Float_value (amount q) == - Float_value (amount p))%Q /\
    Price_Inverse q = Done r /\ Price_Equal r p = true.
Proof.
  intros W I.
  assert (Rp : match fform (amount p) with
               | finite m e => representable (inject_Z (Zpos m) * 2 ^ e) (prec (amount p))
               | _ => True
               end).
  { destruct (fform (amount p)) eqn:F; [exact Logic.I| |exact Logic.I].
    apply representable_wf; assumption. }
  destruct (Inverse_amount p Rp I) as (q & Hq & Cq & Iq & Pq & Vq).
  assert (Rq : match fform (amount q) with
               | finite m e => representable (inject_Z (Zpos m) * 2 ^ e) (prec (amount q))
               | _ => True
               end).
  { destruct (fform (amount q)) as [|mq eq|] eqn:Fq; [exact Logic.I| |exact Logic.I].
    assert (Aq : (Qabs (Float_value (amount q)) == Qabs (Float_value (amount p)))%Q)
      by (rewrite Vq; apply Qabs_opp).
    rewrite (Qabs_value (amount q) mq eq Fq) in Aq.
    destruct (fform (amount p)) as [|m e|] eqn:F.
    - exfalso. unfold Float_value in Aq. rewrite F in Aq. cbn [form_value] in Aq.
      pose proof (finite_value_pos mq eq) as Hp.
      assert (Z0 : (Qabs (if neg (amount p) then - 0 else 0) == 0)%Q)
        by (destruct (neg (amount p)); reflexivity).
      rewrite Z0 in Aq. rewrite Aq in Hp. apply Qlt_irrefl in Hp. exact Hp.
    - rewrite (Qabs_value (amount p) m e F) in Aq.
      eapply representable_mono; [|rewrite Pq; apply umax32_ge_l].
      eapply representable_eq; [symmetry; exact Aq|exact Rp].
    - unfold is_inf in I. rewrite F in I. discriminate. }
  destruct (Inverse_amount q Rq Iq) as (r & Hr & Cr & Ir & Pr & Vr).
  exists q, r. split; [exact Hq|]. split; [exact Cq|]. split; [exact Vq|].
  split; [exact Hr|].
  apply (Price_Equal_spec r p Ir I).
  split; [congruence|]. rewrite Vr, Vq. ring.
Qed.

Lemma Inverse_is_exact_witness :
  exists q r, Price_Inverse (sample_tiny "EUR") = Done q /\ currency q = "EUR"%string /\
    (Float_value (amount q) == - Float_value (amount (sample_tiny "EUR")))%Q /\
    Price_Inverse q = Done r /\ Price_Equal r (sample_tiny "EUR") = true.
Proof. apply (Inverse_is_exact (sample_tiny "EUR")); reflexivity. Defined.

(** * Multiply and Divided *)

Lemma Float_Quo_one z x mx ex s1 p1 a1 :
  fform x = finite mx ex ->
  representable (inject_Z (Zpos mx) * 2 ^ ex) (result_prec z x
     {| prec := p1; acc := a1; fform := finite 1 0; neg := s1 |}) ->
  exists r m' e',
    Float_Quo z x {| prec := p1; acc := a1; fform := finite 1 0; neg := s1 |} = Done r /\
    fform r = finite m' e' /\
    (inject_Z (Zpos m') * 2 ^ e' == inject_Z (Zpos mx) * 2 ^ ex)%Q /\
    neg r = xorb (neg x) s1.
Proof.
  intros Fx (M & E & V & B & R). unfold Float_Quo. rewrite Fx. cbn [fform neg].
  set (p := result_prec z x _) in *.
  unfold uquo. rewrite Z.mod_1_r. change (negb (0 =? 0)) with false.
  rewrite Z.div_1_r.
  set (d := Z.max 0 (p + 1 + bitlen 1 - bitlen mx)).
  assert (Hd : 0 <= d) by (unfold d; lia).
  rewrite Z.shiftl_mul_pow2 by exact Hd.
  assert (VP : (inject_Z (Zpos (Z.to_pos (Zpos mx * 2 ^ d))) * 2 ^ (ex - 0 - d) ==
                inject_Z (Zpos M) * 2 ^ E)%Q).
  { rewrite <- V. rewrite Z2Pos.id by (pose proof (Z.pow_pos_nonneg 2 d); lia).
    rewrite inject_shift by exact Hd.
    replace (ex - 0 - d + d) with ex by lia. reflexivity. }
  destruct (setExpAndRound_same_value p (xorb (neg x) s1) _ _ M E VP B R)
    as (m' & e' & S & V').
  rewrite S. eexists. exists m', e'. split; [reflexivity|]. cbn [fform neg].
  split; [reflexivity|]. split; [rewrite V', V; reflexivity|reflexivity].
Qed.

Lemma Equal_of_signed_value r p m e m' e' :
  currency r = currency p ->
  fform (amount p) = finite m e -> fform (amount r) = finite m' e' ->
  (inject_Z (Zpos m') * 2 ^ e' == inject_Z (Zpos m) * 2 ^ e)%Q ->
  neg (amount r) = neg (amount p) ->
  Price_Equal r p = true.
Proof.
  intros C F F' V N.
  apply Price_Equal_spec.
  - unfold is_inf. rewrite F'. reflexivity.
  - unfold is_inf. rewrite F. reflexivity.
  - split; [exact C|]. unfold Float_value. rewrite F, F', N. cbn [form_value].
    destruct (neg (amount p)); rewrite V; reflexivity.
Qed.

Lemma Equal_of_zero r p :
  currency r = currency p ->
  fform (amount p) = zero -> fform (amount r) = zero -> Price_Equal r p = true.
Proof.
  intros C F F'. unfold Price_Equal. rewrite C, String.eqb_refl. cbn [negb].
  rewrite Float_Cmp_zero_zero by assumption. reflexivity.
Qed.

(** X9 (Multiply, Divided).  One is neutral: on a well-formed Amount that
    is not infinite, Multiply(1) and Divided(1) succeed and return an
    Amount Equal to it. *)
Theorem Multiply_Divided_by_one p :
  Float_wf (amount p) = true -> is_inf (amount p) = false ->
  exists q r, Price_Multiply p 1 = Done q /\ Price_Equal q p = true /\
              Price_Divided p 1 = Done r /\ Price_Equal r p = true.
Proof.
  intros W I. unfold Price_Multiply, Price_Divided.
  change (1 =? 0) with false. cbv iota.
  change (Float_SetInt64 Float_new 1)
    with {| prec := 64; acc := Exact; fform := finite 1 0; neg := false |}.
  unfold is_inf in I. destruct (fform (amount p)) as [|m e|] eqn:F; [| |discriminate].
  - unfold Float_Mul, Float_Quo. rewrite F. cbn [fform]. rewrite !bind_Done.
    eexists. eexists. split; [reflexivity|].
    split; [apply Equal_of_zero; [reflexivity|exact F|reflexivity]|].
    split; [reflexivity|apply Equal_of_zero; [reflexivity|exact F|reflexivity]].
  - assert (Rp : forall a s, representable (inject_Z (Zpos m) * 2 ^ e)
                   (result_prec Float_new (amount p)
                      {| prec := 64; acc := a; fform := finite 1 0; neg := s |})).
    { intros a s. rewrite result_prec_new.
      eapply representable_mono; [apply representable_wf; eassumption|apply umax32_ge_l]. }
    destruct (Float_Mul_unit Float_new (amount p)
                {| prec := 64; acc := Exact; fform := finite 1 0; neg := false |}
                m e 1 0 F eq_refl) as (q & mq & eq & Hq & Fq & Vq & Nq & _ & _);
      [reflexivity|apply Rp|].
    destruct (Float_Quo_one Float_new (amount p) m e false 64 Exact F (Rp Exact false))
      as (r & mr & er & Hr & Fr & Vr & Nr).
    rewrite Hq, Hr, !bind_Done. eexists. eexists. split; [reflexivity|].
    split; [|split; [reflexivity|]].
    + apply (Equal_of_signed_value _ p m e mq eq); cbn [amount currency];
        [reflexivity|exact F|exact Fq|exact Vq|].
      rewrite Nq. cbn [neg]. apply xorb_false_r.
    + apply (Equal_of_signed_value _ p m e mr er); cbn [amount currency];
        [reflexivity|exact F|exact Fr|exact Vr|].
      rewrite Nr. apply xorb_false_r.
Qed.

Lemma Multiply_Divided_by_one_witness :
  exists q r, Price_Multiply (sample_tiny "EUR") 1 = Done q /\
              Price_Equal q (sample_tiny "EUR") = true /\
              Price_Divided (sample_tiny "EUR") 1 = Done r /\
              Price_Equal r (sample_tiny "EUR") = true.
Proof. apply (Multiply_Divided_by_one (sample_tiny "EUR")); reflexivity. Defined.

(** X10 (Multiply, Divided).  Zero as a factor or divisor: Divided(0)
    never divides, it returns NewZero of the currency whatever the amount;
    Multiply(0) returns an exact zero in the currency, except on an
    infinite amount, where it panics. *)
Theorem Multiply_Divided_by_zero p :
  Price_Divided p 0 = Done (NewZero (currency p)) /\
  if is_inf (amount p) then exists msg, Price_Multiply p 0 = Panic msg
  else exists q, Price_Multiply p 0 = Done q /\ currency q = currency p /\
                 fform (amount q) = zero.
Proof.
  split; [reflexivity|]. unfold Price_Multiply, is_inf, Float_Mul.
  change (fform (Float_SetInt64 Float_new 0)) with zero.
  destruct (fform (amount p)).
  - rewrite bind_Done. eexists. repeat split.
  - rewrite bind_Done. eexists. repeat split.
  - eexists. reflexivity.
Qed.

Lemma bitlen_mul_le a b : bitlen (a * b) <= bitlen a + bitlen b.
Proof.
  pose proof (bitlen_spec a) as [_ Ha]. pose proof (bitlen_spec b) as [_ Hb].
  pose proof (bitlen_pos a). pose proof (bitlen_pos b).
  apply bitlen_le_of_lt; [lia|].
  rewrite Pos2Z.inj_mul, Z.pow_add_r by lia.
  apply Z.mul_lt_mono_nonneg; lia.
Qed.

(** Dividing an exact product by its factor. *)
Lemma uquo_of_product p s mx ex u m' e' :
  (inject_Z (Zpos m') * 2 ^ e' == inject_Z (Zpos (mx * u)) * 2 ^ ex)%Q ->
  bitlen mx <= p -> MinExp <= gexp mx ex <= MaxExp ->
  exists m2 e2, uquo p s m' e' u 0 = (finite m2 e2, Exact) /\
    (inject_Z (Zpos m2) * 2 ^ e2 == inject_Z (Zpos mx) * 2 ^ ex)%Q.
Proof.
  intros V B R. unfold uquo.
  set (d := Z.max 0 (p + 1 + bitlen u - bitlen m')).
  assert (Hd : 0 <= d) by (unfold d; lia).
  pose proof (gexp_of_value m' e' (mx * u) ex V) as G. unfold gexp in G.
  pose proof (bitlen_mul_le mx u) as Bm.
  assert (Hj : e' - ex <= d) by (unfold d; lia).
  assert (X : Zpos m' * 2 ^ d = Zpos mx * 2 ^ (d - (e' - ex)) * Zpos u).
  { destruct (Z.le_gt_cases e' ex) as [L|L].
    - pose proof (dyadic_eq_Z (Zpos m') e' (Zpos (mx * u)) ex V L) as H.
      rewrite H, Pos2Z.inj_mul.
      replace (d - (e' - ex)) with ((ex - e') + d) by lia.
      rewrite Z.pow_add_r by lia. ring.
    - assert (V' : (inject_Z (Zpos (mx * u)) * 2 ^ ex == inject_Z (Zpos m') * 2 ^ e')%Q)
        by (symmetry; exact V).
      pose proof (dyadic_eq_Z (Zpos (mx * u)) ex (Zpos m') e' V' ltac:(lia)) as H.
      rewrite Pos2Z.inj_mul in H.
      replace d with ((e' - ex) + (d - (e' - ex))) at 1 by lia.
      rewrite Z.pow_add_r by lia.
      transitivity (Zpos m' * 2 ^ (e' - ex) * 2 ^ (d - (e' - ex))); [ring|].
      rewrite <- H. ring. }
  rewrite Z.shiftl_mul_pow2 by exact Hd. rewrite X.
  rewrite Z.mod_mul, Z.div_mul by lia. change (negb (0 =? 0)) with false.
  apply setExpAndRound_same_value; [|exact B|exact R].
  rewrite Z2Pos.id by (apply Z.mul_pos_pos; [lia|apply Z.pow_pos_nonneg; lia]).
  rewrite inject_shift by lia.
  replace (e' - 0 - d + (d - (e' - ex))) with ex by lia. reflexivity.
Qed.

(** X11 (Multiply, Divided).  Dividing undoes multiplying whenever the
    product was exact: for a well-formed Amount that is not infinite and a
    factor other than zero, Multiply succeeds, and if its result has
    accuracy Exact then Divided by the same factor succeeds and returns an
    Amount Equal to the first. *)
Theorem Multiply_then_Divided p qty :
  Float_wf (amount p) = true -> is_inf (amount p) = false -> qty <> 0 ->
  exists m, Price_Multiply p qty = Done m /\
    (acc (amount m) = Exact ->
     exists r, Price_Divided m qty = Done r /\ Price_Equal r p = true).
Proof.
  intros W I Q. unfold Price_Multiply, Price_Divided.
  destruct (Z.eqb_spec qty 0) as [?|_]; [contradiction|].
  rewrite Float_SetInt64_new_form.
  destruct (Z.abs qty) as [|u|u] eqn:Eu; [lia| |lia].
  set (Y := {| prec := 64; acc := Exact; fform := finite u 0; neg := qty <? 0 |}).
  unfold is_inf in I. destruct (fform (amount p)) as [|mx ex|] eqn:F; [| |discriminate].
  - unfold Float_Mul. rewrite F. cbn [fform Y]. rewrite bind_Done.
    eexists. split; [reflexivity|]. intros _. cbn [amount currency].
    unfold Float_Quo. cbn [fform Y]. rewrite bind_Done.
    eexists. split; [reflexivity|]. apply Equal_of_zero; [reflexivity|exact F|reflexivity].
  - destruct (Float_wf_finite (amount p) mx ex W F) as [B R].
    unfold Float_Mul. rewrite F. cbn [fform Y neg].
    destruct (setExpAndRound (result_prec Float_new (amount p) Y)
                (xorb (neg (amount p)) (qty <? 0)) (mx * u) (ex + 0) false)
      as [f a] eqn:S.
    rewrite bind_Done. eexists. split; [reflexivity|]. cbn [amount currency acc].
    intros ->.
    destruct (setExpAndRound_exact _ _ _ _ _ _ S) as (m' & e' & -> & V).
    rewrite Z.add_0_r in V.
    unfold Float_Quo. cbn [fform Y neg].
    set (P := result_prec Float_new _ Y).
    assert (BP : bitlen mx <= P).
    { unfold P, Y. repeat (rewrite ?result_prec_new; cbn [prec]).
      pose proof (umax32_ge_l (umax32 (prec (amount p)) 64) 64).
      pose proof (umax32_ge_l (prec (amount p)) 64). lia. }
    destruct (uquo_of_product P
                (xorb (xorb (neg (amount p)) (qty <? 0)) (qty <? 0)) mx ex u m' e' V BP R)
      as (m2 & e2 & U & V2).
    rewrite U, bind_Done. eexists. split; [reflexivity|].
    apply (Equal_of_signed_value _ p mx ex m2 e2); cbn [amount currency fform neg];
      [reflexivity|exact F|reflexivity|exact V2|].
    destruct (neg (amount p)), (qty <? 0); reflexivity.
Qed.

Lemma Multiply_then_Divided_witness :
  exists m, Price_Multiply (sample_tiny "EUR") 3 = Done m /\
    (acc (amount m) = Exact ->
     exists r, Price_Divided m 3 = Done r /\ Price_Equal r (sample_tiny "EUR") = true).
Proof.
  apply (Multiply_then_Divided (sample_tiny "EUR") 3); [reflexivity|reflexivity|lia].
Defined.

Import ListNotations.
Local Open Scope Z_scope.

(** * Add, ForceAdd, SumAll *)

Lemma Float_Add_zero_r x y :
  fform y = zero ->
  exists s, Float_Add Float_new x y = Done s /\ fform s = fform x /\
            (fform x <> zero -> neg s = neg x).
Proof.
  intros Fy. unfold Float_Add. rewrite Fy.
  pose proof (Float_Set_copy (with_prec (result_prec Float_new x y) Float_new) x) as C.
  assert (H : prec (with_prec (result_prec Float_new x y) Float_new) = 0 \/
              prec x <= prec (with_prec (result_prec Float_new x y) Float_new)).
  { right. cbn [with_prec prec]. rewrite result_prec_new. apply umax32_ge_l. }
  destruct (C H) as (Ff & Nf & _ & _).
  destruct (fform x) eqn:Fx.
  - eexists. split; [reflexivity|]. split; [reflexivity|]. congruence.
  - eexists. split; [reflexivity|]. split; [rewrite Ff; reflexivity|]. intros _. exact Nf.
  - eexists. split; [reflexivity|]. split; [rewrite Ff; reflexivity|]. intros _. exact Nf.
Qed.

(** X12 (Add).  Adding an exact zero changes nothing: when the
    currencies are the same, or the receiver is not itself zero by IsZero,
    a.Add(b) with b of value zero succeeds and is Equal to a. *)
Theorem Add_zero_right a b :
  fform (amount b) = zero ->
  currency a = currency b \/ Price_IsZero a = Done false ->
  exists r, Price_Add a b = Done (r, None) /\ Price_Equal r a = true.
Proof.
  intros Fb H.
  destruct (Float_Add_zero_r (amount a) (amount b) Fb) as (s & Hs & Fs & Ns).
  assert (G : exists c, Price_currencyGuard a b = Done (Price_blank c, None) /\
                        c = currency a).
  { unfold Price_currencyGuard.
    destruct (String.eqb_spec (currency a) (currency b)) as [E|N].
    - exists (currency b). split; [reflexivity|congruence].
    - destruct H as [E|Z]; [contradiction|]. rewrite Z, bind_Done.
      rewrite (Price_IsZero_spec b), Fb, bind_Done. cbn [below_tolerance].
      exists (currency a). split; reflexivity. }
  destruct G as (c & G & ->). unfold Price_Add. rewrite G, bind_Done.
  cbn [Price_blank amount currency]. rewrite Hs, bind_Done.
  eexists. split; [reflexivity|].
  unfold Price_Equal. cbn [amount currency]. rewrite String.eqb_refl. cbn [negb].
  destruct (fform (amount a)) eqn:Fa.
  - rewrite Float_Cmp_zero_zero by assumption. reflexivity.
  - rewrite Float_Cmp_same; [reflexivity|congruence|apply Ns; congruence].
  - rewrite Float_Cmp_same; [reflexivity|congruence|apply Ns; congruence].
Qed.

Lemma Add_zero_right_witness :
  exists r, Price_Add (sample_int 5 "EUR") (NewZero "USD") = Done (r, None) /\
            Price_Equal r (sample_int 5 "EUR") = true.
Proof.
  apply (Add_zero_right (sample_int 5 "EUR") (NewZero "USD")); [reflexivity|].
  right. vm_compute. reflexivity.
Defined.

(** X13 (ForceAdd).  ForceAdd is Add without the error: it returns what
    Add returns when Add succeeds, and the receiver itself, untouched, when
    Add reports a currency mismatch; it panics exactly when Add does. *)
Theorem ForceAdd_follows_Add p add :
  Price_ForceAdd p add =
  (do r <- Price_Add p add;
   Done (match snd r with None => fst r | Some _ => p end)).
Proof.
  unfold Price_ForceAdd, Price_Add.
  destruct (Price_currencyGuard p add) as [[newPrice [err|]]|msg]; cbn [bind];
    try reflexivity.
  destruct (Float_Add (amount newPrice) (amount p) (amount add)); reflexivity.
Qed.

Lemma Float_Add_total z x y :
  is_inf y = false -> exists s, Float_Add z x y = Done s.
Proof.
  unfold is_inf, Float_Add. intros I.
  destruct (fform x), (fform y); try discriminate; eexists; reflexivity.
Qed.

Lemma Price_Add_same_currency p q :
  currency p = currency q -> is_inf (amount q) = false ->
  exists r, Price_Add p q = Done (r, None) /\ currency r = currency q.
Proof.
  intros E I. unfold Price_Add, Price_currencyGuard.
  rewrite E, String.eqb_refl, bind_Done. cbn [Price_blank amount currency].
  destruct (Float_Add_total Float_new (amount p) (amount q) I) as [s Hs].
  rewrite Hs, bind_Done. eexists. split; reflexivity.
Qed.

Lemma SumAll_loop_same_currency c ps : forall r,
  currency r = c ->
  Forall (fun q => currency q = c /\ is_inf (amount q) = false) ps ->
  exists s, SumAll_loop r ps = Done (s, None) /\ currency s = c.
Proof.
  induction ps as [|q ps IH]; intros r Hr H.
  - exists r. split; [reflexivity|exact Hr].
  - inversion H as [|? ? [Cq Iq] Hps]; subst.
    destruct (Price_Add_same_currency r q ltac:(congruence) Iq) as (s & Hs & Cs).
    cbn [SumAll_loop]. rewrite Hs, bind_Done. apply IH; [congruence|exact Hps].
Qed.

Lemma Clone_Equal p :
  prec (amount (Price_Clone p)) = prec (amount p) /\
  acc (amount (Price_Clone p)) = Exact /\ Price_Equal (Price_Clone p) p = true.
Proof.
  destruct (Float_Set_copy Float_new (amount p) (or_introl eq_refl)) as (F & N & A & P).
  unfold Price_Clone. cbn [amount currency].
  split; [exact P|]. split; [exact A|].
  unfold Price_Equal. cbn [amount currency]. rewrite String.eqb_refl. cbn [negb].
  rewrite Float_Cmp_same by assumption. reflexivity.
Qed.

(** X14 (SumAll, Clone).  Without prices SumAll returns the error "no
    price given"; the sum of a single price is its clone, Equal to it, with
    the accuracy reset to Exact; and over prices of one currency, none of
    them infinite, SumAll neither fails nor panics and the sum carries that
    currency. *)
Theorem SumAll_of_one_currency c ps :
  SumAll [] = Done (NewZero "", Some err_no_price) /\
  (forall p, SumAll [p] = Done (Price_Clone p, None) /\
             acc (amount (Price_Clone p)) = Exact /\
             Price_Equal (Price_Clone p) p = true) /\
  (ps <> [] ->
   Forall (fun q => currency q = c /\ is_inf (amount q) = false) ps ->
   exists s, SumAll ps = Done (s, None) /\ currency s = c).
Proof.
  split; [reflexivity|]. split.
  - intros p. split; [reflexivity|]. apply Clone_Equal.
  - intros N H.
    destruct ps as [|p ps]; [congruence|].
    inversion H as [|? ? [Cp Ip] Hps]; subst. cbn [SumAll].
    apply SumAll_loop_same_currency; [reflexivity|exact Hps].
Qed.

Lemma SumAll_of_one_currency_witness :
  exists s, SumAll [sample_int 1 "EUR"; sample_tiny "EUR"; sample_int (-4) "EUR"]
            = Done (s, None) /\ currency s = "EUR"%string.
Proof.
  apply (proj2 (proj2 (SumAll_of_one_currency "EUR"
                  [sample_int 1 "EUR"; sample_tiny "EUR"; sample_int (-4) "EUR"]))).
  - discriminate.
  - repeat constructor.
Defined.

(** * LikelyEqual *)

Lemma LikelyEqual_of_diff a b d :
  currency a = currency b ->
  Float_Sub Float_new (amount a) (amount b) = Done d ->
  Price_LikelyEqual a b = Done (below_tolerance (fform d)).
Proof.
  intros C S. unfold Price_LikelyEqual. rewrite C, String.eqb_refl. cbn [negb].
  rewrite S, bind_Done, tolerance_eq, bind_Done.
  destruct (Float_Abs_new d) as [F N].
  rewrite Float_Cmp_tolerance by exact N. rewrite F. reflexivity.
Qed.

Lemma value_zero_form x :
  fform x = zero -> (Float_value x == 0)%Q.
Proof.
  intros F. unfold Float_value. rewrite F. cbn [form_value].
  destruct (neg x); reflexivity.
Qed.

Lemma finite_not_zero_value x y m e :
  fform x = zero -> fform y = finite m e -> ~ (Float_value x == Float_value y)%Q.
Proof.
  intros Fx Fy V.
  assert (A : (Qabs (Float_value x) == Qabs (Float_value y))%Q) by (rewrite V; reflexivity).
  rewrite (Qabs_value y m e Fy), (value_zero_form x Fx) in A.
  pose proof (finite_value_pos m e) as H. rewrite <- A in H.
  apply Qlt_irrefl in H. exact H.
Qed.

Lemma Float_Sub_equal_values x y :
  is_inf x = false -> is_inf y = false ->
  (Float_value x == Float_value y)%Q ->
  exists d, Float_Sub Float_new x y = Done d /\ fform d = zero.
Proof.
  unfold is_inf. intros Ix Iy V.
  destruct (fform x) as [|mx ex|] eqn:Fx; [| |discriminate];
    (destruct (fform y) as [|my ey|] eqn:Fy; [| |discriminate]).
  - unfold Float_Sub. rewrite Fx, Fy. eexists. split; reflexivity.
  - exfalso. exact (finite_not_zero_value x y my ey Fx Fy V).
  - exfalso. apply (finite_not_zero_value y x mx ex Fy Fx). symmetry. exact V.
  - rewrite (Float_Sub_finite Float_new x y mx ex my ey Fx Fy).
    assert (S0 : signed_sum (neg x) mx ex (negb (neg y)) my ey = 0).
    { pose proof (signed_sum_value (neg x) mx ex (negb (neg y)) my ey) as SV.
      rewrite signedQ_negb in SV.
      rewrite <- (signedQ_value x mx ex Fx), <- (signedQ_value y my ey Fy), V in SV.
      assert (Z0 : (inject_Z (signed_sum (neg x) mx ex (negb (neg y)) my ey) *
                    2 ^ Z.min ex ey == 0)%Q) by (rewrite SV; ring).
      apply Qmult_integral in Z0. destruct Z0 as [Z0|Z0].
      - unfold Qeq in Z0. cbn in Z0. lia.
      - pose proof (P2_pos (Z.min ex ey)) as H. rewrite Z0 in H.
        apply Qlt_irrefl in H. contradiction. }
    rewrite S0. eexists. split; reflexivity.
Qed.

(** X15 (LikelyEqual).  The tolerant comparison contains the exact one:
    two Amounts that are not infinite and are Equal are LikelyEqual. *)
Theorem Equal_implies_LikelyEqual a b :
  is_inf (amount a) = false -> is_inf (amount b) = false ->
  Price_Equal a b = true -> Price_LikelyEqual a b = Done true.
Proof.
  intros Ia Ib E.
  apply (Price_Equal_spec a b Ia Ib) in E as [C V].
  destruct (Float_Sub_equal_values (amount a) (amount b) Ia Ib V) as (d & S & F).
  rewrite (LikelyEqual_of_diff a b d C S), F. reflexivity.
Qed.

Lemma Equal_implies_LikelyEqual_witness :
  Price_LikelyEqual (sample_int 2 "EUR")
    {| amount := {| prec := 53; acc := Below; fform := finite 4 (-1); neg := false |};
       currency := "EUR" |} = Done true.
Proof.
  apply (Equal_implies_LikelyEqual (sample_int 2 "EUR")
           {| amount := {| prec := 53; acc := Below; fform := finite 4 (-1); neg := false |};
              currency := "EUR" |}); reflexivity.
Defined.

(** X16 (LikelyEqual).  On infinities the tolerant comparison breaks
    down: for two Amounts of one currency that are the same infinity Equal
    answers true, but LikelyEqual panics (the difference Inf - Inf is not a
    number). *)
Theorem LikelyEqual_panics_on_equal_infinities a b :
  currency a = currency b ->
  is_inf (amount a) = true -> is_inf (amount b) = true ->
  neg (amount a) = neg (amount b) ->
  Price_Equal a b = true /\ exists msg, Price_LikelyEqual a b = Panic msg.
Proof.
  unfold is_inf. intros C Ia Ib N.
  destruct (fform (amount a)) eqn:Fa; try discriminate.
  destruct (fform (amount b)) eqn:Fb; try discriminate.
  split.
  - unfold Price_Equal. rewrite C, String.eqb_refl. cbn [negb].
    rewrite Float_Cmp_same by congruence. reflexivity.
  - unfold Price_LikelyEqual. rewrite C, String.eqb_refl. cbn [negb].
    unfold Float_Sub. rewrite Fa, Fb, N, Bool.eqb_reflx. eexists. reflexivity.
Qed.

Lemma LikelyEqual_panics_on_equal_infinities_witness :
  Price_Equal
    {| amount := {| prec := 53; acc := Exact; fform := inf; neg := false |}; currency := "EUR" |}
    {| amount := {| prec := 53; acc := Exact; fform := inf; neg := false |}; currency := "EUR" |}
    = true /\
  exists msg,
    Price_LikelyEqual
      {| amount := {| prec := 53; acc := Exact; fform := inf; neg := false |}; currency := "EUR" |}
      {| amount := {| prec := 53; acc := Exact; fform := inf; neg := false |}; currency := "EUR" |}
    = Panic msg.
Proof.
  apply (LikelyEqual_panics_on_equal_infinities
           {| amount := {| prec := 53; acc := Exact; fform := inf; neg := false |};
              currency := "EUR" |}
           {| amount := {| prec := 53; acc := Exact; fform := inf; neg := false |};
              currency := "EUR" |}); reflexivity.
Defined.

Import ListNotations.
Local Open Scope Z_scope.

(** * NewFromInt *)

(** X17 (NewFromInt).  NewFromInt is exact when the precision divides the
    amount: for an int64 numerator [k * d] and a precision [d] other than
    zero the result has accuracy Exact and its value is the integer [k];
    a precision of zero gives the zero Amount instead of a division. *)
Theorem NewFromInt_exact_division k d cur :
  NewFromInt k 0 cur = Done (NewZero cur) /\
  (d <> 0 -> in_int64 (k * d) = true ->
   exists r, NewFromInt (k * d) d cur = Done r /\ currency r = cur /\
     is_inf (amount r) = false /\ acc (amount r) = Exact /\
     (Float_value (amount r) == inject_Z k)%Q).
Proof.
  split; [reflexivity|]. intros D R. unfold NewFromInt.
  destruct (Z.eqb_spec d 0) as [?|_]; [contradiction|].
  rewrite !Float_SetInt64_new_form.
  destruct (Z.abs d) as [|u|u] eqn:Eu; [lia| |lia].
  destruct (Z.eq_dec k 0) as [->|K].
  - rewrite Z.mul_0_l. change (Z.abs 0) with 0. cbv iota.
    unfold Float_Quo. cbn [fform]. rewrite bind_Done.
    eexists. split; [reflexivity|]. cbn [amount currency acc fform neg].
    split; [reflexivity|]. split; [reflexivity|]. split; [reflexivity|].
    unfold Float_value. cbn [fform neg form_value]. destruct (xorb _ _); reflexivity.
  - destruct (Z.abs (k * d)) as [|m'|m'] eqn:Em; [lia| |lia].
    unfold Float_Quo. cbn [fform neg].
    rewrite result_prec_new. cbn [prec]. change (umax32 64 64) with 64.
    assert (Hk : Zpos m' = Zpos (Z.to_pos (Z.abs k) * u)).
    { rewrite Pos2Z.inj_mul, Z2Pos.id by lia. rewrite <- Em, <- Eu. apply Z.abs_mul. }
    assert (Bk : bitlen (Z.to_pos (Z.abs k)) <= 64).
    { apply bitlen_le_of_lt; [lia|]. rewrite Z2Pos.id by lia.
      unfold in_int64, MinInt64, MaxInt64 in R. apply andb_true_iff in R as [R1 R2].
      apply Z.leb_le in R1, R2.
      assert (Z.abs k <= Z.abs (k * d)) by (rewrite Z.abs_mul; nia).
      lia. }
    pose proof (bitlen_pos (Z.to_pos (Z.abs k))) as Bk1.
    destruct (uquo_of_product 64 (xorb (k * d <? 0) (d <? 0)) (Z.to_pos (Z.abs k)) 0 u m' 0)
      as (m2 & e2 & U & V).
    + injection Hk as ->. reflexivity.
    + exact Bk.
    + unfold gexp, MinExp, MaxExp. lia.
    + rewrite U, bind_Done. eexists. split; [reflexivity|].
      cbn [amount currency acc fform neg].
      split; [reflexivity|]. split; [reflexivity|]. split; [reflexivity|].
      unfold Float_value. cbn [fform neg form_value].
      rewrite Z2Pos.id, Qpower_2_0 in V by lia.
      assert (S : xorb (k * d <? 0) (d <? 0) = (k <? 0)).
      { destruct (Z.ltb_spec (k * d) 0), (Z.ltb_spec d 0), (Z.ltb_spec k 0);
          try reflexivity; nia. }
      rewrite S. destruct (Z.ltb_spec k 0).
      * rewrite V, Z.abs_neq by lia. rewrite inject_Z_opp. ring.
      * rewrite V, Z.abs_eq by lia. reflexivity.
Qed.

Lemma NewFromInt_exact_division_witness :
  NewFromInt (-7) 0 "EUR" = Done (NewZero "EUR") /\
  exists r, NewFromInt (-7 * 100) 100 "EUR" = Done r /\ currency r = "EUR"%string /\
    is_inf (amount r) = false /\ acc (amount r) = Exact /\
    (Float_value (amount r) == inject_Z (-7))%Q.
Proof.
  split.
  - apply (proj1 (NewFromInt_exact_division (-7) 100 "EUR")).
  - apply (proj2 (NewFromInt_exact_division (-7) 100 "EUR")); [lia|reflexivity].
Defined.

(** * GetPayableByRoundingMode *)

Lemma valueAfterPrecision_of_zero s negative :
  negative = 1 \/ negative = -1 ->
  exists s', valueAfterPrecision_of (S754_zero s) negative = S754_zero s'.
Proof. intros [->| ->]; destruct s; eexists; vm_compute; reflexivity. Qed.

Lemma mode_increments_zero mode negative s :
  mode_increments mode negative (S754_zero s) = false.
Proof.
  unfold mode_increments.
  assert (G : f64_gt (S754_zero s) (f64_of_Z 0) = false) by (destruct s; reflexivity).
  assert (G5 : f64_gt (S754_zero s) (f64_of_Z 5) = false) by (destruct s; reflexivity).
  assert (E5 : f64_ge (S754_zero s) (f64_of_Z 5) = false) by (destruct s; reflexivity).
  rewrite G, G5, E5, !andb_false_r.
  repeat match goal with |- context [String.eqb ?a ?b] => destruct (String.eqb a b) end;
    reflexivity.
Qed.

Section PrecisionFacts.

Variable cvt_overflow : float64 -> Z.

(** X18 (GetPayableByRoundingMode).  A precision of zero is never
    accepted: whatever the amount and the mode, the call panics (on an
    infinite amount when scaling it by zero, otherwise on the final
    division of zero by zero). *)
Theorem GetPayableByRoundingMode_precision_zero_panics p mode :
  exists msg, Price_GetPayableByRoundingMode cvt_overflow p mode 0 = Panic msg.
Proof.
  destruct (fform (amount p)) as [|m e|] eqn:F.
  3:{ unfold Price_GetPayableByRoundingMode. rewrite Price_IsNegative_Done, bind_Done.
      unfold Float_Copy, Price_precisionF, Float_Mul. rewrite F.
      change (fform (Float_SetInt64 Float_new 0)) with zero. eexists. reflexivity. }
  all: assert (M : exists sc, Float_Mul Float_new (amount p) (Float_SetInt64 Float_new 0)
                      = Done sc /\ exists s, Float_Float64 sc = S754_zero s)
         by (unfold Float_Mul; rewrite F;
             change (fform (Float_SetInt64 Float_new 0)) with zero;
             eexists; split; [reflexivity|]; eexists; reflexivity).
  all: destruct M as (sc & M & s & Z).
  all: rewrite (GetPayableByRoundingMode_unfold cvt_overflow p mode 0 sc M).
  all: try (rewrite Z; destruct s; reflexivity).
  all: try (rewrite Z; cbn [math_Modf snd];
            match goal with
            | |- mode_increments _ ?n (valueAfterPrecision_of _ _) = false =>
                destruct (valueAfterPrecision_of_zero s n) as [s' ->];
                [destruct (Float_Cmp _ _ =? -1); auto|apply mode_increments_zero]
            end).
  all: rewrite Z; cbn [math_Modf fst];
       replace (int64_of_f64 cvt_overflow (S754_zero s)) with 0 by reflexivity;
       eexists; reflexivity.
Qed.

End PrecisionFacts.

(** * float64 in and out *)

Lemma binary_round_canonical s m e :
  bounded 53 1024 m e = true -> binary_round 53 1024 s m e = S754_finite s m e.
Proof.
  unfold bounded, canonical_mantissa. intros H. apply andb_true_iff in H as [C B].
  apply Z.eqb_eq in C.
  unfold binary_round, shl_align. rewrite C, Z.sub_diag.
  unfold binary_round_aux, shr_fexp. cbn [Zdigits2 shr_record_of_loc].
  rewrite C, Z.sub_diag. cbn [shr shr_m loc_of_shr_record round_nearest_even Zdigits2].
  rewrite C, Z.sub_diag. cbn [shr shr_m]. rewrite B. reflexivity.
Qed.

(** X19 (NewFromFloat, FloatAmount, NewMutablePrice).  A float64 goes in
    and comes out unchanged: for every float64 value other than NaN (a
    valid binary64 datum), the Amount NewFromFloat builds holds it at
    precision 53 and FloatAmount, hence the Amount field of
    NewMutablePrice, gives back the very same float64; NaN panics. *)
Theorem NewFromFloat_FloatAmount f cur :
  valid_binary 53 1024 f = true ->
  match f with
  | S754_nan => exists msg, NewFromFloat f cur = Panic msg
  | _ => exists p, NewFromFloat f cur = Done p /\
           prec (amount p) = 53 /\
           Price_FloatAmount p = f /\
           mpAmount (NewMutablePrice p) = f /\ mpCurrency (NewMutablePrice p) = cur
  end.
Proof.
  intros V. destruct f as [s|s| |s m e]; cbn [NewFromFloat big_NewFloat bind].
  - eexists. repeat split.
  - eexists. repeat split.
  - eexists. reflexivity.
  - eexists. split; [reflexivity|]. cbn [amount prec]. split; [reflexivity|].
    assert (E : Price_FloatAmount
                  {| amount := {| prec := 53; acc := Exact; fform := finite m e; neg := s |};
                     currency := cur |} = S754_finite s m e).
    { unfold Price_FloatAmount, Float_Float64. cbn [amount fform neg].
      apply binary_round_canonical. exact V. }
    split; [exact E|]. split; [exact E|reflexivity].
Qed.

Lemma NewFromFloat_FloatAmount_witness :
  exists p, NewFromFloat (S754_finite true 4503599627370496 (-53)) "EUR" = Done p /\
    prec (amount p) = 53 /\
    Price_FloatAmount p = S754_finite true 4503599627370496 (-53) /\
    mpAmount (NewMutablePrice p) = S754_finite true 4503599627370496 (-53) /\
    mpCurrency (NewMutablePrice p) = "EUR"%string.
Proof.
  apply (NewFromFloat_FloatAmount (S754_finite true 4503599627370496 (-53)) "EUR").
  reflexivity.
Defined.

Import ListNotations.
Local Open Scope Z_scope.

(** * Whole numbers through float64 *)

Lemma digits2_pos_bitlen m : Zpos (digits2_pos m) = bitlen m.
Proof.
  unfold bitlen. induction m as [p IH|p IH|]; cbn [digits2_pos].
  - rewrite Pos2Z.inj_succ, IH.
    change (Zpos p~1) with (2 * Zpos p + 1). rewrite Z.log2_succ_double by lia. lia.
  - rewrite Pos2Z.inj_succ, IH.
    change (Zpos p~0) with (2 * Zpos p). rewrite Z.log2_double by lia. lia.
  - reflexivity.
Qed.

Lemma iter_xO m d : Zpos (Pos.iter xO m d) = Zpos m * 2 ^ Zpos d.
Proof.
  induction d as [|d IH] using Pos.peano_ind.
  - cbn. lia.
  - rewrite Pos.iter_succ, Pos2Z.inj_succ, Z.pow_succ_r by lia.
    change (Zpos (Pos.iter xO m d)~0) with (2 * Zpos (Pos.iter xO m d)).
    rewrite IH. ring.
Qed.

Lemma iter_shr_1 n : forall M,
  iter_pos shr_1 n {| shr_m := Zpos M * 2 ^ Zpos n; shr_r := false; shr_s := false |} =
  {| shr_m := Zpos M; shr_r := false; shr_s := false |}.
Proof.
  assert (D : forall M k, Zpos M * 2 ^ Zpos k~0 =
                          Zpos (Z.to_pos (Zpos M * 2 ^ Zpos k)) * 2 ^ Zpos k).
  { intros M k. rewrite Z2Pos.id by (apply Z.mul_pos_pos; [lia|apply Z.pow_pos_nonneg; lia]).
    change (Zpos k~0) with (2 * Zpos k). replace (2 * Zpos k) with (Zpos k + Zpos k) by lia.
    rewrite Z.pow_add_r by lia. ring. }
  induction n as [n IH|n IH|]; intros M; cbn [iter_pos].
  - replace (Zpos M * 2 ^ Zpos n~1) with (Zpos (Z.to_pos (Zpos M * 2 ^ Zpos n~0))~0).
    + cbn [shr_1 orb].
      rewrite Z2Pos.id by (apply Z.mul_pos_pos; [lia|apply Z.pow_pos_nonneg; lia]).
      rewrite D, IH.
      rewrite Z2Pos.id by (apply Z.mul_pos_pos; [lia|apply Z.pow_pos_nonneg; lia]).
      apply IH.
    + change (Zpos (Z.to_pos (Zpos M * 2 ^ Zpos n~0))~0)
        with (2 * Zpos (Z.to_pos (Zpos M * 2 ^ Zpos n~0))).
      rewrite Z2Pos.id by (apply Z.mul_pos_pos; [lia|apply Z.pow_pos_nonneg; lia]).
      replace (Zpos n~1) with (Z.succ (Zpos n~0)) by lia.
      rewrite Z.pow_succ_r by lia. ring.
  - rewrite D, IH.
    rewrite Z2Pos.id by (apply Z.mul_pos_pos; [lia|apply Z.pow_pos_nonneg; lia]).
    apply IH.
  - change (Zpos M * 2 ^ 1) with (Zpos M * 2). rewrite Z.mul_comm. reflexivity.
Qed.

Lemma bounded_53 M t :
  bitlen M = 53 -> -1074 <= t <= 971 -> bounded 53 1024 M t = true.
Proof.
  intros B T. unfold bounded, canonical_mantissa, fexp, emin.
  rewrite digits2_pos_bitlen, B. apply andb_true_iff.
  split; [apply Z.eqb_eq|apply Z.leb_le]; lia.
Qed.

Lemma shr_fexp_canonical M t :
  bitlen M = 53 -> -1074 <= t <= 971 ->
  shr_fexp 53 1024 (Zpos M) t loc_Exact =
  ({| shr_m := Zpos M; shr_r := false; shr_s := false |}, t).
Proof.
  intros B T. unfold shr_fexp, fexp, emin. cbn [Zdigits2 shr_record_of_loc].
  rewrite digits2_pos_bitlen, B.
  replace (Z.max (53 + t - 53) (3 - 1024 - 53) - t) with 0 by lia. reflexivity.
Qed.

Lemma binary_round_aux_canonical s M t :
  bitlen M = 53 -> -1074 <= t <= 971 ->
  binary_round_aux 53 1024 s (Zpos M) t loc_Exact = S754_finite s M t.
Proof.
  intros B T. unfold binary_round_aux. rewrite (shr_fexp_canonical M t B T).
  cbn [shr_m loc_of_shr_record round_nearest_even].
  rewrite (shr_fexp_canonical M t B T). cbn [shr_m].
  destruct (Z.leb_spec t (1024 - 53)) as [_|?]; [reflexivity|lia].
Qed.

(** The binary64 datum of a whole number below 2^53: 53 mantissa bits. *)
Lemma f64_round_whole s m e n :
  (inject_Z (Zpos m) * 2 ^ e == inject_Z (Zpos n))%Q -> Zpos n < 2 ^ 53 ->
  f64_round s m e =
  S754_finite s (Z.to_pos (Zpos n * 2 ^ (53 - bitlen n))) (bitlen n - 53).
Proof.
  intros V L.
  assert (Bn : 1 <= bitlen n <= 53)
    by (split; [apply bitlen_pos|apply bitlen_le_of_lt; lia]).
  assert (V0 : (inject_Z (Zpos m) * 2 ^ e == inject_Z (Zpos n) * 2 ^ 0)%Q)
    by (rewrite Qpower_2_0; exact V).
  pose proof (gexp_of_value m e n 0 V0) as G. unfold gexp in G.
  set (t := bitlen n - 53) in *.
  set (M := Z.to_pos (Zpos n * 2 ^ (53 - bitlen n))).
  assert (HM : Zpos M = Zpos n * 2 ^ (- t)).
  { unfold M, t. rewrite Z2Pos.id by (apply Z.mul_pos_pos; [lia|apply Z.pow_pos_nonneg; lia]).
    f_equal. f_equal. lia. }
  assert (BM : bitlen M = 53).
  { unfold M. rewrite bitlen_mul_pow2 by lia. lia. }
  assert (T : -1074 <= t <= 971) by (unfold t; lia).
  assert (Up : 0 <= e - t -> Zpos m * 2 ^ (e - t) = Zpos M).
  { intros H. rewrite HM. replace (- t) with (0 - t) by lia.
    apply dyadic_eq_Z; [|lia].
    rewrite inject_shift by lia. replace (t + (e - t)) with e by lia. exact V0. }
  assert (Down : 0 <= t - e -> Zpos m = Zpos M * 2 ^ (t - e)).
  { intros H. rewrite HM, <- Z.mul_assoc, <- Z.pow_add_r by lia.
    replace (- t + (t - e)) with (0 - e) by lia.
    apply dyadic_eq_Z; [exact V0|lia]. }
  unfold f64_round, f64_prec, f64_emax, binary_round.
  rewrite digits2_pos_bitlen.
  assert (FE : fexp 53 1024 (bitlen m + e) = t) by (unfold fexp, emin, t; lia).
  rewrite FE. unfold shl_align.
  destruct (t - e) as [|d|d] eqn:Ed.
  - assert (m = M) by (apply Pos2Z.inj; rewrite <- Up by lia; replace (e - t) with 0 by lia; lia).
    subst m. replace e with t by lia. apply binary_round_aux_canonical; assumption.
  - (* more than 53 bits: the low ones are zero *)
    unfold binary_round_aux at 1.
    assert (S1 : shr_fexp 53 1024 (Zpos m) e loc_Exact =
                 ({| shr_m := Zpos M; shr_r := false; shr_s := false |}, t)).
    { unfold shr_fexp. cbn [Zdigits2 shr_record_of_loc].
      rewrite digits2_pos_bitlen, FE, Ed. cbn [shr].
      rewrite (Down ltac:(lia)), iter_shr_1. f_equal. lia. }
    rewrite S1. cbn [shr_m loc_of_shr_record round_nearest_even].
    rewrite (shr_fexp_canonical M t BM T). cbn [shr_m].
    destruct (Z.leb_spec t (1024 - 53)) as [_|?]; [reflexivity|lia].
  - assert (Pos.iter xO m d = M).
    { apply Pos2Z.inj. rewrite iter_xO, <- Up by lia. f_equal. f_equal. lia. }
    rewrite H. apply binary_round_aux_canonical; assumption.
Qed.

Lemma whole_value_form x m e K :
  fform x = finite m e -> (Float_value x == inject_Z K)%Q ->
  (inject_Z (Zpos m) * 2 ^ e == inject_Z (Z.abs K))%Q /\ neg x = (K <? 0) /\ 0 < Z.abs K.
Proof.
  intros F V. pose proof (finite_value_pos m e) as Hpos.
  unfold Float_value in V. rewrite F in V. cbn [form_value] in V.
  destruct (neg x).
  - assert (Hk : (inject_Z K < 0)%Q) by (rewrite <- V; exact (Qopp_lt_compat 0 _ Hpos)).
    change 0%Q with (inject_Z 0) in Hk. rewrite <- Zlt_Qlt in Hk.
    rewrite Z.abs_neq by lia. rewrite inject_Z_opp, <- V.
    split; [ring|]. split; [symmetry; apply Z.ltb_lt; lia|lia].
  - assert (Hk : (0 < inject_Z K)%Q) by (rewrite <- V; exact Hpos).
    change 0%Q with (inject_Z 0) in Hk. rewrite <- Zlt_Qlt in Hk.
    rewrite Z.abs_eq by lia.
    split; [exact V|]. split; [symmetry; apply Z.ltb_ge; lia|lia].
Qed.

Lemma Modf_whole s n :
  Zpos n < 2 ^ 53 ->
  let f := S754_finite s (Z.to_pos (Zpos n * 2 ^ (53 - bitlen n))) (bitlen n - 53) in
  snd (math_Modf f) = S754_zero s /\
  f64_trunc f = Some (if s then - Zpos n else Zpos n) /\
  f64_ge f (f64_of_Z MaxInt64) = false.
Proof.
  intros L f.
  assert (Bn : 1 <= bitlen n <= 53)
    by (split; [apply bitlen_pos|apply bitlen_le_of_lt; lia]).
  assert (HM : Zpos (Z.to_pos (Zpos n * 2 ^ (53 - bitlen n))) = Zpos n * 2 ^ (53 - bitlen n))
    by (apply Z2Pos.id; apply Z.mul_pos_pos; [lia|apply Z.pow_pos_nonneg; lia]).
  unfold f. split; [|split].
  - unfold math_Modf. destruct (Z.leb_spec 0 (bitlen n - 53)) as [_|T]; [reflexivity|].
    cbn [snd]. rewrite HM, Z.land_ones by lia.
    replace (- (bitlen n - 53)) with (53 - bitlen n) by lia.
    rewrite Z.mod_mul by (apply Z.pow_nonzero; lia). reflexivity.
  - unfold f64_trunc. rewrite HM. destruct (Z.leb_spec 0 (bitlen n - 53)) as [T|T].
    + replace (53 - bitlen n) with 0 by lia. replace (bitlen n - 53) with 0 by lia.
      rewrite Z.shiftl_0_r, Z.pow_0_r, Z.mul_1_r. reflexivity.
    + rewrite Z.shiftr_div_pow2 by lia.
      replace (- (bitlen n - 53)) with (53 - bitlen n) by lia.
      rewrite Z.div_mul by (apply Z.pow_nonzero; lia). reflexivity.
  - replace (f64_of_Z MaxInt64) with (S754_finite false 4503599627370496 11)
      by (vm_compute; reflexivity).
    unfold f64_ge, SFleb, SFcompare. destruct s; [reflexivity|].
    destruct (Z.compare_spec 11 (bitlen n - 53)); first [reflexivity|lia].
Qed.

Section WholeAmounts.

Variable cvt_overflow : float64 -> Z.
Variable unicode_ToLower : string -> string.

Lemma whole_amount_rounding p K mode precision :
  is_inf (amount p) = false ->
  (Float_value (amount p) == inject_Z K)%Q ->
  0 < precision -> Z.abs K * precision < 2 ^ 53 ->
  exists r, Price_GetPayableByRoundingMode cvt_overflow p mode precision = Done r /\
            Price_Equal r p = true.
Proof.
  intros I V Pp B.
  pose proof (Float_SetInt64_new_form precision) as SP.
  destruct (Z.abs precision) as [|u|u] eqn:Eu; [lia| |lia].
  assert (Hu : Zpos u = precision) by lia.
  destruct (Z.ltb_spec precision 0) as [?|_]; [lia|].
  unfold is_inf in I. destruct (fform (amount p)) as [|m e|] eqn:F; [| |discriminate].
  - (* zero *)
    assert (M : exists sc, Float_Mul Float_new (amount p) (Float_SetInt64 Float_new precision)
                  = Done sc /\ exists s, Float_Float64 sc = S754_zero s).
    { unfold Float_Mul. rewrite F, SP. cbn [fform].
      eexists. split; [reflexivity|]. eexists. reflexivity. }
    destruct M as (sc & M & s & Z).
    rewrite (GetPayableByRoundingMode_unfold cvt_overflow p mode precision sc M).
    + rewrite Z. cbn [math_Modf fst].
      replace (int64_of_f64 cvt_overflow (S754_zero s)) with 0 by reflexivity.
      rewrite SP. unfold Float_Quo. cbn [fform Float_SetInt64 Float_new prec Z.abs].
      change (fform (Float_SetInt64 Float_new 0)) with zero. cbv iota.
      rewrite bind_Done. eexists. split; [reflexivity|].
      apply Equal_of_zero; [reflexivity|exact F|reflexivity].
    + rewrite Z. destruct s; reflexivity.
    + rewrite Z. cbn [math_Modf snd].
      match goal with
      | |- mode_increments _ ?n (valueAfterPrecision_of _ _) = false =>
          destruct (valueAfterPrecision_of_zero s n) as [s' ->];
          [destruct (Float_Cmp _ _ =? -1); auto|apply mode_increments_zero]
      end.
  - (* finite *)
    destruct (whole_value_form (amount p) m e K F V) as (VK & Nx & K0).
    set (n := Z.to_pos (Z.abs K)).
    assert (Hn : Zpos n = Z.abs K) by (unfold n; apply Z2Pos.id; exact K0).
    rewrite <- Hn in VK.
    assert (Ln : Zpos (n * u) < 2 ^ 53) by (rewrite Pos2Z.inj_mul, Hn, Hu; exact B).
    assert (Bnu : bitlen (n * u) <= 53) by (apply bitlen_le_of_lt; lia).
    pose proof (bitlen_pos (n * u)) as Bnu1.
    set (s := neg (amount p)) in *.
    (* the scaled amount is the whole number n * u *)
    assert (VP : (inject_Z (Zpos (m * u)) * 2 ^ (e + 0) ==
                  inject_Z (Zpos (n * u)) * 2 ^ 0)%Q).
    { rewrite Z.add_0_r, Qpower_2_0, !Pos2Z.inj_mul, !inject_Z_mult.
      transitivity (inject_Z (Zpos m) * 2 ^ e * inject_Z (Zpos u))%Q; [ring|].
      rewrite VK. reflexivity. }
    destruct (setExpAndRound_same_value
                (result_prec Float_new (amount p)
                   {| prec := 64; acc := Exact; fform := finite u 0; neg := false |})
                (xorb s false) (m * u) (e + 0) (n * u) 0 VP) as (m' & e' & S & V').
    { rewrite result_prec_new. cbn [prec].
      pose proof (umax32_ge_r (prec (amount p)) 64). lia. }
    { unfold gexp, MinExp, MaxExp. lia. }
    rewrite Qpower_2_0 in V'.
    assert (M : Float_Mul Float_new (amount p) (Float_SetInt64 Float_new precision) =
                Done {| prec := result_prec Float_new (amount p)
                                  {| prec := 64; acc := Exact; fform := finite u 0;
                                     neg := false |};
                        acc := Exact; fform := finite m' e'; neg := xorb s false |}).
    { rewrite SP. unfold Float_Mul. rewrite F. cbn [fform neg]. fold s. rewrite S.
      reflexivity. }
    assert (F64 : Float_Float64
                    {| prec := result_prec Float_new (amount p)
                                 {| prec := 64; acc := Exact; fform := finite u 0;
                                    neg := false |};
                       acc := Exact; fform := finite m' e'; neg := xorb s false |} =
                  S754_finite s (Z.to_pos (Zpos (n * u) * 2 ^ (53 - bitlen (n * u))))
                              (bitlen (n * u) - 53)).
    { unfold Float_Float64. cbn [fform neg]. rewrite xorb_false_r.
      apply f64_round_whole; assumption. }
    destruct (Modf_whole s (n * u) Ln) as (Msnd & Mtr & Mge).
    rewrite (GetPayableByRoundingMode_unfold cvt_overflow p mode precision _ M).
    + rewrite F64.
      assert (R : in_int64 (if s then - Zpos (n * u) else Zpos (n * u)) = true).
      { unfold in_int64, MinInt64, MaxInt64. apply andb_true_iff.
        destruct s; split; apply Z.leb_le; lia. }
      rewrite (int64_of_Modf cvt_overflow _ _ Mtr R).
      rewrite SP, Float_SetInt64_new_form.
      replace (Z.abs (if s then - Zpos (n * u) else Zpos (n * u))) with (Zpos (n * u))
        by (destruct s; reflexivity).
      replace ((if s then - Zpos (n * u) else Zpos (n * u)) <? 0) with s
        by (destruct s; reflexivity).
      unfold Float_Quo. cbn [fform neg].
      destruct (uquo_of_product
                  (result_prec Float_new
                     {| prec := 64; acc := Exact; fform := finite (n * u) 0; neg := s |}
                     {| prec := 64; acc := Exact; fform := finite u 0; neg := false |})
                  (xorb s false) n 0 u (n * u) 0) as (m2 & e2 & U & V2).
      * reflexivity.
      * rewrite result_prec_new. cbn [prec]. change (umax32 64 64) with 64.
        pose proof (bitlen_pos n).
        assert (bitlen n <= 53); [|lia].
        apply bitlen_le_of_lt; [lia|]. rewrite Hn. nia.
      * unfold gexp, MinExp, MaxExp. pose proof (bitlen_pos n).
        assert (bitlen n <= 53); [|lia].
        apply bitlen_le_of_lt; [lia|]. rewrite Hn. nia.
      * rewrite U, bind_Done. eexists. split; [reflexivity|].
        apply (Equal_of_signed_value _ p m e m2 e2); cbn [amount currency fform neg];
          [reflexivity|exact F|reflexivity| |apply xorb_false_r].
        rewrite V2, Qpower_2_0, VK. reflexivity.
    + rewrite F64. exact Mge.
    + rewrite F64, Msnd.
      match goal with
      | |- mode_increments _ ?nn (valueAfterPrecision_of _ _) = false =>
          destruct (valueAfterPrecision_of_zero s nn) as [s' ->];
          [destruct (Float_Cmp _ _ =? -1); auto|apply mode_increments_zero]
      end.
Qed.

(** X20 (GetPayableByRoundingMode).  Rounding never moves a whole
    number: for an Amount whose value is an integer K, every mode string
    and every positive precision with |K| * precision below 2^53, the call
    succeeds and returns an Amount Equal to the one it was given. *)
Theorem rounding_fixes_whole_amounts p K mode precision :
  is_inf (amount p) = false ->
  (Float_value (amount p) == inject_Z K)%Q ->
  0 < precision -> Z.abs K * precision < 2 ^ 53 ->
  exists r, Price_GetPayableByRoundingMode cvt_overflow p mode precision = Done r /\
            currency r = currency p /\ Price_Equal r p = true.
Proof.
  intros I V Pp B.
  destruct (whole_amount_rounding p K mode precision I V Pp B) as (r & Hr & E).
  exists r. split; [exact Hr|]. split; [|exact E].
  destruct (GetPayableByRoundingMode_total cvt_overflow p mode precision ltac:(lia))
    as (r' & Hr' & C). congruence.
Qed.

(** X21 (IsPayable, GetPayable).  Whole amounts are payable in every
    currency: when the value is an integer K with |K| * 100 below 2^53,
    IsPayable answers true. *)
Theorem whole_amounts_are_payable p K :
  is_inf (amount p) = false ->
  (Float_value (amount p) == inject_Z K)%Q -> Z.abs K * 100 < 2 ^ 53 ->
  Price_IsPayable cvt_overflow unicode_ToLower p = Done true.
Proof.
  intros I V B. unfold Price_IsPayable, Price_GetPayable.
  unfold Price_payableRoundingPrecision.
  destruct (String.eqb _ "miles" || String.eqb _ "points").
  - destruct (whole_amount_rounding p K RoundingModeFloor 1 I V ltac:(lia) ltac:(lia))
      as (r & Hr & E).
    rewrite Hr, bind_Done, E. reflexivity.
  - destruct (whole_amount_rounding p K RoundingModeHalfUp 100 I V ltac:(lia) ltac:(lia))
      as (r & Hr & E).
    rewrite Hr, bind_Done, E. reflexivity.
Qed.

End WholeAmounts.

Lemma rounding_fixes_whole_amounts_witness :
  exists r, Price_GetPayableByRoundingMode cvt_amd64 (sample_int (-42) "EUR")
              RoundingModeCeil 1000 = Done r /\
            currency r = "EUR"%string /\ Price_Equal r (sample_int (-42) "EUR") = true.
Proof.
  apply (rounding_fixes_whole_amounts cvt_amd64 (sample_int (-42) "EUR") (-42)
           RoundingModeCeil 1000); [reflexivity|reflexivity|lia|lia].
Defined.

Lemma whole_amounts_are_payable_witness :
  Price_IsPayable cvt_amd64 ToLower_caseless (sample_int 1999 "Miles") = Done true.
Proof.
  apply (whole_amounts_are_payable cvt_amd64 ToLower_caseless (sample_int 1999 "Miles") 1999);
    [reflexivity|reflexivity|lia].
Defined.

Import ListNotations.
Local Open Scope Z_scope.

(** * Discount and tax *)

Lemma discount_factor_0 s :
  big_NewFloat (f64_div (f64_sub (f64_of_Z 100) (S754_zero s)) (f64_of_Z 100)) =
  Done {| prec := 53; acc := Exact; fform := finite 4503599627370496 (-52); neg := false |}.
Proof. destruct s; vm_compute; reflexivity. Qed.

Lemma discount_factor_100 :
  big_NewFloat (f64_div (f64_sub (f64_of_Z 100) (f64_of_Z 100)) (f64_of_Z 100)) =
  Done {| prec := 53; acc := Exact; fform := zero; neg := false |}.
Proof. vm_compute. reflexivity. Qed.

(** X22 (Discounted).  The ends of the scale: a discount of 0 percent
    returns an Amount Equal to the receiver, a discount of 100 percent an
    exact zero in its currency (both for a well-formed Amount that is not
    infinite), and a NaN percentage panics. *)
Theorem Discounted_edges p :
  (exists msg, Price_Discounted p S754_nan = Panic msg) /\
  (Float_wf (amount p) = true -> is_inf (amount p) = false ->
   (exists q, Price_Discounted p (f64_of_Z 0) = Done q /\ Price_Equal q p = true) /\
   (exists z, Price_Discounted p (f64_of_Z 100) = Done z /\
              currency z = currency p /\ fform (amount z) = zero)).
Proof.
  split; [eexists; reflexivity|]. intros W I. unfold Price_Discounted.
  change (f64_of_Z 0) with (S754_zero false).
  rewrite discount_factor_0, discount_factor_100, !bind_Done.
  set (one := {| prec := 53; acc := Exact; fform := finite 4503599627370496 (-52);
                 neg := false |}).
  unfold is_inf in I. destruct (fform (amount p)) as [|m e|] eqn:F; [| |discriminate].
  - unfold Float_Mul. rewrite F. cbn [fform one]. rewrite !bind_Done. split.
    + eexists. split; [reflexivity|]. apply Equal_of_zero; [reflexivity|exact F|reflexivity].
    + eexists. repeat split.
  - split.
    + destruct (Float_Mul_unit Float_new (amount p) one m e 4503599627370496 (-52) F eq_refl)
        as (r & m' & e' & M & Fr & V & N & _ & _).
      * reflexivity.
      * rewrite result_prec_new.
        eapply representable_mono; [apply representable_wf; eassumption|apply umax32_ge_l].
      * rewrite M, bind_Done. eexists. split; [reflexivity|].
        apply (Equal_of_signed_value _ p m e m' e'); cbn [amount currency];
          [reflexivity|exact F|exact Fr|exact V|].
        rewrite N. apply xorb_false_r.
    + unfold Float_Mul. rewrite F. cbn [fform]. rewrite bind_Done.
      eexists. repeat split.
Qed.

Lemma Discounted_edges_witness :
  (exists msg, Price_Discounted (sample_tiny "EUR") S754_nan = Panic msg) /\
  (exists q, Price_Discounted (sample_tiny "EUR") (f64_of_Z 0) = Done q /\
             Price_Equal q (sample_tiny "EUR") = true) /\
  (exists z, Price_Discounted (sample_tiny "EUR") (f64_of_Z 100) = Done z /\
             currency z = "EUR"%string /\ fform (amount z) = zero).
Proof.
  split.
  - apply (proj1 (Discounted_edges (sample_tiny "EUR"))).
  - apply (proj2 (Discounted_edges (sample_tiny "EUR"))); reflexivity.
Defined.

Lemma TaxFromNet_currency p percent tax :
  Price_TaxFromNet p percent = Done tax -> currency tax = currency p.
Proof.
  unfold Price_TaxFromNet. intros T.
  destruct (Float_Mul Float_new percent (amount p)); [|discriminate].
  rewrite bind_Done in T.
  destruct (Float_Quo Float_new a (Float_SetInt64 Float_new 100)); [|discriminate].
  rewrite bind_Done in T. injection T as <-. reflexivity.
Qed.

(** p.Add(p.TaxFromNet(percent)) returns what p.Taxed(percent) returns. *)
Lemma Taxed_is_Add_of_TaxFromNet p percent :
  (do tax <- Price_TaxFromNet p percent; Price_Add p tax) =
  (do t <- Price_Taxed p percent; Done (t, None)).
Proof.
  unfold Price_Taxed. destruct (Price_TaxFromNet p percent) as [tax|msg] eqn:T;
    [|reflexivity].
  rewrite !bind_Done. pose proof (TaxFromNet_currency p percent tax T) as C.
  unfold Price_Add, Price_currencyGuard. rewrite C, String.eqb_refl, bind_Done.
  cbn [Price_blank amount currency]. unfold Price_Amount.
  destruct (Float_Add Float_new (amount p) (amount tax)); reflexivity.
Qed.

Lemma Float_SetInt64_100 :
  Float_SetInt64 Float_new 100 =
  {| prec := 64; acc := Exact; fform := finite 100 0; neg := false |}.
Proof. reflexivity. Qed.

(** X23 (TaxFromNet, TaxFromGross, Taxed).  At zero percent there is no
    tax: for a percentage of value zero and an Amount that is not infinite,
    TaxFromNet and TaxFromGross return an exact zero and Taxed returns an
    Amount Equal to the receiver. *)
Theorem zero_percent_tax p percent :
  fform percent = zero -> is_inf (amount p) = false ->
  exists n g t,
    Price_TaxFromNet p percent = Done n /\ fform (amount n) = zero /\
    Price_TaxFromGross p percent = Done g /\ fform (amount g) = zero /\
    Price_Taxed p percent = Done t /\ Price_Equal t p = true.
Proof.
  intros Z I.
  assert (M : exists q, Float_Mul Float_new percent (amount p) = Done q /\ fform q = zero).
  { unfold Float_Mul. rewrite Z. unfold is_inf in I.
    destruct (fform (amount p)); [| |discriminate]; eexists; split; reflexivity. }
  destruct M as (q & M & Fq).
  assert (N : Price_TaxFromNet p percent =
              Done {| amount := {| prec := result_prec Float_new q (Float_SetInt64 Float_new 100);
                                   acc := Exact; fform := zero;
                                   neg := xorb (neg q) false |};
                      currency := currency p |}).
  { unfold Price_TaxFromNet. rewrite M, bind_Done, Float_SetInt64_100.
    unfold Float_Quo. rewrite Fq. reflexivity. }
  assert (G : exists g, Price_TaxFromGross p percent = Done g /\ fform (amount g) = zero).
  { unfold Price_TaxFromGross. rewrite M, bind_Done, Float_SetInt64_100.
    unfold Float_Add. rewrite Z. cbn [fform]. rewrite bind_Done.
    unfold Float_Quo. rewrite Fq.
    assert (S : fform (Float_Set
                  (with_prec (result_prec Float_new percent
                     {| prec := 64; acc := Exact; fform := finite 100 0; neg := false |})
                     Float_new)
                  {| prec := 64; acc := Exact; fform := finite 100 0; neg := false |})
                = finite 100 0).
    { apply Float_Set_copy. right. cbn [with_prec prec]. rewrite result_prec_new.
      apply umax32_ge_r. }
    rewrite S, bind_Done. eexists. split; reflexivity. }
  destruct G as (g & G & Fg).
  destruct (Float_Add_zero_r (amount p)
              {| prec := result_prec Float_new q (Float_SetInt64 Float_new 100);
                 acc := Exact; fform := zero; neg := xorb (neg q) false |} eq_refl)
    as (s & Hs & Fs & Ns).
  eexists. exists g. eexists.
  split; [exact N|]. split; [reflexivity|]. split; [exact G|]. split; [exact Fg|].
  unfold Price_Taxed. rewrite N, bind_Done. unfold Price_Amount. cbn [amount].
  rewrite Hs, bind_Done. split; [reflexivity|].
  unfold Price_Equal. cbn [amount currency]. rewrite String.eqb_refl. cbn [negb].
  destruct (fform (amount p)) eqn:Fa.
  - rewrite Float_Cmp_zero_zero by assumption. reflexivity.
  - rewrite Float_Cmp_same; [reflexivity|congruence|apply Ns; congruence].
  - rewrite Float_Cmp_same; [reflexivity|congruence|apply Ns; congruence].
Qed.

Lemma zero_percent_tax_witness :
  exists n g t,
    Price_TaxFromNet (sample_int 80 "EUR") Float_new = Done n /\ fform (amount n) = zero /\
    Price_TaxFromGross (sample_int 80 "EUR") Float_new = Done g /\ fform (amount g) = zero /\
    Price_Taxed (sample_int 80 "EUR") Float_new = Done t /\
    Price_Equal t (sample_int 80 "EUR") = true.
Proof. apply (zero_percent_tax (sample_int 80 "EUR") Float_new); reflexivity. Defined.

Lemma bitlen_mul_ge a b : bitlen a + bitlen b - 1 <= bitlen (a * b).
Proof.
  pose proof (bitlen_spec a) as [Ha _]. pose proof (bitlen_spec b) as [Hb _].
  pose proof (bitlen_spec (a * b)) as [_ Hab].
  pose proof (bitlen_pos a). pose proof (bitlen_pos b). pose proof (bitlen_pos (a * b)).
  rewrite Pos2Z.inj_mul in Hab.
  assert (L : 2 ^ (bitlen a - 1 + (bitlen b - 1)) < 2 ^ bitlen (a * b)).
  { rewrite Z.pow_add_r by lia. eapply Z.le_lt_trans; [|exact Hab].
    apply Z.mul_le_mono_nonneg; try lia; apply Z.pow_nonneg; lia. }
  apply Z.pow_lt_mono_r_iff in L; lia.
Qed.

Lemma Float_round_not_zero p s m e sb : fst (Float_round p s m e sb) <> zero.
Proof.
  unfold Float_round.
  repeat match goal with
         | |- context [if ?c then _ else _] => destruct c
         end; cbn [fst]; discriminate.
Qed.

Lemma Float_Add_opposite_values x y :
  is_inf x = false -> fform y <> zero -> is_inf y = false ->
  (Float_value x == - Float_value y)%Q ->
  exists d, Float_Add Float_new x y = Done d /\ fform d = zero.
Proof.
  unfold is_inf. intros Ix Zy Iy V.
  destruct (fform y) as [|my ey|] eqn:Fy; [congruence| |discriminate].
  destruct (fform x) as [|mx ex|] eqn:Fx; [| |discriminate].
  - exfalso. apply (finite_not_zero_value x y my ey Fx Fy).
    rewrite (value_zero_form x Fx) in *.
    rewrite <- (Qopp_opp (Float_value y)), <- V. reflexivity.
  - rewrite (Float_Add_finite Float_new x y mx ex my ey Fx Fy).
    assert (S0 : signed_sum (neg x) mx ex (neg y) my ey = 0).
    { pose proof (signed_sum_value (neg x) mx ex (neg y) my ey) as SV.
      rewrite <- (signedQ_value x mx ex Fx), <- (signedQ_value y my ey Fy), V in SV.
      assert (Z0 : (inject_Z (signed_sum (neg x) mx ex (neg y) my ey) *
                    2 ^ Z.min ex ey == 0)%Q) by (rewrite SV; ring).
      apply Qmult_integral in Z0. destruct Z0 as [Z0|Z0].
      - unfold Qeq in Z0. cbn in Z0. lia.
      - pose proof (P2_pos (Z.min ex ey)) as H. rewrite Z0 in H.
        apply Qlt_irrefl in H. contradiction. }
    rewrite S0. eexists. split; reflexivity.
Qed.

(** X24 (TaxFromGross).  A percentage of -100 makes the divisor
    100 + percent zero: on a well-formed Amount that is neither zero nor
    infinite TaxFromGross then returns an infinite Amount without any
    error, and on a zero Amount it panics. *)
Theorem TaxFromGross_at_minus_100 p percent :
  is_inf percent = false -> (Float_value percent == inject_Z (-100))%Q ->
  Float_wf (amount p) = true -> is_inf (amount p) = false ->
  match fform (amount p) with
  | zero => exists msg, Price_TaxFromGross p percent = Panic msg
  | _ => exists g, Price_TaxFromGross p percent = Done g /\
                   currency g = currency p /\ is_inf (amount g) = true
  end.
Proof.
  intros Ip Vp W I.
  destruct (fform percent) as [|mp ep|] eqn:Fp;
    [| |unfold is_inf in Ip; rewrite Fp in Ip; discriminate].
  { exfalso. rewrite (value_zero_form percent Fp) in Vp.
    unfold Qeq in Vp. cbn in Vp. lia. }
  destruct (whole_value_form percent mp ep (-100) Fp Vp) as (VK & Np & _).
  change (Z.abs (-100)) with 100 in VK.
  assert (A : exists d, Float_Add Float_new percent (Float_SetInt64 Float_new 100) = Done d /\
                        fform d = zero).
  { apply Float_Add_opposite_values; [exact Ip|discriminate|reflexivity|].
    rewrite Vp. reflexivity. }
  destruct A as (d & A & Fd).
  unfold Price_TaxFromGross.
  unfold is_inf in I. destruct (fform (amount p)) as [|m e|] eqn:F; [| |discriminate].
  - unfold Float_Mul. rewrite Fp, F. rewrite bind_Done, A, bind_Done.
    unfold Float_Quo. cbn [fform]. rewrite Fd. eexists. reflexivity.
  - destruct (Float_wf_finite (amount p) m e W F) as [_ R].
    assert (G7 : gexp mp ep = 7).
    { rewrite (gexp_of_value mp ep 100 0); [reflexivity|].
      rewrite Qpower_2_0. exact VK. }
    unfold Float_Mul. rewrite Fp, F.
    destruct (setExpAndRound (result_prec Float_new percent (amount p))
                (xorb (neg percent) (neg (amount p))) (mp * m) (ep + e) false)
      as [f a] eqn:S.
    assert (Nz : f <> zero).
    { unfold setExpAndRound in S.
      pose proof (bitlen_mul_ge mp m) as Bm. unfold gexp in *.
      destruct (Z.ltb_spec (ep + e + bitlen (mp * m)) MinExp) as [L|L]; [lia|].
      destruct (MaxExp <? ep + e + bitlen (mp * m)); [injection S as <- _; discriminate|].
      pose proof (Float_round_not_zero (result_prec Float_new percent (amount p))
                    (xorb (neg percent) (neg (amount p))) (mp * m) (ep + e) false) as H.
      rewrite S in H. exact H. }
    rewrite bind_Done, A, bind_Done. unfold Float_Quo. cbn [fform]. rewrite Fd.
    destruct f; [congruence| |]; rewrite bind_Done; eexists; repeat split.
Qed.

Lemma TaxFromGross_at_minus_100_witness :
  exists g, Price_TaxFromGross (sample_int 50 "EUR") (Float_SetInt64 Float_new (-100)) = Done g /\
            currency g = "EUR"%string /\ is_inf (amount g) = true.
Proof.
  apply (TaxFromGross_at_minus_100 (sample_int 50 "EUR") (Float_SetInt64 Float_new (-100)));
    reflexivity.
Defined.

Import ListNotations.
Local Open Scope Z_scope.

(** * The charge ledger *)

Lemma store_entries_set h l k v :
  store_entries (store_set h l k v) {| chargesByQualifier := Some l |} =
  <[k := v]> (default ∅ (maps h !! l)).
Proof.
  unfold store_entries, store_set. cbn [chargesByQualifier maps].
  rewrite lookup_insert_eq. reflexivity.
Qed.

Lemma GetByChargeQualifier_lookup c q h :
  Charges_GetByChargeQualifier c q h =
  match store_entries h c !! q with
  | Some charge => (charge, true)
  | None => (Charge_zero_value, false)
  end.
Proof.
  unfold Charges_GetByChargeQualifier, Charges_HasChargeQualifier.
  destruct (store_entries h c !! q); reflexivity.
Qed.

Lemma lookup_result_inv (o : option Charge) charge :
  match o with
  | Some c => (c, true)
  | None => (Charge_zero_value, false)
  end = (charge, true) <-> o = Some charge.
Proof.
  destruct o as [c|]; split; intros H; try discriminate; congruence.
Qed.

(** Writes into one map of the store. *)
Lemma writes_lookup l (ws : list (ChargeQualifier * Charge)) : forall h q c,
  base.NoDup (ws.*1) ->
  (store_entries (fold_left (fun h' w => store_set h' l w.1 w.2) ws h)
     {| chargesByQualifier := Some l |} !! q = Some c <->
   (q, c) ∈ ws \/ ((q ∉ ws.*1) /\ default ∅ (maps h !! l) !! q = Some c)).
Proof.
  induction ws as [|[k v] ws IH]; intros h q c ND.
  - cbn [fold_left]. unfold store_entries. cbn [chargesByQualifier].
    split.
    + intros H. right. split; [apply not_elem_of_nil|exact H].
    + intros [H|[_ H]]; [apply elem_of_nil in H; contradiction|exact H].
  - cbn [fold_left fst snd]. rewrite fmap_cons in ND. cbn [fst] in ND.
    apply list.NoDup_cons in ND as [Nk ND].
    rewrite (IH (store_set h l k v) q c ND).
    assert (E : default ∅ (maps (store_set h l k v) !! l) =
                <[k := v]> (default ∅ (maps h !! l))).
    { unfold store_set. cbn [maps]. rewrite lookup_insert_eq. reflexivity. }
    rewrite E, fmap_cons. cbn [fst].
    rewrite elem_of_cons, not_elem_of_cons.
    destruct (decide (q = k)) as [->|Nq].
    + rewrite lookup_insert_eq. split.
      * intros [H|[H1 H2]]; [left; right; exact H|].
        injection H2 as ->. left. left. reflexivity.
      * intros [[H|H]|[[H _] _]]; [|left; exact H|congruence].
        injection H as ->. right. split; [exact Nk|reflexivity].
    + rewrite lookup_insert_ne by congruence. split.
      * intros [H|[H1 H2]]; [left; right; exact H|].
        right. split; [split; assumption|exact H2].
      * intros [[H|H]|[[_ H1] H2]]; [congruence|left; exact H|].
        right. split; assumption.
Qed.

Lemma fold_left_fmap {A B C} (f : A -> C -> A) (g : B -> C) (l : list B) : forall a,
  fold_left (fun a' x => f a' (g x)) l a = fold_left f (g <$> l) a.
Proof. induction l as [|x l IH]; intros a; [reflexivity|]. cbn. apply IH. Qed.

Lemma fold_left_filter {A B} (f : A -> B -> A) (P : B -> bool) (l : list B) : forall a,
  fold_left (fun a' x => if P x then f a' x else a') l a =
  fold_left f (List.filter P l) a.
Proof.
  induction l as [|x l IH]; intros a; [reflexivity|].
  cbn. destruct (P x); cbn; apply IH.
Qed.

Lemma store_make_entries h :
  default ∅ (maps (snd (store_make h)) !! fst (store_make h)) = ∅.
Proof. unfold store_make. cbn [fst snd maps]. rewrite lookup_insert_eq. reflexivity. Qed.

Lemma NoDup_qualified (l : list (string * Charge)) :
  base.NoDup (l.*1) ->
  base.NoDup ((fun kv => ({| qType := kv.1; qReference := chReference kv.2 |}, kv.2)) <$> l).*1.
Proof.
  induction l as [|[k v] l IH]; intros ND; [constructor|].
  rewrite !fmap_cons in *. cbn [fst snd] in *.
  apply list.NoDup_cons in ND as [Nk ND]. apply list.NoDup_cons. split; [|apply IH; exact ND].
  intros H. apply Nk.
  apply list_elem_of_fmap in H as ([q c] & Hq & H). cbn [fst] in Hq.
  apply list_elem_of_fmap in H as ([k' v'] & Hk & H). cbn [fst snd] in Hk.
  injection Hk as -> ->. injection Hq as -> _.
  apply list_elem_of_fmap. exists (k', v'). split; [reflexivity|exact H].
Qed.

(** X25 (NewCharges, addChargeQualifier).  The ledger NewCharges builds
    from a map keyed by type holds every charge of that map under the
    qualifier made of its key and its own reference, and nothing else: a
    qualifier finds a charge exactly when the map holds that charge under
    the qualifier's type and the charge has the qualifier's reference. *)
Theorem NewCharges_lookup (chargesByType : gmap string Charge) h q charge :
  Charges_GetByChargeQualifier (NewCharges chargesByType h).1 q (NewCharges chargesByType h).2
    = (charge, true) <->
  chargesByType !! qType q = Some charge /\ qReference q = chReference charge.
Proof.
  unfold NewCharges, addChargeQualifier.
  pose proof (store_make_entries h) as E0.
  destruct (store_make h) as [l h1]. cbn [fst snd] in *.
  rewrite GetByChargeQualifier_lookup.
  set (g := fun kv : string * Charge =>
              ({| qType := kv.1; qReference := chReference kv.2 |}, kv.2)).
  replace (fold_left _ (map_to_list chargesByType) h1)
    with (fold_left (fun h' w => store_set h' l w.1 w.2) (g <$> map_to_list chargesByType) h1).
  2:{ rewrite <- fold_left_fmap. clear. generalize h1.
      induction (map_to_list chargesByType) as [|[k v] r IH]; intros h0; [reflexivity|].
      cbn. apply IH. }
  assert (W : forall ch,
             store_entries
               (fold_left (fun h' w => store_set h' l w.1 w.2)
                  (g <$> map_to_list chargesByType) h1)
               {| chargesByQualifier := Some l |} !! q = Some ch <->
             (q, ch) ∈ g <$> map_to_list chargesByType).
  { intros ch.
    rewrite (writes_lookup l (g <$> map_to_list chargesByType) h1 q ch
               (NoDup_qualified _ (NoDup_fst_map_to_list chargesByType))).
    rewrite E0, lookup_empty. split; [intros [H|[_ H]]; [exact H|discriminate]|].
    intros H. left. exact H. }
  rewrite lookup_result_inv, W. split.
  - intros L.
    apply list_elem_of_fmap in L as ([k v] & Hq & L). unfold g in Hq. cbn [fst snd] in Hq.
    injection Hq as -> ->. apply elem_of_map_to_list in L. split; [exact L|reflexivity].
  - intros [L R].
    apply list_elem_of_fmap. exists (qType q, charge). split.
    + unfold g. cbn [fst snd]. rewrite <- R. destruct q; reflexivity.
    + apply elem_of_map_to_list. exact L.
Qed.

(** X26 (GetAllByType).  GetAllByType returns a new map that holds
    exactly the charges of the given type: a qualifier finds a charge in it
    exactly when the ledger holds that charge under that qualifier and the
    qualifier's type is the one asked for. *)
Theorem GetAllByType_filters c ctype h q charge :
  store_entries (Charges_GetAllByType c ctype h).2
    {| chargesByQualifier := Some (Charges_GetAllByType c ctype h).1 |} !! q = Some charge <->
  store_entries h c !! q = Some charge /\ qType q = ctype.
Proof.
  unfold Charges_GetAllByType.
  pose proof (store_make_entries h) as E0.
  destruct (store_make h) as [l h1]. cbn [fst snd] in *.
  set (P := fun kv : ChargeQualifier * Charge => String.eqb (qType kv.1) ctype).
  replace (fold_left _ (range_map (store_entries h c)) h1)
    with (fold_left (fun h' w => store_set h' l w.1 w.2)
            (List.filter P (range_map (store_entries h c))) h1).
  2:{ rewrite <- fold_left_filter. clear. generalize h1. unfold range_map.
      induction (map_to_list (store_entries h c)) as [|[[t r] v] rest IH]; intros h0;
        [reflexivity|].
      cbn. destruct (String.eqb t ctype); apply IH. }
  assert (ND : base.NoDup (List.filter P (range_map (store_entries h c))).*1).
  { unfold range_map. pose proof (NoDup_fst_map_to_list (store_entries h c)) as N.
    induction (map_to_list (store_entries h c)) as [|[k v] rest IH]; [constructor|].
    rewrite fmap_cons in N. apply list.NoDup_cons in N as [Nk N]. cbn [List.filter].
    destruct (P (k, v)); [|apply IH; exact N].
    rewrite fmap_cons. apply list.NoDup_cons. split; [|apply IH; exact N].
    intros H. apply Nk. apply list_elem_of_fmap in H as ([k' v'] & -> & H).
    apply list_elem_of_In, filter_In in H as [H _].
    apply list_elem_of_fmap. exists (k', v'). split; [reflexivity|].
    apply list_elem_of_In. exact H. }
  rewrite (writes_lookup l _ h1 q charge ND), E0, lookup_empty.
  split.
  - intros [H|[_ H]]; [|discriminate].
    apply list_elem_of_In, filter_In in H as [H HP].
    apply list_elem_of_In, elem_of_map_to_list in H.
    split; [exact H|]. unfold P in HP. cbn [fst] in HP. apply String.eqb_eq. exact HP.
  - intros [L T]. left. apply list_elem_of_In, filter_In. split.
    + apply list_elem_of_In, elem_of_map_to_list. exact L.
    + unfold P. cbn [fst]. apply String.eqb_eq. exact T.
Qed.


Lemma Price_Add_to_zero_value x :
  exists r, Price_Add Price_zero_value x = Done (r, None) /\
            currency r = currency x /\ Price_Equal r x = true.
Proof.
  destruct (Float_Add_zero_l Float_new (amount x) eq_refl) as (s & Hs & Cs).
  assert (G : Price_currencyGuard Price_zero_value x = Done (Price_blank (currency x), None)).
  { unfold Price_currencyGuard.
    destruct (String.eqb (currency Price_zero_value) (currency x)); [reflexivity|].
    rewrite (Price_IsZero_spec Price_zero_value), bind_Done. reflexivity. }
  unfold Price_Add. rewrite G, bind_Done. cbn [Price_blank amount currency].
  change (amount Price_zero_value) with Float_new. rewrite Hs, bind_Done.
  eexists. split; [reflexivity|]. split; [reflexivity|].
  unfold Price_Equal. cbn [amount currency]. rewrite String.eqb_refl. cbn [negb].
  rewrite Cs. reflexivity.
Qed.

(** X27 (GetByType, HasType, Charge.Add).  Looking up by type: when no
    qualifier of the ledger has the type, GetByType returns the empty
    charge and false; when exactly one charge is held, under a qualifier of
    that type and with that type itself, GetByType returns true and a
    charge of that type whose price and value are Equal to the held ones,
    but whose reference is empty whatever the reference held. *)
Theorem GetByType_of_one_charge c ctype h :
  ((forall q t, store_entries h c !! q = Some t -> qType q <> ctype) ->
   Charges_GetByType c ctype h = Done (Charge_zero_value, false)) /\
  (forall q t,
     store_entries h c = {[ q := t ]} -> qType q = ctype -> chType t = ctype ->
     exists r, Charges_GetByType c ctype h = Done (r, true) /\
       chType r = ctype /\ chReference r = EmptyString /\
       Price_Equal (chPrice r) (chPrice t) = true /\
       Price_Equal (chValue r) (chValue t) = true).
Proof.
  split.
  - intros H. unfold Charges_GetByType, Charges_HasType, range_map.
    replace (existsb _ _) with false; [reflexivity|].
    symmetry. apply not_true_is_false. intros E.
    apply existsb_exists in E as ([q t] & In' & E). cbn [fst] in E.
    apply String.eqb_eq in E.
    apply list_elem_of_In, elem_of_map_to_list in In'. exact (H q t In' E).
  - intros q t S Tq Tt. unfold Charges_GetByType, Charges_HasType, range_map.
    rewrite S, map_to_list_singleton. cbn [existsb fst GetByType_loop].
    rewrite Tq, String.eqb_refl. cbn [orb negb].
    unfold Charge_Add. cbn [chType chPrice chValue chReference].
    rewrite Tt, String.eqb_refl. cbn [negb].
    destruct (Price_Add_to_zero_value (chPrice t)) as (rp & Hp & _ & Ep).
    destruct (Price_Add_to_zero_value (chValue t)) as (rv & Hv & _ & Ev).
    rewrite Hp, bind_Done, Hv, !bind_Done. cbn [fst].
    eexists. split; [reflexivity|]. cbn [chType chReference chPrice chValue].
    repeat split; assumption.
Qed.


Section LedgerMore.

Variable cvt_overflow : float64 -> Z.
Variable unicode_ToLower : string -> string.

Lemma ensure_entries c h :
  let '(l, h1) := Charges_ensure c h in
  default ∅ (maps h1 !! l) = store_entries h c.
Proof.
  unfold Charges_ensure, store_entries.
  destruct (chargesByQualifier c) as [l|]; [reflexivity|].
  unfold store_make. cbn [maps]. rewrite lookup_insert_eq. reflexivity.
Qed.

(** X28 (AddCharge, GetByChargeQualifier).  Insert, then look up: adding
    a charge whose qualifier (type and reference) the ledger does not hold
    never fails; in the returned ledger that qualifier gives the charge
    back, unchanged, and every other qualifier gives what it gave before. *)
Theorem AddCharge_then_lookup c toadd h :
  let q := {| qType := chType toadd; qReference := chReference toadd |} in
  Charges_HasChargeQualifier c q h = false ->
  exists c' h',
    Charges_AddCharge cvt_overflow unicode_ToLower c toadd h = Done (c', h') /\
    Charges_GetByChargeQualifier c' q h' = (toadd, true) /\
    forall q', q' <> q ->
      Charges_GetByChargeQualifier c' q' h' = Charges_GetByChargeQualifier c q' h.
Proof.
  intros q H. unfold Charges_HasChargeQualifier in H.
  destruct (store_entries h c !! q) eqn:L; [discriminate|].
  unfold Charges_AddCharge. pose proof (ensure_entries c h) as E.
  destruct (Charges_ensure c h) as [l h1]. fold q.
  unfold merge_charge. rewrite E, L.
  eexists. eexists. split; [reflexivity|].
  rewrite !GetByChargeQualifier_lookup, store_entries_set, E.
  split; [rewrite lookup_insert_eq; reflexivity|].
  intros q' N. rewrite !GetByChargeQualifier_lookup, store_entries_set, E.
  rewrite lookup_insert_ne by congruence. reflexivity.
Qed.

Lemma GetPayable_zero_value :
  Charge_GetPayable cvt_overflow unicode_ToLower Charge_zero_value =
  Done {| chPrice := NewZero ""; chValue := NewZero ""; chType := ""; chReference := "" |}.
Proof. vm_compute. reflexivity. Qed.

Lemma Price_Add_clash a b :
  currency a <> currency b ->
  Price_IsZero a = Done false -> Price_IsZero b = Done false ->
  Price_Add a b = Done (NewZero (currency a), Some err_currency).
Proof.
  intros N Za Zb. unfold Price_Add, Price_currencyGuard.
  rewrite (eqb_false_of_neq _ _ N), Za, bind_Done, Zb, !bind_Done. reflexivity.
Qed.

(** X29 (AddCharge, Charge.Add).  Adding a charge in another currency to
    a qualifier the ledger already holds destroys the entry: when the two
    prices have different currencies and neither is zero, the sum fails,
    its error is dropped, and the qualifier is left holding an empty
    charge - no type, no reference, zero amounts without a currency. *)
Theorem AddCharge_currency_clash_empties_the_entry c toadd existing h :
  let q := {| qType := chType toadd; qReference := chReference toadd |} in
  Charges_GetByChargeQualifier c q h = (existing, true) ->
  currency (chPrice existing) <> currency (chPrice toadd) ->
  Price_IsZero (chPrice existing) = Done false ->
  Price_IsZero (chPrice toadd) = Done false ->
  exists c' h',
    Charges_AddCharge cvt_overflow unicode_ToLower c toadd h = Done (c', h') /\
    Charges_GetByChargeQualifier c' q h' =
      ({| chPrice := NewZero ""; chValue := NewZero ""; chType := ""; chReference := "" |},
       true).
Proof.
  intros q G N Ze Zt. rewrite GetByChargeQualifier_lookup in G.
  destruct (store_entries h c !! q) as [e|] eqn:L; [|discriminate].
  injection G as ->.
  assert (A : exists err, Charge_Add existing toadd = Done (Charge_zero_value, Some err)).
  { unfold Charge_Add. destruct (negb (String.eqb (chType existing) (chType toadd)));
      [eexists; reflexivity|].
    rewrite (Price_Add_clash _ _ N Ze Zt), bind_Done. eexists. reflexivity. }
  destruct A as [err A].
  unfold Charges_AddCharge. pose proof (ensure_entries c h) as E.
  destruct (Charges_ensure c h) as [l h1]. fold q.
  unfold merge_charge. rewrite E, L, A, bind_Done. cbn [fst].
  rewrite GetPayable_zero_value, !bind_Done.
  eexists. eexists. split; [reflexivity|].
  rewrite GetByChargeQualifier_lookup, store_entries_set, lookup_insert_eq. reflexivity.
Qed.


End LedgerMore.

Lemma AddCharge_then_lookup_witness :
  exists c' h',
    Charges_AddCharge cvt_amd64 ToLower_caseless Charges_zero_value sample_giftcard store_empty
      = Done (c', h') /\
    Charges_GetByChargeQualifier c' {| qType := "giftcard"; qReference := "" |} h'
      = (sample_giftcard, true) /\
    forall q', q' <> {| qType := "giftcard"; qReference := "" |} ->
      Charges_GetByChargeQualifier c' q' h' =
      Charges_GetByChargeQualifier Charges_zero_value q' store_empty.
Proof.
  apply (AddCharge_then_lookup cvt_amd64 ToLower_caseless Charges_zero_value
           sample_giftcard store_empty).
  reflexivity.
Defined.

Lemma AddCharge_currency_clash_empties_the_entry_witness :
  let L := {| chargesByQualifier := Some 0%nat |} in
  let h := store_set (snd (store_make store_empty)) 0
             {| qType := "main"; qReference := "" |} sample_main in
  let usd := {| chPrice := sample_int 5 "USD"; chValue := sample_int 5 "USD";
                chType := "main"; chReference := "" |} in
  exists c' h',
    Charges_AddCharge cvt_amd64 ToLower_caseless L usd h = Done (c', h') /\
    Charges_GetByChargeQualifier c' {| qType := "main"; qReference := "" |} h' =
      ({| chPrice := NewZero ""; chValue := NewZero ""; chType := ""; chReference := "" |},
       true).
Proof.
  intros L h usd.
  apply (AddCharge_currency_clash_empties_the_entry cvt_amd64 ToLower_caseless
           L usd sample_main h).
  - vm_compute. reflexivity.
  - discriminate.
  - vm_compute. reflexivity.
  - vm_compute. reflexivity.
Defined.

Lemma GetByType_of_one_charge_witness :
  let L := {| chargesByQualifier := Some 0%nat |} in
  let q := {| qType := "giftcard"; qReference := "card-7" |} in
  let t := {| chPrice := sample_int 50 "EUR"; chValue := sample_int 50 "EUR";
              chType := "giftcard"; chReference := "card-7" |} in
  let h := store_set (snd (store_make store_empty)) 0 q t in
  Charges_GetByType L "main" h = Done (Charge_zero_value, false) /\
  exists r, Charges_GetByType L "giftcard" h = Done (r, true) /\
    chType r = "giftcard"%string /\ chReference r = EmptyString /\
    Price_Equal (chPrice r) (chPrice t) = true /\
    Price_Equal (chValue r) (chValue t) = true.
Proof.
  intros L q t h. split.
  - apply (proj1 (GetByType_of_one_charge L "main" h)).
    intros q' t' H.
    assert (E : store_entries h L = {[ q := t ]}) by (vm_compute; reflexivity).
    rewrite E in H. apply lookup_singleton_Some in H as [<- _]. discriminate.
  - apply (proj2 (GetByType_of_one_charge L "giftcard" h) q t).
    + vm_compute. reflexivity.
    + reflexivity.
    + reflexivity.
Defined.

Import ListNotations.
Local Open Scope Z_scope.

(** * Decoding errors *)

Lemma decode_amount_unchanged ms : forall pj err,
  has_amount_text ms = false ->
  pjAmount (fst (json_decode_members ms pj err)) = pjAmount pj.
Proof.
  induction ms as [|[k v] ms IH]; intros pj err H; [reflexivity|].
  cbn [has_amount_text existsb fst snd] in H. apply orb_false_iff in H as [H1 H2].
  fold (has_amount_text ms) in H2.
  cbn [json_decode_members].
  destruct (key_matches k "amount") eqn:Ka.
  - cbn [andb] in H1. destruct v; try discriminate; apply IH; exact H2.
  - destruct (key_matches k "currency").
    + destruct v; try (apply IH; exact H2).
      rewrite IH by exact H2. reflexivity.
    + apply IH. exact H2.
Qed.

Lemma decode_error_kept ms : forall pj e,
  snd (json_decode_members ms pj (Some e)) = Some e.
Proof.
  induction ms as [|[k v] ms IH]; intros pj e; [reflexivity|].
  cbn [json_decode_members].
  destruct (key_matches k "amount"); [destruct v; apply IH|].
  destruct (key_matches k "currency"); [destruct v; apply IH|apply IH].
Qed.

Lemma decode_type_error ms : forall pj k v,
  In (k, v) ms -> key_matches k "amount" = true ->
  json_is_string v = false -> json_is_null v = false ->
  snd (json_decode_members ms pj None) = Some err_unmarshal_type.
Proof.
  induction ms as [|[k0 v0] ms IH]; intros pj k v HIn Hk Hs Hn; [contradiction|].
  cbn [json_decode_members].
  destruct HIn as [E|HIn].
  - injection E as -> ->. rewrite Hk.
    destruct v; try discriminate; apply decode_error_kept.
  - destruct (key_matches k0 "amount").
    + destruct v0; try apply decode_error_kept; eapply IH; eassumption.
    + destruct (key_matches k0 "currency").
      * destruct v0; try apply decode_error_kept; eapply IH; eassumption.
      * eapply IH; eassumption.
Qed.

(** X30 (UnmarshalText).  A failed decoding leaves the receiver as it
    was, and a successful one does not depend on the receiver.  Every
    document that is neither an object nor null is rejected with a type
    error; null is rejected because the empty text is not a number; every
    object without an amount member that carries text is rejected (no such
    member, or only null or other values for it); and an amount member
    whose value is neither text nor null makes the decoder's type error
    the result. *)
Theorem UnmarshalText_errors p b :
  (forall p' err, Price_UnmarshalText p b = Done (p', Some err) -> p' = p) /\
  (forall p' p2, Price_UnmarshalText p b = Done (p', None) ->
                 Price_UnmarshalText p2 b = Done (p', None)) /\
  match b with
  | JNull => Price_UnmarshalText p b = Done (p, Some err_parse)
  | JObject ms =>
      (has_amount_text ms = false ->
       exists err, Price_UnmarshalText p b = Done (p, Some err)) /\
      (forall k v, In (k, v) ms -> key_matches k "amount" = true ->
                   json_is_string v = false -> json_is_null v = false ->
                   Price_UnmarshalText p b = Done (p, Some err_unmarshal_type))
  | _ => Price_UnmarshalText p b = Done (p, Some err_unmarshal_type)
  end.
Proof.
  split; [|split].
  - intros p' err. unfold Price_UnmarshalText.
    destruct (json_Unmarshal_priceJSON b _) as [pj [e|]].
    + intros [= <- _]. reflexivity.
    + destruct (Float_Parse Float_new (pjAmount pj)) as [[am|]|msg]; cbn [bind];
        [discriminate|intros [= <- _]; reflexivity|discriminate].
  - intros p' p2. unfold Price_UnmarshalText.
    destruct (json_Unmarshal_priceJSON b _) as [pj [e|]]; [discriminate|].
    destruct (Float_Parse Float_new (pjAmount pj)) as [[am|]|msg]; cbn [bind];
      [intros [= <-]; reflexivity|discriminate|discriminate].
  - destruct b as [| | | | |ms]; try reflexivity. split.
    + intros H. unfold Price_UnmarshalText, json_Unmarshal_priceJSON.
      pose proof (decode_amount_unchanged ms {| pjAmount := ""; pjCurrency := "" |} None H) as A.
      destruct (json_decode_members ms _ None) as [pj [e|]]; [eexists; reflexivity|].
      cbn [fst pjAmount] in A. rewrite A. eexists. reflexivity.
    + intros k v HIn Hk Hs Hn. unfold Price_UnmarshalText, json_Unmarshal_priceJSON.
      pose proof (decode_type_error ms {| pjAmount := ""; pjCurrency := "" |} k v HIn Hk Hs Hn)
        as T.
      destruct (json_decode_members ms _ None) as [pj e]. cbn [snd] in T. subst e.
      reflexivity.
Qed.

Lemma UnmarshalText_errors_witness :
  (forall p' err,
     Price_UnmarshalText (sample_int 3 "EUR")
       (JObject [("currency"%string, JString "USD"); ("Amount"%string, JNumber "12.5")])
       = Done (p', Some err) -> p' = sample_int 3 "EUR") /\
  (exists err,
     Price_UnmarshalText (sample_int 3 "EUR")
       (JObject [("currency"%string, JString "USD"); ("Amount"%string, JNumber "12.5")])
       = Done (sample_int 3 "EUR", Some err)) /\
  Price_UnmarshalText (sample_int 3 "EUR")
    (JObject [("currency"%string, JString "USD"); ("Amount"%string, JNumber "12.5")])
    = Done (sample_int 3 "EUR", Some err_unmarshal_type).
Proof.
  pose proof (UnmarshalText_errors (sample_int 3 "EUR")
                (JObject [("currency"%string, JString "USD");
                          ("Amount"%string, JNumber "12.5")])) as (H1 & _ & H3 & H4).
  split; [exact H1|]. split.
  - apply H3. reflexivity.
  - apply (H4 "Amount"%string (JNumber "12.5")).
    + right. left. reflexivity.
    + reflexivity.
    + reflexivity.
    + reflexivity.
Defined.

Import ListNotations.
Local Open Scope Z_scope.

(** * Rounding to nearest: how far the result is from the operand *)

(** A number, cut at bit [r]: what is above, the bit itself, what is below. *)
Lemma cut_at_bit m r :
  0 <= m -> 0 <= r ->
  m = Z.shiftr m (r + 1) * 2 ^ (r + 1) + Z.b2z (Z.testbit m r) * 2 ^ r +
      Z.land m (Z.ones r) /\
  0 <= Z.land m (Z.ones r) < 2 ^ r.
Proof.
  intros Hm Hr.
  rewrite Z.land_ones by lia. rewrite Z.shiftr_div_pow2 by lia.
  pose proof (Z.mod_pos_bound m (2 ^ r) ltac:(apply Z.pow_pos_nonneg; lia)) as Hlow.
  split; [|exact Hlow].
  rewrite Z.testbit_spec' by lia.
  pose proof (Z.div_mod m (2 ^ r) ltac:(apply Z.pow_nonzero; lia)) as D1.
  pose proof (Z.div_mod (m / 2 ^ r) 2 ltac:(lia)) as D2.
  assert (E : m / 2 ^ (r + 1) = m / 2 ^ r / 2).
  { rewrite Z.pow_add_r, Z.pow_1_r by lia.
    rewrite Z.div_div by (try apply Z.pow_pos_nonneg; lia). reflexivity. }
  rewrite E, Z.pow_add_r, Z.pow_1_r by lia.
  assert (B : Z.b2z (Z.testbit m r) = (m / 2 ^ r) mod 2).
  { rewrite Z.testbit_spec' by lia. reflexivity. }
  rewrite <- B in D2 |- *. rewrite Z.testbit_spec' in B by lia.
  rewrite <- Z.testbit_spec' in B by lia.
  set (h := m / 2 ^ r) in *. set (lo := m mod 2 ^ r) in *. set (P := 2 ^ r) in *.
  nia.
Qed.

(** Rounding a mantissa of more than [p] bits moves it by at most half a
    unit of the last place kept; with a sticky bit, the value rounded sits
    strictly above the mantissa and the result is still within half a
    unit of it. *)
Lemma Float_round_near p s m e sb :
  1 <= p -> p < bitlen m -> gexp m e < MaxExp ->
  exists m' e',
    fst (Float_round p s m e sb) = finite m' e' /\
    e + (bitlen m - p) <= e' /\
    - 2 ^ (bitlen m - p - 1) <= Zpos m' * 2 ^ (e' - e) - Zpos m <= 2 ^ (bitlen m - p - 1) /\
    (sb = true -> - 2 ^ (bitlen m - p - 1) < Zpos m' * 2 ^ (e' - e) - Zpos m).
Proof.
  intros Hp Hb Hg. unfold Float_round.
  destruct (Z.leb_spec (bitlen m) p) as [L|_]; [lia|].
  set (r := bitlen m - p - 1). assert (Hr : 0 <= r) by (unfold r; lia).
  destruct (cut_at_bit (Zpos m) r ltac:(lia) Hr) as [Cut Low].
  set (q := Z.shiftr (Zpos m) (r + 1)) in *.
  set (low := Z.land (Zpos m) (Z.ones r)) in *.
  set (rbit := Z.testbit (Zpos m) r) in *.
  pose proof (bitlen_spec m) as Bm.
  assert (P2r : 0 < 2 ^ r) by (apply Z.pow_pos_nonneg; lia).
  assert (P2r1 : 2 ^ (r + 1) = 2 * 2 ^ r) by (rewrite Z.pow_add_r by lia; lia).
  assert (Pp : 2 ^ p = 2 * 2 ^ (p - 1)).
  { replace p with (p - 1 + 1) at 1 by lia. rewrite Z.pow_add_r by lia. lia. }
  assert (Pb : 2 ^ (bitlen m - 1) = 2 ^ (p - 1) * 2 ^ (r + 1)).
  { rewrite <- Z.pow_add_r by lia. f_equal. unfold r. lia. }
  assert (Pb' : 2 ^ bitlen m = 2 ^ p * 2 ^ (r + 1)).
  { rewrite <- Z.pow_add_r by lia. f_equal. unfold r. lia. }
  assert (Pp1 : 0 < 2 ^ (p - 1)) by (apply Z.pow_pos_nonneg; lia).
  assert (Hq : 2 ^ (p - 1) <= q < 2 ^ p).
  { unfold q. rewrite Z.shiftr_div_pow2 by lia. split.
    - apply Z.div_le_lower_bound; lia.
    - apply Z.div_lt_upper_bound; lia. }
  assert (B01 : Z.b2z rbit = 0 \/ Z.b2z rbit = 1) by (destruct rbit; simpl; lia).
  assert (E1 : e + r + 1 - e = r + 1) by lia.
  assert (E2 : e + r + 2 - e = r + 1 + 1) by lia.
  assert (P2r2 : 2 ^ (r + 1 + 1) = 2 * 2 ^ (r + 1)) by (rewrite (Z.pow_add_r 2 (r+1) 1) by lia; lia).
  replace (bitlen m - p) with (r + 1) by (unfold r; lia).
  destruct (Z.eqb_spec low 0) as [L0|L0]; cbn [negb].
  - (* nothing below the rounding bit *)
    rewrite orb_false_r.
    destruct rbit eqn:Rb; cbn [orb andb Z.b2z] in *.
    + destruct sb eqn:Sb; cbn [orb andb].
      * destruct (Z.eqb_spec (q + 1) (2 ^ p)) as [Ov|Ov].
        -- destruct (Z.leb_spec MaxExp (gexp m e)); [lia|].
           exists (Z.to_pos (2 ^ (p - 1))), (e + r + 2). cbn [fst].
           rewrite Z2Pos.id, E2, P2r2 by lia. repeat split; try lia; nia.
        -- exists (Z.to_pos (q + 1)), (e + r + 1). cbn [fst].
           rewrite Z2Pos.id, E1 by lia. repeat split; try lia; nia.
      * destruct (Z.odd q) eqn:Od.
        -- destruct (Z.eqb_spec (q + 1) (2 ^ p)) as [Ov|Ov].
           ++ destruct (Z.leb_spec MaxExp (gexp m e)); [lia|].
              exists (Z.to_pos (2 ^ (p - 1))), (e + r + 2). cbn [fst].
              rewrite Z2Pos.id, E2, P2r2 by lia. repeat split; try lia; try nia; try discriminate.
           ++ exists (Z.to_pos (q + 1)), (e + r + 1). cbn [fst].
              rewrite Z2Pos.id, E1 by lia. repeat split; try lia; try nia; try discriminate.
        -- exists (Z.to_pos q), (e + r + 1). cbn [fst].
           rewrite Z2Pos.id, E1 by lia. repeat split; try lia; try nia; try discriminate.
    + destruct sb; cbn [orb andb];
        exists (Z.to_pos q), (e + r + 1); cbn [fst];
        rewrite Z2Pos.id, E1 by lia; repeat split; try lia; nia.
  - rewrite orb_true_r. cbn [orb andb]. rewrite orb_true_r, andb_true_r.
    destruct rbit eqn:Rb; cbn [Z.b2z] in *.
    + destruct (Z.eqb_spec (q + 1) (2 ^ p)) as [Ov|Ov].
      * destruct (Z.leb_spec MaxExp (gexp m e)); [lia|].
        exists (Z.to_pos (2 ^ (p - 1))), (e + r + 2). cbn [fst].
        rewrite Z2Pos.id, E2, P2r2 by lia. repeat split; try lia; nia.
      * exists (Z.to_pos (q + 1)), (e + r + 1). cbn [fst].
        rewrite Z2Pos.id, E1 by lia. repeat split; try lia; nia.
    + exists (Z.to_pos q), (e + r + 1). cbn [fst].
      rewrite Z2Pos.id, E1 by lia. repeat split; try lia; nia.
Qed.

Local Open Scope Q_scope.

Lemma Qabs_le_intro x y : - y <= x -> x <= y -> Qabs x <= y.
Proof. intros. apply Qabs_Qle_condition. split; assumption. Qed.

(** Rounding to [p] bits moves a value by at most [2^-p] of itself.  The
    value rounded is [t], of which the mantissa is the integral part and the
    sticky bit tells whether there is a fractional part. *)
Lemma setExpAndRound_near p s m e sb t :
  (1 <= p)%Z -> (MinExp <= gexp m e < MaxExp)%Z ->
  (sb = true -> (p < bitlen m)%Z) ->
  inject_Z (Zpos m) * 2 ^ e <= t -> t < inject_Z (Zpos m + 1) * 2 ^ e ->
  (sb = false -> t == inject_Z (Zpos m) * 2 ^ e) ->
  exists m' e',
    fst (setExpAndRound p s m e sb) = finite m' e' /\
    Qabs (inject_Z (Zpos m') * 2 ^ e' - t) <= 2 ^ (- p) * t.
Proof.
  intros Hp Hg Hsb Lo Hi Ex. unfold setExpAndRound.
  destruct (Z.ltb_spec (gexp m e) MinExp); [lia|].
  destruct (Z.ltb_spec MaxExp (gexp m e)); [lia|].
  pose proof (P2_pos e) as Xpos. pose proof (P2_pos (- p)) as Ppos.
  pose proof (finite_value_pos m e) as Vpos.
  destruct (Z.le_gt_cases (bitlen m) p) as [Small|Big].
  - unfold Float_round. destruct (Z.leb_spec (bitlen m) p); [|lia].
    exists m, e. split; [reflexivity|].
    destruct sb; [specialize (Hsb eq_refl); lia|].
    rewrite (Ex eq_refl).
    assert (E0 : inject_Z (Z.pos m) * 2 ^ e - inject_Z (Z.pos m) * 2 ^ e == 0) by ring.
    rewrite E0. simpl Qabs. apply Qmult_le_0_compat; lra.
  - destruct (Float_round_near p s m e sb Hp Big ltac:(lia)) as (m' & e' & F & He & [D1 D2] & D3).
    exists m', e'. split; [exact F|].
    set (r := (bitlen m - p - 1)%Z) in *.
    assert (Hr : (0 <= r)%Z) by (unfold r; lia).
    replace e' with (e + (e' - e))%Z by lia.
    rewrite <- inject_shift by lia.
    set (A := (Z.pos m' * 2 ^ (e' - e))%Z) in *.
    assert (QD1 : inject_Z (Zpos m) + - inject_Z (2 ^ r) <= inject_Z A).
    { rewrite <- inject_Z_opp, <- inject_Z_plus, <- Zle_Qle. lia. }
    assert (QD2 : inject_Z A <= inject_Z (Zpos m) + inject_Z (2 ^ r)).
    { rewrite <- inject_Z_plus, <- Zle_Qle. lia. }
    assert (QD3 : sb = true -> inject_Z (Zpos m) + - inject_Z (2 ^ r) + 1 <= inject_Z A).
    { intros S. specialize (D3 S). change 1 with (inject_Z 1).
      rewrite <- inject_Z_opp, <- !inject_Z_plus, <- Zle_Qle. lia. }
    rewrite inject_Z_plus in Hi. change (inject_Z 1) with 1 in Hi.
    assert (Rel : inject_Z (2 ^ r) * 2 ^ e <= 2 ^ (- p) * t).
    { rewrite P2_inject by lia. rewrite <- P2_add.
      apply Qle_trans with (2 ^ (- p) * 2 ^ (gexp m e - 1)).
      - rewrite <- P2_add. apply P2_le. unfold gexp, r. lia.
      - apply Qmult_le_l; [exact Ppos|].
        apply Qle_trans with (inject_Z (Z.pos m) * 2 ^ e); [apply mag_bounds|exact Lo]. }
    set (a := inject_Z A) in *. set (mm := inject_Z (Zpos m)) in *.
    set (rr := inject_Z (2 ^ r)) in *. set (X := 2 ^ e) in *.
    set (PT := 2 ^ (- p) * t) in *.
    apply Qabs_le_intro.
    + destruct sb.
      * specialize (QD3 eq_refl). nra.
      * specialize (Ex eq_refl). rewrite Ex. nra.
    + nra.
Qed.

Import ListNotations.
Local Open Scope Z_scope.

(** * Rounding to binary64: values next to a whole number *)

Lemma iter_pos_iter {A} (f : A -> A) n : forall x, iter_pos f n x = Pos.iter f x n.
Proof.
  induction n as [n IH|n IH|]; intros x; cbn [iter_pos Pos.iter].
  - rewrite !IH. rewrite <- !Pos.iter_swap. reflexivity.
  - rewrite !IH. reflexivity.
  - reflexivity.
Qed.

Lemma shr_1_nonneg m r s :
  0 <= m ->
  shr_1 {| shr_m := m; shr_r := r; shr_s := s |} =
  {| shr_m := m / 2; shr_r := Z.odd m; shr_s := r || s |}.
Proof.
  intros H. destruct m as [|q|q]; [reflexivity| |lia].
  destruct q as [q|q|]; cbn [shr_1].
  - f_equal. change (Zpos q~1) with (2 * Zpos q + 1).
    apply Z.div_unique with 1; lia.
  - f_equal. change (Zpos q~0) with (2 * Zpos q).
    apply Z.div_unique with 0; lia.
  - reflexivity.
Qed.

(** Shifting right by [n] bits keeps the quotient, the last bit shifted
    out and whether anything below it was set. *)
Lemma iter_shr_1_gen n m :
  0 <= m ->
  iter_pos shr_1 n {| shr_m := m; shr_r := false; shr_s := false |} =
  {| shr_m := m / 2 ^ Zpos n;
     shr_r := Z.testbit m (Zpos n - 1);
     shr_s := negb (m mod 2 ^ (Zpos n - 1) =? 0) |}.
Proof.
  intros Hm. rewrite iter_pos_iter.
  induction n as [|n IH] using Pos.peano_ind.
  - cbn [Pos.iter]. rewrite shr_1_nonneg by exact Hm.
    change (Zpos 1 - 1) with 0. rewrite Z.pow_0_r, Z.mod_1_r, Z.bit0_odd, Z.pow_1_r.
    reflexivity.
  - rewrite Pos.iter_succ, IH.
    assert (P : 0 < 2 ^ Zpos n) by (apply Z.pow_pos_nonneg; lia).
    rewrite shr_1_nonneg by (apply Z.div_pos; lia).
    rewrite Pos2Z.inj_succ.
    replace (Z.succ (Zpos n) - 1) with (Zpos n) by lia.
    f_equal.
    + rewrite Z.pow_succ_r by lia. rewrite Z.div_div by lia. f_equal. lia.
    + rewrite <- Z.bit0_odd, Z.div_pow2_bits by lia. reflexivity.
    + destruct (cut_at_bit m (Zpos n - 1) Hm ltac:(lia)) as [Cut Low].
      replace (Zpos n - 1 + 1) with (Zpos n) in Cut by lia.
      rewrite Z.land_ones in Cut, Low by lia.
      rewrite Z.shiftr_div_pow2 in Cut by lia.
      assert (P' : 0 < 2 ^ (Zpos n - 1)) by (apply Z.pow_pos_nonneg; lia).
      assert (E2 : 2 ^ Zpos n = 2 * 2 ^ (Zpos n - 1)).
      { replace (Zpos n) with (Zpos n - 1 + 1) at 1 by lia.
        rewrite Z.pow_add_r by lia. lia. }
      assert (M : m mod 2 ^ Zpos n =
                  Z.b2z (Z.testbit m (Zpos n - 1)) * 2 ^ (Zpos n - 1) + m mod 2 ^ (Zpos n - 1)).
      { symmetry. apply Z.mod_unique with (m / 2 ^ Zpos n).
        - left. destruct (Z.testbit m (Zpos n - 1)); cbn [Z.b2z]; lia.
        - rewrite Cut at 1. ring. }
      rewrite M.
      destruct (Z.testbit m (Zpos n - 1)); cbn [Z.b2z orb];
        destruct (Z.eqb_spec (m mod 2 ^ (Zpos n - 1)) 0) as [E|E]; cbn [negb];
        match goal with |- _ = negb (?a =? 0) => destruct (Z.eqb_spec a 0) end;
        cbn [negb]; first [reflexivity | lia].
Qed.

(** The quotient of a shift, rounded to nearest, is the whole number the
    operand is less than half a unit away from. *)
Lemma shift_round_near d m X :
  0 < X ->
  - 2 ^ Zpos d < 2 * (m - X * 2 ^ Zpos d) < 2 ^ Zpos d ->
  round_nearest_even (m / 2 ^ Zpos d)
    (loc_of_shr_record
       {| shr_m := m / 2 ^ Zpos d;
          shr_r := Z.testbit m (Zpos d - 1);
          shr_s := negb (m mod 2 ^ (Zpos d - 1) =? 0) |}) = X.
Proof.
  intros HX Hd.
  set (H := 2 ^ (Zpos d - 1)).
  assert (PH : 0 < H) by (apply Z.pow_pos_nonneg; lia).
  assert (EU : 2 ^ Zpos d = 2 * H).
  { unfold H. replace (Zpos d) with (Zpos d - 1 + 1) at 1 by lia.
    rewrite Z.pow_add_r by lia. lia. }
  rewrite EU in *.
  rewrite Z.testbit_odd, Z.shiftr_div_pow2 by lia. fold H.
  set (del := m - X * (2 * H)) in *.
  destruct (Z.le_gt_cases 0 del) as [Pos|Neg].
  - assert (Q1 : m / (2 * H) = X) by (symmetry; apply Z.div_unique with del; lia).
    assert (Q2 : m / H = 2 * X) by (symmetry; apply Z.div_unique with del; lia).
    assert (Q3 : m mod H = del) by (symmetry; apply Z.mod_unique with (2 * X); lia).
    rewrite Q1, Q2, Q3. rewrite Z.odd_mul. cbn [Z.odd andb].
    destruct (Z.eqb_spec del 0); reflexivity.
  - assert (Q1 : m / (2 * H) = X - 1)
      by (symmetry; apply Z.div_unique with (2 * H + del); lia).
    assert (Q2 : m / H = 2 * (X - 1) + 1)
      by (symmetry; apply Z.div_unique with (H + del); lia).
    assert (Q3 : m mod H = H + del)
      by (symmetry; apply Z.mod_unique with (2 * (X - 1) + 1); lia).
    rewrite Q1, Q2, Q3. rewrite (Z.add_comm (2 * (X - 1)) 1), Z.odd_add_mul_2. cbn [Z.odd].
    destruct (Z.eqb_spec (H + del) 0); [lia|]. cbn [negb loc_of_shr_record round_nearest_even].
    lia.
Qed.

Lemma canon_53 n t X :
  t <= 0 -> Zpos n * 2 ^ (- t) = X -> 2 ^ 52 <= X < 2 ^ 53 ->
  bitlen n - 53 = t /\ Zpos n * 2 ^ (53 - bitlen n) = X.
Proof.
  intros Ht E B.
  assert (L : bitlen (Z.to_pos (Zpos n * 2 ^ (- t))) = 53).
  { apply bitlen_unique. rewrite Z2Pos.id by lia. rewrite E. exact B. }
  rewrite bitlen_mul_pow2 in L by lia.
  split; [lia|]. rewrite <- E. f_equal. f_equal. lia.
Qed.

Lemma canon_54 n t :
  t <= 0 -> Zpos n * 2 ^ (- t) = 2 ^ 53 -> bitlen n <= 53 ->
  bitlen n - 53 = t + 1 /\ Zpos n * 2 ^ (53 - bitlen n) = 2 ^ 52.
Proof.
  intros Ht E B.
  assert (L : bitlen (Z.to_pos (Zpos n * 2 ^ (- t))) = 54).
  { apply bitlen_unique. rewrite Z2Pos.id by lia. rewrite E. lia. }
  rewrite bitlen_mul_pow2 in L by lia.
  split; [lia|].
  replace (- t) with (53 - bitlen n + 1) in E by lia.
  rewrite Z.pow_add_r in E by lia. lia.
Qed.

Local Open Scope Q_scope.

(** A relative distance in [Q], read on the integers: both sides scaled by
    a power of two that makes them whole. *)
Lemma near_on_Z m e n c :
  (c <= e)%Z -> (c <= 0)%Z ->
  Qabs (inject_Z (Zpos m) * 2 ^ e - inject_Z (Zpos n)) <=
    (1 # 36028797018963968) * inject_Z (Zpos n) ->
  (- (Zpos n * 2 ^ (- c)) <= 2 ^ 55 * (Zpos m * 2 ^ (e - c) - Zpos n * 2 ^ (- c))
   <= Zpos n * 2 ^ (- c))%Z.
Proof.
  intros Hc H0 H.
  pose proof (P2_pos c) as Ypos.
  assert (EA : inject_Z (Zpos m * 2 ^ (e - c)) * 2 ^ c == inject_Z (Zpos m) * 2 ^ e).
  { rewrite inject_shift by lia. replace (c + (e - c))%Z with e by lia. reflexivity. }
  assert (EB : inject_Z (Zpos n * 2 ^ (- c)) * 2 ^ c == inject_Z (Zpos n)).
  { rewrite inject_shift by lia. replace (c + - c)%Z with 0%Z by lia.
    rewrite Qpower_2_0. reflexivity. }
  rewrite <- EA, <- EB in H.
  set (A := (Zpos m * 2 ^ (e - c))%Z) in *. set (B := (Zpos n * 2 ^ (- c))%Z) in *.
  apply Qabs_Qle_condition in H. destruct H as [H1 H2].
  set (a := inject_Z A) in *. set (b := inject_Z B) in *. set (Y := 2 ^ c) in *.
  assert (L1 : - ((1 # 36028797018963968) * b) <= a - b) by nra.
  assert (L2 : a - b <= (1 # 36028797018963968) * b) by nra.
  unfold Z.sub. split; rewrite Zle_Qle.
  - rewrite inject_Z_opp, inject_Z_mult, inject_Z_plus, inject_Z_opp.
    change (inject_Z (2 ^ 55)) with 36028797018963968. fold a b. lra.
  - rewrite inject_Z_mult, inject_Z_plus, inject_Z_opp.
    change (inject_Z (2 ^ 55)) with 36028797018963968. fold a b. lra.
Qed.

Lemma P2_lt_inv a b : 2 ^ a < 2 ^ b -> (a < b)%Z.
Proof.
  intros H. destruct (Z.lt_ge_cases a b) as [L|G]; [exact L|].
  pose proof (P2_le b a G). lra.
Qed.

Lemma inject_bitlen n :
  2 ^ (bitlen n - 1) <= inject_Z (Zpos n) /\ inject_Z (Zpos n) < 2 ^ bitlen n.
Proof.
  pose proof (mag_bounds n 0) as [A B]. unfold gexp in A, B.
  rewrite Z.add_0_l in A, B.
  assert (E : inject_Z (Zpos n) * 2 ^ 0 == inject_Z (Zpos n)) by (rewrite Qpower_2_0; ring).
  rewrite E in A, B. split; assumption.
Qed.

(** A value within [2^-55] of a whole number below [2^53], relatively,
    rounds to that number's binary64 datum. *)
Lemma f64_round_near s m e n :
  (Zpos n < 2 ^ 53)%Z ->
  Qabs (inject_Z (Zpos m) * 2 ^ e - inject_Z (Zpos n)) <=
    (1 # 36028797018963968) * inject_Z (Zpos n) ->
  f64_round s m e =
  S754_finite s (Z.to_pos (Zpos n * 2 ^ (53 - bitlen n))) (bitlen n - 53).
Proof.
  intros L H.
  assert (Bn : (1 <= bitlen n <= 53)%Z)
    by (split; [apply bitlen_pos|apply bitlen_le_of_lt; lia]).
  pose proof (bitlen_pos m) as Bm.
  pose proof (mag_bounds m e) as [V1 V2].
  pose proof (inject_bitlen n) as [N1 N2].
  assert (N3 : inject_Z (Zpos n) <= 9007199254740991).
  { change 9007199254740991 with (inject_Z 9007199254740991).
    rewrite <- Zle_Qle. lia. }
  pose proof (proj1 (Qabs_Qle_condition _ _) H) as [H1 H2].
  set (v := inject_Z (Zpos m) * 2 ^ e) in *. set (N := inject_Z (Zpos n)) in *.
  assert (G1 : (gexp m e <= 53)%Z).
  { assert (2 ^ (gexp m e - 1) < 2 ^ 53).
    { apply Qle_lt_trans with v; [exact V1|].
      change (2 ^ 53) with 9007199254740992. lra. }
    apply P2_lt_inv in H0. lia. }
  assert (G2 : (bitlen n - 1 <= gexp m e)%Z).
  { assert (2 ^ (bitlen n - 2) < 2 ^ gexp m e).
    { apply Qle_lt_trans with v; [|exact V2].
      assert (E : 2 ^ (bitlen n - 1) == 2 * 2 ^ (bitlen n - 2)).
      { replace (bitlen n - 1)%Z with (1 + (bitlen n - 2))%Z by lia.
        rewrite P2_add. reflexivity. }
      rewrite E in N1. lra. }
    apply P2_lt_inv in H0. lia. }
  unfold gexp in G1, G2.
  set (t := (bitlen m + e - 53)%Z).
  assert (Ht : (t <= 0)%Z) by (unfold t; lia).
  set (X := (Zpos n * 2 ^ (- t))%Z).
  assert (P2t : (0 < 2 ^ (- t))%Z) by (apply Z.pow_pos_nonneg; lia).
  assert (X0 : (0 < X)%Z) by (unfold X; lia).
  assert (X54 : (X < 2 ^ 54)%Z).
  { unfold X. pose proof (bitlen_spec n) as [_ Hn].
    apply Z.lt_le_trans with (2 ^ bitlen n * 2 ^ (- t))%Z.
    - apply Z.mul_lt_mono_pos_r; assumption.
    - rewrite <- Z.pow_add_r by lia. apply Z.pow_le_mono_r; unfold t; lia. }
  assert (FE : fexp 53 1024 (bitlen m + e) = t) by (unfold fexp, emin, t; lia).
  assert (T : (-1074 <= t <= 971)%Z) by (unfold t; lia).
  (* the result once the mantissa [X] at exponent [t] is reached *)
  assert (Fin : (2 ^ 52 <= X < 2 ^ 53)%Z ->
                S754_finite s (Z.to_pos X) t =
                S754_finite s (Z.to_pos (Zpos n * 2 ^ (53 - bitlen n))) (bitlen n - 53)).
  { intros BX. destruct (canon_53 n t X Ht eq_refl BX) as [E1 E2].
    rewrite E1, E2. reflexivity. }
  unfold f64_round, f64_prec, f64_emax, binary_round.
  rewrite digits2_pos_bitlen, FE. unfold shl_align.
  destruct (t - e)%Z as [|d|d] eqn:Ed.
  - (* 53 bits *)
    pose proof (near_on_Z m e n t ltac:(lia) Ht H) as [Z1 Z2]. fold X in Z1, Z2.
    replace (e - t)%Z with 0%Z in Z1, Z2 by lia.
    rewrite Z.pow_0_r, Z.mul_1_r in Z1, Z2.
    assert (EX : Zpos m = X) by lia.
    assert (B53 : bitlen m = 53%Z) by (unfold t in Ed; lia).
    replace e with t by lia.
    rewrite binary_round_aux_canonical by assumption.
    pose proof (bitlen_spec m) as Sm. rewrite B53 in Sm.
    rewrite <- Fin by lia. rewrite <- EX. reflexivity.
  - (* more than 53 bits *)
    pose proof (near_on_Z m e n e ltac:(lia) ltac:(lia) H) as [Z1 Z2].
    replace (e - e)%Z with 0%Z in Z1, Z2 by lia.
    rewrite Z.pow_0_r, Z.mul_1_r in Z1, Z2.
    assert (EU : (Zpos n * 2 ^ (- e) = X * 2 ^ Zpos d)%Z).
    { unfold X. rewrite <- Z.mul_assoc, <- Z.pow_add_r by lia. f_equal. f_equal. lia. }
    rewrite EU in Z1, Z2.
    assert (PU : (0 < 2 ^ Zpos d)%Z) by (apply Z.pow_pos_nonneg; lia).
    assert (Near : (- 2 ^ Zpos d < 2 * (Zpos m - X * 2 ^ Zpos d) < 2 ^ Zpos d)%Z) by nia.
    assert (Bd : bitlen m = (53 + Zpos d)%Z) by (unfold t in Ed; lia).
    assert (BX : (2 ^ 52 <= X <= 2 ^ 53)%Z).
    { pose proof (bitlen_spec m) as [S1 S2]. rewrite Bd in S1, S2.
      replace (53 + Zpos d - 1)%Z with (52 + Zpos d)%Z in S1 by lia.
      rewrite Z.pow_add_r in S1, S2 by lia. nia. }
    unfold binary_round_aux at 1.
    assert (S1 : shr_fexp 53 1024 (Zpos m) e loc_Exact =
                 ({| shr_m := Zpos m / 2 ^ Zpos d;
                     shr_r := Z.testbit (Zpos m) (Zpos d - 1);
                     shr_s := negb (Zpos m mod 2 ^ (Zpos d - 1) =? 0)%Z |}, t)).
    { unfold shr_fexp. cbn [Zdigits2 shr_record_of_loc].
      rewrite digits2_pos_bitlen, FE, Ed. cbn [shr].
      rewrite iter_shr_1_gen by lia. f_equal. lia. }
    rewrite S1. cbn [shr_m].
    rewrite (shift_round_near d (Zpos m) X X0 Near).
    destruct (Z.eq_dec X (2 ^ 53)) as [Top|NTop].
    + (* rounded up to the next power of two *)
      rewrite Top.
      assert (S2 : shr_fexp 53 1024 (2 ^ 53) t loc_Exact =
                   ({| shr_m := 2 ^ 52; shr_r := false; shr_s := false |}, (t + 1)%Z)).
      { unfold shr_fexp. change (Zdigits2 (2 ^ 53)) with 54%Z.
        replace (fexp 53 1024 (54 + t) - t)%Z with 1%Z by (unfold fexp, emin; lia).
        reflexivity. }
      rewrite S2. cbn [shr_m]. change (2 ^ 52)%Z with (Zpos 4503599627370496).
      cbv iota.
      destruct (Z.leb_spec (t + 1) (1024 - 53)) as [_|?]; [|lia].
      destruct (canon_54 n t Ht Top ltac:(lia)) as [E1 E2].
      rewrite E1, E2. reflexivity.
    + assert (BX' : (2 ^ 52 <= X < 2 ^ 53)%Z) by lia.
      rewrite <- (Fin BX').
      assert (PX : X = Zpos (Z.to_pos X)) by (symmetry; apply Z2Pos.id; lia).
      rewrite PX at 1.
      rewrite shr_fexp_canonical;
        [|apply bitlen_unique; rewrite <- PX; exact BX'|exact T].
      cbn [shr_m].
      destruct (Z.leb_spec t (1024 - 53)) as [_|?]; [reflexivity|lia].
  - (* fewer than 53 bits *)
    pose proof (near_on_Z m e n t ltac:(lia) Ht H) as [Z1 Z2]. fold X in Z1, Z2.
    replace (e - t)%Z with (Zpos d) in Z1, Z2 by lia.
    assert (EX : (Zpos m * 2 ^ Zpos d = X)%Z) by lia.
    assert (Bd : (bitlen m + Zpos d = 53)%Z) by (unfold t in Ed; lia).
    assert (BX : (2 ^ 52 <= X < 2 ^ 53)%Z).
    { pose proof (bitlen_spec m) as [S1 S2]. rewrite <- EX.
      replace 52%Z with (bitlen m - 1 + Zpos d)%Z by lia.
      replace 53%Z with (bitlen m + Zpos d)%Z by lia.
      rewrite !Z.pow_add_r by lia.
      assert (0 < 2 ^ Zpos d)%Z by (apply Z.pow_pos_nonneg; lia). nia. }
    assert (EM : Pos.iter xO m d = Z.to_pos X).
    { apply Pos2Z.inj. rewrite iter_xO, EX, Z2Pos.id by lia. reflexivity. }
    rewrite EM.
    rewrite binary_round_aux_canonical;
      [apply Fin; exact BX| |exact T].
    apply bitlen_unique. rewrite Z2Pos.id by lia. exact BX.
Qed.

Import ListNotations.
Local Open Scope Z_scope.

(** * Operations of big.Float on approximations *)

Local Open Scope Q_scope.

Lemma near_mono x t eps eps' :
  0 < t -> eps <= eps' -> near x t eps -> near x t eps'.
Proof.
  intros Ht L (m & e & F & H). exists m, e. split; [exact F|].
  apply Qle_trans with (eps * t); [exact H|].
  apply Qmult_le_compat_r; lra.
Qed.

Lemma gexp_range m e :
  (1 # 2097152) <= inject_Z (Zpos m) * 2 ^ e ->
  inject_Z (Zpos m) * 2 ^ e <= 2361183241434822606848 ->
  (MinExp <= gexp m e < MaxExp)%Z.
Proof.
  intros Lo Hi. pose proof (mag_bounds m e) as [V1 V2].
  assert (A : 2 ^ (-21) < 2 ^ gexp m e).
  { apply Qle_lt_trans with (inject_Z (Zpos m) * 2 ^ e); [|exact V2].
    change (2 ^ (-21)) with (1 # 2097152). exact Lo. }
  assert (B : 2 ^ (gexp m e - 1) < 2 ^ 72).
  { apply Qle_lt_trans with (inject_Z (Zpos m) * 2 ^ e); [exact V1|].
    change (2 ^ 72) with 4722366482869645213696. lra. }
  apply P2_lt_inv in A, B. unfold MinExp, MaxExp. lia.
Qed.

(** One rounding at 64 bits or more adds [eta2] to a relative error of at
    most [2^-54]. *)
Lemma round_step p s m e t eps :
  (64 <= p)%Z -> 0 <= eps -> eps <= (1 # 18014398509481984) ->
  (1 # 1048576) <= t -> t <= 1180591620717411303424 ->
  Qabs (inject_Z (Zpos m) * 2 ^ e - t) <= eps * t ->
  exists m' e',
    fst (setExpAndRound p s m e false) = finite m' e' /\
    Qabs (inject_Z (Zpos m') * 2 ^ e' - t) <= (eps + eta2) * t.
Proof.
  intros Hp E0 E1 T0 T1 H.
  apply Qabs_Qle_condition in H. destruct H as [H1 H2].
  set (v := inject_Z (Zpos m) * 2 ^ e) in *.
  assert (A2 : eps * t <= (1 # 18014398509481984) * t)
    by (apply Qmult_le_compat_r; lra).
  assert (A3 : 0 <= eps * t) by (apply Qmult_le_0_compat; lra).
  assert (G : (MinExp <= gexp m e < MaxExp)%Z) by (apply gexp_range; fold v; lra).
  destruct (setExpAndRound_near p s m e false v ltac:(lia) G ltac:(discriminate))
    as (m' & e' & F & R).
  - apply Qle_refl.
  - unfold v. apply Qmult_lt_r; [apply P2_pos|]. rewrite <- Zlt_Qlt. lia.
  - intros _. reflexivity.
  - exists m', e'. split; [exact F|].
    apply Qabs_Qle_condition in R. destruct R as [R1 R2].
    assert (P64 : 2 ^ (- p) <= 1 # 18446744073709551616).
    { change (1 # 18446744073709551616) with (2 ^ (-64)). apply P2_le. lia. }
    pose proof (P2_pos (- p)) as Ppos.
    assert (Vpos : 0 < v) by (apply finite_value_pos).
    assert (A1 : 2 ^ (- p) * v <= (1 # 18446744073709551616) * v)
      by (apply Qmult_le_compat_r; lra).
    assert (A0 : 0 <= 2 ^ (- p) * v) by (apply Qmult_le_0_compat; lra).
    set (r := inject_Z (Zpos m') * 2 ^ e') in *. set (P := 2 ^ (- p)) in *.
    unfold eta2. apply Qabs_le_intro; lra.
Qed.

(** [z.Mul(x, y)] for [x] near [t] and [y] of magnitude [c]. *)
Lemma Float_Mul_near x y t eps c my ey :
  near x t eps -> fform y = finite my ey ->
  inject_Z (Zpos my) * 2 ^ ey == c ->
  (64 <= result_prec Float_new x y)%Z ->
  0 <= eps -> eps <= (1 # 18014398509481984) ->
  (1 # 1048576) <= t * c -> t * c <= 1180591620717411303424 ->
  exists r, Float_Mul Float_new x y = Done r /\
            prec r = result_prec Float_new x y /\
            neg r = xorb (neg x) (neg y) /\
            near r (t * c) (eps + eta2).
Proof.
  intros (mx & ex & Fx & H) Fy C Hp E0 E1 T0 T1.
  unfold Float_Mul. rewrite Fx, Fy.
  assert (Cpos : 0 < c) by (rewrite <- C; apply finite_value_pos).
  destruct (round_step (result_prec Float_new x y) (xorb (neg x) (neg y))
              (mx * my) (ex + ey) (t * c) eps Hp E0 E1 T0 T1) as (m' & e' & F & R).
  - assert (V : inject_Z (Zpos (mx * my)) * 2 ^ (ex + ey) ==
                inject_Z (Zpos mx) * 2 ^ ex * c).
    { rewrite <- C, Pos2Z.inj_mul, inject_Z_mult, P2_add. ring. }
    rewrite V.
    apply Qabs_Qle_condition in H. destruct H as [H1 H2].
    set (vx := inject_Z (Zpos mx) * 2 ^ ex) in *.
    apply Qabs_le_intro; nra.
  - destruct (setExpAndRound _ _ _ _ _) as [f a]. cbn [fst] in F. subst f.
    eexists. split; [reflexivity|]. cbn [prec neg fform].
    split; [reflexivity|]. split; [reflexivity|].
    exists m', e'. split; [reflexivity|exact R].
Qed.

(** [z.Add(x, y)] for [x] near [tx] and [y] near [ty], of the same sign. *)
Lemma Float_Add_near x y tx ty eps :
  near x tx eps -> near y ty eps -> neg x = neg y ->
  (64 <= result_prec Float_new x y)%Z ->
  0 < tx -> 0 < ty ->
  0 <= eps -> eps <= (1 # 18014398509481984) ->
  (1 # 1048576) <= tx + ty -> tx + ty <= 1180591620717411303424 ->
  exists r, Float_Add Float_new x y = Done r /\
            prec r = result_prec Float_new x y /\
            neg r = neg x /\
            near r (tx + ty) (eps + eta2).
Proof.
  intros (mx & ex & Fx & Hx) (my & ey & Fy & Hy) N Hp X0 Y0 E0 E1 T0 T1.
  rewrite (Float_Add_finite Float_new x y mx ex my ey Fx Fy).
  pose proof (signed_sum_value (neg x) mx ex (neg y) my ey) as V.
  pose proof (finite_value_pos mx ex) as Px. pose proof (finite_value_pos my ey) as Py.
  apply Qabs_Qle_condition in Hx, Hy. destruct Hx as [X1 X2], Hy as [Y1 Y2].
  rewrite <- N in *. unfold signedQ in V.
  set (vx := inject_Z (Zpos mx) * 2 ^ ex) in *.
  set (vy := inject_Z (Zpos my) * 2 ^ ey) in *.
  pose proof (P2_pos (Z.min ex ey)) as Ppos.
  destruct (signed_sum (neg x) mx ex (neg x) my ey) as [|M|M] eqn:ES.
  - exfalso. change (inject_Z 0) with 0 in V. destruct (neg x); lra.
  - assert (Sx : neg x = false).
    { destruct (neg x); [|reflexivity]. exfalso.
      assert (0 < inject_Z (Zpos M) * 2 ^ Z.min ex ey) by apply finite_value_pos. lra. }
    rewrite Sx in V.
    destruct (round_step (result_prec Float_new x y) false M (Z.min ex ey)
                (tx + ty) eps Hp E0 E1 T0 T1) as (m' & e' & F & R).
    { rewrite V. apply Qabs_le_intro; lra. }
    eexists. split; [reflexivity|]. cbn [normalize prec neg fform].
    split; [reflexivity|]. split; [symmetry; exact Sx|].
    exists m', e'. split; [exact F|exact R].
  - assert (Sx : neg x = true).
    { destruct (neg x); [reflexivity|]. exfalso.
      assert (E : inject_Z (Z.neg M) == - inject_Z (Zpos M))
        by (rewrite <- inject_Z_opp; reflexivity).
      rewrite E in V.
      assert (0 < inject_Z (Zpos M) * 2 ^ Z.min ex ey) by apply finite_value_pos. lra. }
    rewrite Sx in V.
    assert (E : inject_Z (Z.neg M) == - inject_Z (Zpos M))
      by (rewrite <- inject_Z_opp; reflexivity).
    rewrite E in V.
    destruct (round_step (result_prec Float_new x y) true M (Z.min ex ey)
                (tx + ty) eps Hp E0 E1 T0 T1) as (m' & e' & F & R).
    { assert (V' : inject_Z (Zpos M) * 2 ^ Z.min ex ey == vx + vy) by lra.
      rewrite V'. apply Qabs_le_intro; lra. }
    eexists. split; [reflexivity|]. cbn [normalize prec neg fform].
    split; [reflexivity|]. split; [symmetry; exact Sx|].
    exists m', e'. split; [exact F|exact R].
Qed.

(** The quotient of two whole numbers, rounded to 64 bits. *)
Lemma uquo_near s u d :
  (Zpos u < 2 ^ 53)%Z -> (Zpos d <= 1024)%Z ->
  exists m e,
    fst (uquo 64 s u 0 d 0) = finite m e /\
    Qabs (inject_Z (Zpos m) * 2 ^ e - inject_Z (Zpos u) / inject_Z (Zpos d))
      <= eta * (inject_Z (Zpos u) / inject_Z (Zpos d)).
Proof.
  intros Hu Hd. unfold uquo.
  set (dd := Z.max 0 (64 + 1 + bitlen d - bitlen u)).
  assert (Hdd : (0 <= dd)%Z) by (unfold dd; lia).
  rewrite Z.shiftl_mul_pow2 by exact Hdd.
  set (xadj := (Zpos u * 2 ^ dd)%Z).
  pose proof (bitlen_spec u) as [U1 U2]. pose proof (bitlen_spec d) as [D1 D2].
  pose proof (bitlen_pos u) as Bu. pose proof (bitlen_pos d) as Bd.
  assert (Pdd : (0 < 2 ^ dd)%Z) by (apply Z.pow_pos_nonneg; lia).
  assert (Big : (Zpos d * 2 ^ 64 <= xadj)%Z).
  { unfold xadj.
    apply Z.le_trans with (2 ^ bitlen d * 2 ^ 64)%Z; [nia|].
    apply Z.le_trans with (2 ^ (bitlen u - 1) * 2 ^ dd)%Z; [|nia].
    rewrite <- !Z.pow_add_r by lia. apply Z.pow_le_mono_r; unfold dd; lia. }
  pose proof (Z.div_mod xadj (Zpos d) ltac:(lia)) as DM.
  pose proof (Z.mod_pos_bound xadj (Zpos d) ltac:(lia)) as MB.
  set (q := (xadj / Zpos d)%Z) in *. set (r := (xadj mod Zpos d)%Z) in *.
  assert (Hq : (2 ^ 64 <= q)%Z) by (unfold q; apply Z.div_le_lower_bound; lia).
  assert (Pq : Zpos (Z.to_pos q) = q) by (apply Z2Pos.id; lia).
  assert (Bq : (64 < bitlen (Z.to_pos q))%Z).
  { destruct (Z.le_gt_cases (bitlen (Z.to_pos q)) 64) as [L|G]; [|lia].
    pose proof (bitlen_spec (Z.to_pos q)) as [_ S2]. rewrite Pq in S2.
    assert (2 ^ bitlen (Z.to_pos q) <= 2 ^ 64)%Z by (apply Z.pow_le_mono_r; lia). lia. }
  replace (0 - 0 - dd)%Z with (- dd)%Z by lia.
  set (U := inject_Z (Zpos u)). set (D := inject_Z (Zpos d)).
  assert (Upos : 0 < U) by (unfold U; change 0 with (inject_Z 0); rewrite <- Zlt_Qlt; lia).
  assert (Dpos : 0 < D) by (unfold D; change 0 with (inject_Z 0); rewrite <- Zlt_Qlt; lia).
  assert (D1024 : D <= 1024)
    by (unfold D; change 1024 with (inject_Z 1024); rewrite <- Zle_Qle; lia).
  assert (U53 : U <= 9007199254740992)
    by (unfold U; change 9007199254740992 with (inject_Z (2 ^ 53)); rewrite <- Zle_Qle; lia).
  assert (U1' : 1 <= U)
    by (unfold U; change 1 with (inject_Z 1); rewrite <- Zle_Qle; lia).
  set (t := U / D).
  assert (TD : t * D == U) by (unfold t; field; lra).
  assert (D1' : 1 <= D)
    by (unfold D; change 1 with (inject_Z 1); rewrite <- Zle_Qle; lia).
  cut (exists m e, fst (setExpAndRound 64 s (Z.to_pos q) (0 - 0 - dd)
                          (negb (r =? 0)%Z)) = finite m e /\
                   Qabs (inject_Z (Zpos m) * 2 ^ e - t) <= eta * t); [intros K; exact K|].
  clearbody t.
  pose proof (P2_pos (- dd)) as Ypos.
  assert (WY : inject_Z (2 ^ dd) * 2 ^ (- dd) == 1).
  { rewrite P2_inject, <- P2_add by lia. replace (dd + - dd)%Z with 0%Z by lia.
    reflexivity. }
  assert (XA : inject_Z xadj == U * inject_Z (2 ^ dd))
    by (unfold xadj, U; rewrite inject_Z_mult; reflexivity).
  assert (QD : inject_Z xadj == inject_Z q * D + inject_Z r).
  { assert (E : xadj = (q * Zpos d + r)%Z) by lia.
    rewrite E at 1. rewrite inject_Z_plus, inject_Z_mult. reflexivity. }
  assert (R0 : 0 <= inject_Z r)
    by (change 0 with (inject_Z 0); rewrite <- Zle_Qle; lia).
  assert (R1 : inject_Z r < D) by (unfold D; rewrite <- Zlt_Qlt; lia).
  assert (Q1 : 1 <= inject_Z q)
    by (change 1 with (inject_Z 1); rewrite <- Zle_Qle; lia).
  set (a := inject_Z q) in *. set (W := inject_Z (2 ^ dd)) in *.
  set (Y := 2 ^ (- dd)) in *. set (rr := inject_Z r) in *. set (xq := inject_Z xadj) in *.
  assert (Wpos : 0 < W) by nra.
  (* t = (a + rr / D) * Y *)
  assert (TY : t * D == (a * D + rr) * Y).
  { rewrite TD, <- QD, XA. rewrite <- Qmult_assoc, WY. ring. }
  assert (Lo : a * Y <= t) by nra.
  assert (Hi : t < (a + 1) * Y) by nra.
  assert (T0 : (1 # 1024) <= t) by nra.
  assert (T1 : t <= 9007199254740992) by nra.
  destruct (setExpAndRound_near 64 s (Z.to_pos q) (- dd) (negb (r =? 0)%Z) t)
    as (m' & e' & F & R).
  - lia.
  - apply gexp_range; rewrite Pq; fold a Y; nra.
  - intros _. exact Bq.
  - rewrite Pq. exact Lo.
  - rewrite Pq, inject_Z_plus. exact Hi.
  - intros S0. apply negb_false_iff, Z.eqb_eq in S0.
    rewrite Pq. fold a Y.
    assert (rr == 0) by (unfold rr; rewrite S0; reflexivity). nra.
  - exists m', e'. split; [exact F|].
    change (2 ^ (-64)) with eta in R. exact R.
Qed.

Import ListNotations.
Local Open Scope Z_scope.

(** * Amounts that stand for whole numbers of the smallest unit *)

Local Open Scope Q_scope.

Lemma near_eq x t t' eps : t == t' -> near x t eps -> near x t' eps.
Proof.
  intros E (m & e & F & H). exists m, e. split; [exact F|]. rewrite <- E. exact H.
Qed.

Lemma inject_pos u : (0 < u)%Z -> 0 < inject_Z u.
Proof. intros. change 0 with (inject_Z 0). rewrite <- Zlt_Qlt. assumption. Qed.

Lemma units_bounds u d :
  (0 < u < 2 ^ 53)%Z -> (0 < d <= 1024)%Z ->
  (1 # 1024) <= inject_Z u / inject_Z d /\
  inject_Z u / inject_Z d <= 9007199254740992.
Proof.
  intros Hu Hd.
  assert (U0 : 1 <= inject_Z u) by (change 1 with (inject_Z 1); rewrite <- Zle_Qle; lia).
  assert (U1 : inject_Z u <= 9007199254740992)
    by (change 9007199254740992 with (inject_Z (2 ^ 53)); rewrite <- Zle_Qle; lia).
  assert (D0 : 1 <= inject_Z d) by (change 1 with (inject_Z 1); rewrite <- Zle_Qle; lia).
  assert (D1 : inject_Z d <= 1024)
    by (change 1024 with (inject_Z 1024); rewrite <- Zle_Qle; lia).
  assert (TD : inject_Z u / inject_Z d * inject_Z d == inject_Z u) by (field; lra).
  set (t := inject_Z u / inject_Z d) in *. clearbody t.
  split; nra.
Qed.

Lemma units_add u1 u2 d :
  (0 < d)%Z ->
  inject_Z u1 / inject_Z d + inject_Z u2 / inject_Z d == inject_Z (u1 + u2) / inject_Z d.
Proof.
  intros Hd. pose proof (inject_pos d Hd). rewrite inject_Z_plus. field. lra.
Qed.

Lemma units_scaled u d :
  (0 < d)%Z -> inject_Z u / inject_Z d * inject_Z d == inject_Z u.
Proof. intros Hd. pose proof (inject_pos d Hd). field. lra. Qed.

Lemma holds_units_mono d sg eps eps' x u :
  (0 <= u < 2 ^ 53)%Z -> (0 < d <= 1024)%Z ->
  eps <= eps' -> holds_units d sg eps x u -> holds_units d sg eps' x u.
Proof.
  intros Hu Hd L (Hp & Hz & Hn). split; [exact Hp|]. split; [exact Hz|].
  intros U0. destruct (Hn U0) as [Hs H]. split; [exact Hs|].
  destruct (units_bounds u d ltac:(lia) Hd) as [B _].
  apply near_mono with eps; [lra|exact L|exact H].
Qed.

(** [NewFromInt]: the amount stands for the units it is given. *)
Lemma NewFromInt_units (sg : bool) u d cur :
  (0 <= u < 2 ^ 53)%Z -> (0 < d <= 1024)%Z ->
  exists pr, NewFromInt (if sg then (- u)%Z else u) d cur = Done pr /\
             currency pr = cur /\ holds_units d sg eta (amount pr) u.
Proof.
  intros Hu Hd. unfold NewFromInt.
  destruct (Z.eqb_spec d 0) as [?|_]; [lia|].
  rewrite !Float_SetInt64_new_form.
  destruct d as [|d'|d']; try lia. change (Z.abs (Zpos d')) with (Zpos d').
  destruct (Z.ltb_spec (Zpos d') 0) as [?|_]; [lia|].
  destruct u as [|u'|u']; try lia.
  - assert (E : (if sg then (- 0)%Z else 0%Z) = 0%Z) by (destruct sg; reflexivity).
    rewrite E. change (Z.abs 0) with 0%Z. unfold Float_Quo. cbn [fform]. rewrite bind_Done.
    eexists. split; [reflexivity|]. split; [reflexivity|].
    split; [reflexivity|]. split; [reflexivity|]. intros H; lia.
  - assert (EA : Z.abs (if sg then (- Zpos u')%Z else Zpos u') = Zpos u')
      by (destruct sg; reflexivity).
    assert (EN : ((if sg then (- Zpos u')%Z else Zpos u') <? 0)%Z = sg)
      by (destruct sg; reflexivity).
    rewrite EA, EN. unfold Float_Quo. cbn [fform neg].
    rewrite result_prec_new. cbn [prec]. change (umax32 64 64) with 64%Z.
    rewrite xorb_false_r.
    destruct (uquo_near sg u' d' ltac:(lia) ltac:(lia)) as (m & e & F & R).
    destruct (uquo 64 sg u' 0 d' 0) as [f a]. cbn [fst] in F. subst f.
    rewrite bind_Done. eexists. split; [reflexivity|]. split; [reflexivity|].
    split; [reflexivity|]. split; [intros H; lia|]. intros _.
    split; [reflexivity|]. exists m, e. split; [reflexivity|exact R].
Qed.

(** Adding two amounts of the same sign. *)
Lemma Float_Add_units d sg eps x y u1 u2 :
  (0 < d <= 1024)%Z ->
  holds_units d sg eps x u1 -> holds_units d sg eps y u2 ->
  (0 <= u1)%Z -> (0 <= u2)%Z -> (u1 + u2 < 2 ^ 53)%Z ->
  0 <= eps -> eps <= (1 # 18014398509481984) ->
  exists r, Float_Add Float_new x y = Done r /\
            holds_units d sg (eps + eta2) r (u1 + u2).
Proof.
  intros Hd (Px & Zx & Nx) (Py & Zy & Ny) H1 H2 Hs E0 E1.
  assert (RP : result_prec Float_new x y = 64%Z)
    by (rewrite result_prec_new, Px, Py; reflexivity).
  assert (Cp : forall w, prec w = 64%Z ->
             fform (Float_Set (with_prec 64 Float_new) w) = fform w /\
             neg (Float_Set (with_prec 64 Float_new) w) = neg w /\
             prec (Float_Set (with_prec 64 Float_new) w) = 64%Z).
  { intros w Pw.
    destruct (Float_Set_copy (with_prec 64 Float_new) w) as (A & B & _ & C).
    - right. cbn [with_prec prec]. lia.
    - split; [exact A|]. split; [exact B|]. rewrite C. reflexivity. }
  assert (E2 : eps <= eps + eta2) by (unfold eta2; lra).
  destruct (Z.eq_dec u1 0) as [Z1|P1]; destruct (Z.eq_dec u2 0) as [Z2|P2].
  - unfold Float_Add. rewrite (Zx Z1), (Zy Z2), RP.
    eexists. split; [reflexivity|]. split; [reflexivity|].
    split; [reflexivity|]. intros; lia.
  - destruct (Ny ltac:(lia)) as [Sy (my & ey & Fy & Hy)].
    unfold Float_Add. rewrite (Zx Z1), Fy, RP.
    destruct (Cp y Py) as (A & B & C).
    eexists. split; [reflexivity|]. split; [exact C|].
    split; [intros; lia|]. intros _. split; [congruence|].
    replace (u1 + u2)%Z with u2 by lia.
    destruct (units_bounds u2 d ltac:(lia) Hd) as [Bd _].
    apply near_mono with eps; [lra|exact E2|].
    exists my, ey. split; [congruence|exact Hy].
  - destruct (Nx ltac:(lia)) as [Sx (mx & ex & Fx & Hx)].
    unfold Float_Add. rewrite (Zy Z2), Fx, RP.
    destruct (Cp x Px) as (A & B & C).
    eexists. split; [reflexivity|]. split; [exact C|].
    split; [intros; lia|]. intros _. split; [congruence|].
    replace (u1 + u2)%Z with u1 by lia.
    destruct (units_bounds u1 d ltac:(lia) Hd) as [Bd _].
    apply near_mono with eps; [lra|exact E2|].
    exists mx, ex. split; [congruence|exact Hx].
  - destruct (Nx ltac:(lia)) as [Sx Hx]. destruct (Ny ltac:(lia)) as [Sy Hy].
    destruct (units_bounds u1 d ltac:(lia) Hd) as [B1 B1'].
    destruct (units_bounds u2 d ltac:(lia) Hd) as [B2 B2'].
    destruct (units_bounds (u1 + u2) d ltac:(lia) Hd) as [B3 B3'].
    pose proof (units_add u1 u2 d ltac:(lia)) as EA.
    destruct (Float_Add_near x y _ _ eps Hx Hy ltac:(congruence) ltac:(lia))
      as (r & R & Pr & Sr & Nr); try lra.
    exists r. split; [exact R|]. split; [lia|].
    split; [intros; lia|]. intros _. split; [congruence|].
    apply near_eq with (inject_Z u1 / inject_Z d + inject_Z u2 / inject_Z d);
      [exact EA|exact Nr].
Qed.

Import ListNotations.
Local Open Scope Z_scope.

Lemma eta2_steps k :
  0 <= k <= 1000 ->
  (0 <= inject_Z k * eta2 /\ inject_Z k * eta2 <= 1 # 18014398509481984 /\
   inject_Z k * eta2 + eta2 == inject_Z (k + 1) * eta2)%Q.
Proof.
  intros H.
  assert (K0 : (0 <= inject_Z k)%Q) by (change 0%Q with (inject_Z 0); rewrite <- Zle_Qle; lia).
  assert (K1 : (inject_Z k <= 1000)%Q)
    by (change 1000%Q with (inject_Z 1000); rewrite <- Zle_Qle; lia).
  rewrite inject_Z_plus. unfold eta2. change (inject_Z 1) with 1%Q.
  split; [|split]; lra.
Qed.

(** [Inverse] of an amount that stands for [u] units. *)
Lemma Inverse_units d sg eps pr u :
  0 <= u < 2 ^ 53 -> 0 < d <= 1024 ->
  (0 <= eps)%Q -> (eps <= 1 # 18014398509481984)%Q ->
  holds_units d sg eps (amount pr) u ->
  exists q, Price_Inverse pr = Done q /\ currency q = currency pr /\
            holds_units d (negb sg) (eps + eta2) (amount q) u.
Proof.
  intros Hu Hd E0 E1 (Hp & Hz & Hn). unfold Price_Inverse.
  rewrite minus_one_form, bind_Done.
  set (m1 := {| prec := 53; acc := Exact; fform := finite 4503599627370496 (-52);
                neg := true |}).
  assert (RP : result_prec Float_new (amount pr) m1 = 64)
    by (rewrite result_prec_new, Hp; reflexivity).
  destruct (Z.eq_dec u 0) as [U0|U0].
  - unfold Float_Mul. rewrite (Hz U0), RP. cbn [fform m1]. rewrite bind_Done.
    eexists. split; [reflexivity|]. split; [reflexivity|].
    split; [reflexivity|]. split; [reflexivity|]. intros; lia.
  - destruct (Hn ltac:(lia)) as [Hs H].
    destruct (units_bounds u d ltac:(lia) Hd) as [B1 B2].
    destruct (Float_Mul_near (amount pr) m1 (inject_Z u / inject_Z d) eps 1
                4503599627370496 (-52) H eq_refl) as (r & R & Pr & Sr & Nr);
      try lra; try lia.
    + reflexivity.
    + rewrite R, bind_Done. eexists. split; [reflexivity|]. split; [reflexivity|].
      cbn [amount]. split; [lia|]. split; [intros; lia|]. intros _.
      split; [rewrite Sr, Hs; cbn [neg m1]; destruct sg; reflexivity|].
      apply near_eq with (inject_Z u / inject_Z d * 1)%Q; [ring|exact Nr].
Qed.

(** An amount that stands for [T] units, scaled by the precision and taken
    to float64: the datum of [T]. *)
Lemma scaled_units d sg eps x T :
  0 <= T < 2 ^ 53 -> 0 < d <= 1024 ->
  (0 <= eps)%Q -> (eps + eta2 <= 1 # 36028797018963968)%Q ->
  holds_units d sg eps x T ->
  exists sc, Float_Mul Float_new x (Float_SetInt64 Float_new d) = Done sc /\
    Float_Float64 sc =
    match T with
    | Zpos n => S754_finite sg (Z.to_pos (Zpos n * 2 ^ (53 - bitlen n))) (bitlen n - 53)
    | _ => S754_zero (neg x)
    end.
Proof.
  intros HT Hd E0 E1 (Hp & Hz & Hn).
  rewrite Float_SetInt64_new_form.
  destruct d as [|d'|d']; try lia. change (Z.abs (Zpos d')) with (Zpos d').
  destruct (Z.ltb_spec (Zpos d') 0) as [?|_]; [lia|].
  set (y := {| prec := 64; acc := Exact; fform := finite d' 0; neg := false |}).
  destruct T as [|n|n]; try lia.
  - unfold Float_Mul. rewrite (Hz eq_refl). cbn [fform y].
    eexists. split; [reflexivity|]. unfold Float_Float64. cbn [fform neg y].
    rewrite xorb_false_r. reflexivity.
  - destruct (Hn ltac:(lia)) as [Hs H].
    destruct (units_bounds (Zpos n) (Zpos d') ltac:(lia) Hd) as [B1 B2].
    pose proof (units_scaled (Zpos n) (Zpos d') ltac:(lia)) as ES.
    assert (N1 : (1 <= inject_Z (Zpos n))%Q)
      by (change 1%Q with (inject_Z 1); rewrite <- Zle_Qle; lia).
    assert (N2 : (inject_Z (Zpos n) <= 9007199254740992)%Q)
      by (change 9007199254740992%Q with (inject_Z (2 ^ 53)); rewrite <- Zle_Qle; lia).
    assert (Ee : (0 <= eta2)%Q) by (unfold eta2; lra).
    destruct (Float_Mul_near x y (inject_Z (Zpos n) / inject_Z (Zpos d')) eps
                (inject_Z (Zpos d')) d' 0 H eq_refl) as (r & R & Pr & Sr & Nr).
    + apply Qpower_2_0.
    + rewrite result_prec_new, Hp. cbn [prec y]. change (umax32 64 64) with 64. lia.
    + exact E0.
    + unfold eta2 in E1. lra.
    + rewrite ES. lra.
    + rewrite ES. lra.
    + exists r. split; [exact R|].
      destruct Nr as (m & e & F & Hm). unfold Float_Float64. rewrite F.
      rewrite Sr, Hs. cbn [neg y]. rewrite xorb_false_r.
      apply f64_round_near; [lia|].
      rewrite ES in Hm.
      apply Qle_trans with ((eps + eta2) * inject_Z (Zpos n))%Q; [exact Hm|].
      apply Qmult_le_compat_r; lra.
Qed.

Import ListNotations.
Local Open Scope Z_scope.

Lemma mapM_Forall2 {A B} (f : A -> outcome B) l : forall r,
  mapM f l = Done r -> Forall2 (fun a b => f a = Done b) l r.
Proof.
  induction l as [|a l IH]; intros r H; cbn [mapM] in H.
  - injection H as <-. constructor.
  - destruct (f a) as [b|] eqn:Fa; [|discriminate]. rewrite bind_Done in H.
    destruct (mapM f l) as [bs|] eqn:Fl; [|discriminate]. rewrite bind_Done in H.
    injection H as <-. constructor; [exact Fa|apply IH; reflexivity].
Qed.

Lemma Clone_units d sg eps p u :
  holds_units d sg eps (amount p) u ->
  holds_units d sg eps (amount (Price_Clone p)) u /\
  currency (Price_Clone p) = currency p.
Proof.
  intros (Hp & Hz & Hn).
  destruct (Float_Set_copy Float_new (amount p) (or_introl eq_refl)) as (F & N & _ & P).
  unfold Price_Clone. cbn [amount currency]. split; [|reflexivity].
  split; [rewrite P; exact Hp|]. split.
  - intros U0. rewrite F. apply Hz. exact U0.
  - intros U0. destruct (Hn U0) as [Hs (m & e & Fm & H)].
    split; [congruence|]. exists m, e. split; [congruence|exact H].
Qed.

(** The sum of amounts that stand for whole units stands for the sum of the
    units, with one more rounding for every addition. *)
Lemma SumAll_loop_units d sg cur : forall prices us acc a k,
  0 < d <= 1024 ->
  Forall2 (fun u pr => currency pr = cur /\ holds_units d sg eta (amount pr) u /\ 0 <= u)
          us prices ->
  currency acc = cur ->
  holds_units d sg (inject_Z k * eta2) (amount acc) a ->
  0 <= a -> 1 <= k -> k + Z.of_nat (List.length us) <= 1000 ->
  a + sumZ us < 2 ^ 53 ->
  exists total,
    SumAll_loop acc prices = Done (total, None) /\ currency total = cur /\
    holds_units d sg (inject_Z (k + Z.of_nat (List.length us)) * eta2)
                (amount total) (a + sumZ us).
Proof.
  induction prices as [|pr prices IH]; intros us acc a k Hd F Cacc Hacc Ha Hk Hlen Hsum.
  - destruct us as [|u us']; [|inversion F].
    exists acc. cbn [SumAll_loop sumZ fold_right List.length].
    split; [reflexivity|]. split; [exact Cacc|].
    rewrite !Z.add_0_r. exact Hacc.
  - destruct us as [|u us']; [inversion F|].
    apply Forall2_cons_iff in F. destruct F as [(Cpr & Hpr & Hu) F'].
    cbn [List.length sumZ fold_right] in *. fold (sumZ us') in *.
    assert (S0 : 0 <= sumZ us').
    { clear - F'. induction F' as [|? ? ? ? (_ & _ & ?) ? IH']; cbn [sumZ fold_right]; [lia|].
      fold (sumZ l). lia. }
    destruct (eta2_steps k ltac:(lia)) as (E0 & E1 & E2).
    assert (Hpr' : holds_units d sg (inject_Z k * eta2) (amount pr) u).
    { apply holds_units_mono with eta; [lia|exact Hd| |exact Hpr].
      assert (K1 : (1 <= inject_Z k)%Q)
        by (change 1%Q with (inject_Z 1); rewrite <- Zle_Qle; lia).
      unfold eta, eta2. lra. }
    destruct (Float_Add_units d sg _ (amount acc) (amount pr) a u Hd Hacc Hpr'
                Ha Hu ltac:(lia) E0 E1) as (r & R & Hr).
    cbn [SumAll_loop]. unfold Price_Add, Price_currencyGuard.
    rewrite Cacc, Cpr, String.eqb_refl, !bind_Done. cbn [Price_blank amount currency].
    rewrite R, !bind_Done.
    destruct (IH us' {| amount := r; currency := cur |} (a + u) (k + 1) Hd F' eq_refl)
      as (total & T & Ct & Ht); try lia.
    + cbn [amount]. apply holds_units_mono with (inject_Z k * eta2 + eta2)%Q;
        [lia|exact Hd|rewrite E2; apply Qle_refl|exact Hr].
    + exists total. split; [exact T|]. split; [exact Ct|].
      replace (k + Z.of_nat (S (List.length us'))) with (k + 1 + Z.of_nat (List.length us'))
        by lia.
      replace (a + (u + sumZ us')) with (a + u + sumZ us') by lia. exact Ht.
Qed.

Lemma SumAll_units d sg cur prices us :
  0 < d <= 1024 ->
  Forall2 (fun u pr => currency pr = cur /\ holds_units d sg eta (amount pr) u /\ 0 <= u)
          us prices ->
  1 <= Z.of_nat (List.length us) <= 1000 ->
  sumZ us < 2 ^ 53 ->
  exists total,
    SumAll prices = Done (total, None) /\ currency total = cur /\
    holds_units d sg (inject_Z (Z.of_nat (List.length us)) * eta2)
                (amount total) (sumZ us).
Proof.
  intros Hd F Hl Hs. destruct F as [|u pr us prices (Cpr & Hpr & Hu) F]; [cbn in Hl; lia|].
  cbn [SumAll List.length sumZ fold_right] in *. fold (sumZ us) in *.
  destruct (Clone_units d sg eta pr u Hpr) as [Hc Cc].
  destruct (SumAll_loop_units d sg cur prices us (Price_Clone pr) u 1 Hd F
              ltac:(congruence)) as (total & T & Ct & Ht); try lia.
  - apply holds_units_mono with eta; [|exact Hd| |exact Hc].
    + assert (0 <= sumZ us).
      { clear - F. induction F as [|? ? ? ? (_ & _ & ?) ? IH']; cbn [sumZ fold_right]; [lia|].
        fold (sumZ l). lia. }
      lia.
    + unfold eta, eta2. change (inject_Z 1) with 1%Q. lra.
  - exists total. split; [exact T|]. split; [exact Ct|].
    replace (Z.of_nat (S (List.length us))) with (1 + Z.of_nat (List.length us)) by lia.
    exact Ht.
Qed.

Import ListNotations.
Local Open Scope Z_scope.

(** * SplitInPayables: the parts and their sum *)

Lemma split_units_le t count u :
  0 <= t -> 1 <= count -> In u (split_units t count) -> 0 <= u <= t.
Proof.
  intros Ht Hc Hu. unfold split_units in Hu.
  pose proof (Z.mod_pos_bound t count ltac:(lia)) as Hm.
  pose proof (Z.div_mod t count ltac:(lia)) as Hd.
  assert (0 <= t / count) by (apply Z.div_pos; lia).
  apply in_app_or in Hu. destruct Hu as [Hu|Hu].
  - apply list_elem_of_In, elem_of_replicate in Hu. destruct Hu as [-> Hn].
    assert (0 < t mod count) by lia. nia.
  - apply list_elem_of_In, elem_of_replicate in Hu. destruct Hu as [-> Hn]. nia.
Qed.

Lemma Forall2_impl_in {A B} (R R' : A -> B -> Prop) l l' :
  Forall2 R l l' -> (forall a b, In a l -> R a b -> R' a b) -> Forall2 R' l l'.
Proof.
  induction 1 as [|a b l l' H F IH]; intros K; constructor.
  - apply K; [left; reflexivity|exact H].
  - apply IH. intros a' b' I. apply K. right. exact I.
Qed.

Lemma Forall2_length_eq {A B} (R : A -> B -> Prop) l l' :
  Forall2 R l l' -> List.length l' = List.length l.
Proof. induction 1; cbn [List.length]; congruence. Qed.

Lemma Forall2_Forall_r {A B} (R : A -> B -> Prop) (P : B -> Prop) l l' :
  Forall2 R l l' -> (forall a b, R a b -> P b) -> Forall P l'.
Proof. induction 1; intros K; constructor; eauto. Qed.

(** Whether an amount is below zero, on its sign and form. *)
Lemma is_negative_spec x :
  (Float_Cmp x {| prec := 53; acc := Exact; fform := zero; neg := false |} =? -1) =
  neg x && match fform x with zero => false | _ => true end.
Proof.
  unfold Float_Cmp, ord. cbn [fform neg].
  destruct (fform x), (neg x); reflexivity.
Qed.

(** The integer a rounded float64 truncates to has the sign it was given. *)
Lemma trunc_sign s m e n :
  f64_trunc (f64_round s m e) = Some n -> if s then n <= 0 else 0 <= n.
Proof.
  unfold f64_round, binary_round.
  destruct (shl_align _ _ _) as [mz ez].
  unfold binary_round_aux.
  destruct (shr_fexp _ _ _ _ _) as [mrs e'].
  destruct (shr_fexp _ _ _ _ _) as [mrs' e''].
  destruct (shr_m mrs') as [|q|q]; cbn [f64_trunc].
  - intros H. injection H as <-. destruct s; lia.
  - destruct (e'' <=? f64_emax - f64_prec); cbn [f64_trunc]; [|discriminate].
    intros H. injection H as <-.
    assert (0 <= (if 0 <=? e'' then Z.shiftl (Zpos q) e'' else Z.shiftr (Zpos q) (- e''))).
    { destruct (0 <=? e''); [apply Z.shiftl_nonneg|apply Z.shiftr_nonneg]; lia. }
    destruct s; lia.
  - discriminate.
Qed.

Lemma Float64_sign x n :
  f64_trunc (Float_Float64 x) = Some n -> if neg x then n <= 0 else 0 <= n.
Proof.
  unfold Float_Float64. destruct (fform x).
  - cbn [f64_trunc]. intros H. injection H as <-. destruct (neg x); lia.
  - apply trunc_sign.
  - discriminate.
Qed.

Lemma datum_int64 sg T s0 f :
  0 <= T < 2 ^ 53 ->
  f = match T with
      | Zpos n => S754_finite sg (Z.to_pos (Zpos n * 2 ^ (53 - bitlen n))) (bitlen n - 53)
      | _ => S754_zero s0
      end ->
  (exists s, snd (math_Modf f) = S754_zero s) /\
  f64_trunc f = Some (if sg then - T else T) /\
  f64_ge f (f64_of_Z MaxInt64) = false.
Proof.
  intros HT ->. destruct T as [|n|n]; try lia.
  - split; [exists s0; reflexivity|].
    split; [destruct sg; reflexivity|destruct s0; reflexivity].
  - destruct (Modf_whole sg n ltac:(lia)) as (A & B & C).
    split; [exists sg; exact A|]. split; [exact B|exact C].
Qed.

Section SplitSum.

Variable cvt_overflow : float64 -> Z.
Variable unicode_ToLower : string -> string.

Lemma int64_of_trunc f n :
  f64_trunc f = Some n -> in_int64 n = true -> int64_of_f64 cvt_overflow f = n.
Proof. intros T R. unfold int64_of_f64. rewrite T, R. reflexivity. Qed.

Lemma policy_by_currency a b :
  currency a = currency b ->
  Price_payableRoundingPrecision unicode_ToLower a =
  Price_payableRoundingPrecision unicode_ToLower b.
Proof. intros E. unfold Price_payableRoundingPrecision. rewrite E. reflexivity. Qed.

Lemma policy_precision_range p :
  0 < snd (Price_payableRoundingPrecision unicode_ToLower p) <= 1024.
Proof. unfold Price_payableRoundingPrecision. destruct (_ || _); cbn [snd]; lia. Qed.

Lemma in_int64_53 n : Z.abs n < 2 ^ 53 -> in_int64 n = true.
Proof.
  intros H. unfold in_int64, MinInt64, MaxInt64.
  apply andb_true_intro. split; apply Z.leb_le; lia.
Qed.

(** Rounding an amount that stands for [T] whole units gives [T] units. *)
Lemma GetPayableByRoundingMode_units q mode d sg eps T :
  0 <= T < 2 ^ 53 -> 0 < d <= 1024 ->
  (0 <= eps)%Q -> (eps + eta2 <= 1 # 36028797018963968)%Q ->
  holds_units d sg eps (amount q) T ->
  Price_GetPayableByRoundingMode cvt_overflow q mode d =
  NewFromInt (if sg then - T else T) d (currency q).
Proof.
  intros HT Hd E0 E1 H.
  destruct (scaled_units d sg eps (amount q) T HT Hd E0 E1 H) as (sc & M & F).
  destruct (datum_int64 sg T (neg (amount q)) _ HT F) as ((s & D1) & D2 & D3).
  assert (R : in_int64 (if sg then - T else T) = true)
    by (apply in_int64_53; destruct sg; lia).
  rewrite (GetPayableByRoundingMode_unfold cvt_overflow q mode d sc M D3).
  - rewrite (int64_of_Modf cvt_overflow _ _ D2 R). unfold NewFromInt.
    destruct (Z.eqb_spec d 0) as [?|_]; [lia|]. reflexivity.
  - rewrite D1.
    match goal with
    | |- mode_increments _ ?n (valueAfterPrecision_of _ _) = false =>
        destruct (valueAfterPrecision_of_zero s n) as [s' ->];
        [destruct (Float_Cmp _ _ =? -1); auto|apply mode_increments_zero]
    end.
Qed.

(** The payable amount of [p] as a whole number of units, from the integer
    its scaled amount truncates to. *)
Lemma GetPayable_units p scaled n0 :
  Float_Mul Float_new (amount p)
    (Float_SetInt64 Float_new (snd (Price_payableRoundingPrecision unicode_ToLower p)))
    = Done scaled ->
  f64_trunc (Float_Float64 scaled) = Some n0 -> Z.abs n0 < 2 ^ 53 - 1 ->
  f64_ge (Float_Float64 scaled) (f64_of_Z MaxInt64) = false ->
  exists N,
    Price_GetPayable cvt_overflow unicode_ToLower p =
      NewFromInt N (snd (Price_payableRoundingPrecision unicode_ToLower p)) (currency p) /\
    Z.abs (N - n0) <= 1 /\
    (N < 0 -> (Float_Cmp (amount p) {| prec := 53; acc := Exact; fform := zero; neg := false |}
               =? -1) = true) /\
    (0 < N -> (Float_Cmp (amount p) {| prec := 53; acc := Exact; fform := zero; neg := false |}
               =? -1) = false).
Proof.
  intros HM HT HB HG.
  pose proof (policy_precision_range p) as Hd.
  unfold Price_GetPayable.
  destruct (Price_payableRoundingPrecision unicode_ToLower p) as [mode d]. cbn [snd] in *.
  unfold Price_GetPayableByRoundingMode.
  rewrite Price_IsNegative_Done, bind_Done.
  unfold Float_Copy, Price_precisionF. rewrite HM, bind_Done.
  pose proof (int64_of_Modf cvt_overflow _ _ HT (in_int64_53 n0 ltac:(lia))) as HI.
  destruct (math_Modf (Float_Float64 scaled)) as [ip fp]. cbn [fst] in HI.
  rewrite HG, HI.
  set (isneg := Float_Cmp (amount p) {| prec := 53; acc := Exact; fform := zero; neg := false |}
                =? -1).
  set (negative := if isneg then -1 else 1).
  set (inc := mode_increments mode negative _).
  (* the sign of [n0] is the sign of the amount *)
  pose proof (Float64_sign scaled n0 HT) as Sg.
  assert (Ns : neg scaled = neg (amount p)).
  { revert HM. rewrite Float_SetInt64_new_form. unfold Float_Mul. cbn [fform neg].
    destruct (Z.ltb_spec d 0) as [?|_]; [lia|]. rewrite xorb_false_r.
    destruct (fform (amount p)), (match Z.abs d with Zpos u => finite u 0 | _ => zero end);
      try discriminate;
      try (intros H; injection H as <-; reflexivity).
    destruct (setExpAndRound _ _ _ _ _). intros H; injection H as <-. reflexivity. }
  rewrite Ns in Sg.
  assert (Zn : fform (amount p) = zero -> n0 = 0).
  { intros Fz. revert HM HT. rewrite Float_SetInt64_new_form. unfold Float_Mul. rewrite Fz.
    cbn [fform].
    destruct (match Z.abs d with Zpos u => finite u 0 | _ => zero end);
      try discriminate.
    - intros H; injection H as <-. unfold Float_Float64. cbn [fform f64_trunc]. congruence.
    - intros H; injection H as <-. unfold Float_Float64. cbn [fform f64_trunc]. congruence. }
  pose proof (is_negative_spec (amount p)) as IS. fold isneg in IS.
  set (N := if inc then wrap64 (n0 + negative) else n0).
  assert (EN : N = if inc then n0 + negative else n0).
  { unfold N. destruct inc; [|reflexivity]. apply wrap64_id, in_int64_53.
    unfold negative. destruct isneg; lia. }
  exists N. split.
  - unfold NewFromInt. destruct (Z.eqb_spec d 0) as [?|_]; [lia|]. reflexivity.
  - rewrite EN. unfold negative.
    destruct isneg eqn:EI.
    + symmetry in IS. apply andb_prop in IS. destruct IS as [Sn _]. rewrite Sn in Sg.
      destruct inc; repeat split; intros; try reflexivity; lia.
    + assert (0 <= n0).
      { destruct (neg (amount p)); [|exact Sg]. cbn [andb] in IS.
        destruct (fform (amount p)) eqn:Ff; try discriminate.
        rewrite (Zn eq_refl). lia. }
      destruct inc; repeat split; intros; try reflexivity; lia.
Qed.

(** What SplitInPayables reads back from the payable amount: its
    magnitude in units. *)
Lemma payable_units_of p N :
  Z.abs N < 2 ^ 53 ->
  Price_GetPayable cvt_overflow unicode_ToLower p =
    NewFromInt N (snd (Price_payableRoundingPrecision unicode_ToLower p)) (currency p) ->
  (N < 0 -> (Float_Cmp (amount p) {| prec := 53; acc := Exact; fform := zero; neg := false |}
             =? -1) = true) ->
  (0 < N -> (Float_Cmp (amount p) {| prec := 53; acc := Exact; fform := zero; neg := false |}
             =? -1) = false) ->
  payable_units cvt_overflow unicode_ToLower p = Done (Z.abs N).
Proof.
  intros HN HG Hneg Hpos.
  pose proof (policy_precision_range p) as Hd.
  unfold payable_units.
  destruct (Price_payableRoundingPrecision unicode_ToLower p) as [mode d]. cbn [snd] in *.
  destruct (NewFromInt_units (N <? 0) (Z.abs N) d (currency p) ltac:(lia) Hd)
    as (pr & Hpr & Cpr & Upr).
  assert (EN : (if N <? 0 then - Z.abs N else Z.abs N) = N)
    by (destruct (Z.ltb_spec N 0); lia).
  rewrite EN in Hpr. rewrite HG, Hpr, !bind_Done.
  rewrite Price_IsNegative_Done, bind_Done.
  set (isneg := Float_Cmp (amount p) {| prec := 53; acc := Exact; fform := zero; neg := false |}
                =? -1) in *.
  assert (Ee : (0 <= eta)%Q) by (unfold eta; lra).
  assert (Ee2 : (eta <= 1 # 18014398509481984)%Q) by (unfold eta; lra).
  unfold Price_precisionF.
  destruct isneg eqn:EI.
  - (* the payable amount is inverted *)
    assert (N0 : N <= 0).
    { destruct (Z.le_gt_cases N 0) as [L|G]; [exact L|]. specialize (Hpos G). discriminate. }
    rewrite ?bind_Done.
    destruct (Inverse_units d (N <? 0) eta pr (Z.abs N) ltac:(lia) Hd Ee Ee2 Upr)
      as (q & Hq & Cq & Uq).
    rewrite Hq, ?bind_Done. unfold Price_Amount.
    destruct (scaled_units d (negb (N <? 0)) (eta + eta2) (amount q) (Z.abs N)
                ltac:(lia) Hd) as (sc & M & F); [unfold eta, eta2; lra..|exact Uq|].
    rewrite M, bind_Done.
    destruct (datum_int64 (negb (N <? 0)) (Z.abs N) (neg (amount q)) _ ltac:(lia) F)
      as (_ & D2 & _).
    f_equal. rewrite (int64_of_trunc _ _ D2).
    + destruct (Z.ltb_spec N 0); cbn [negb]; lia.
    + apply in_int64_53. destruct (negb (N <? 0)); lia.
  - assert (N0 : 0 <= N).
    { destruct (Z.le_gt_cases 0 N) as [L|G]; [exact L|]. specialize (Hneg G). discriminate. }
    rewrite ?bind_Done. unfold Price_Amount.
    destruct (scaled_units d (N <? 0) eta (amount pr) (Z.abs N) ltac:(lia) Hd)
      as (sc & M & F); [unfold eta, eta2; lra..|exact Upr|].
    rewrite M, bind_Done.
    destruct (datum_int64 (N <? 0) (Z.abs N) (neg (amount pr)) _ ltac:(lia) F)
      as (_ & D2 & _).
    f_equal. rewrite (int64_of_trunc _ _ D2).
    + destruct (Z.ltb_spec N 0); lia.
    + apply in_int64_53. destruct (N <? 0); lia.
Qed.

End SplitSum.

Import ListNotations.
Local Open Scope Z_scope.

Section SplitInPayables.

Variable cvt_overflow : float64 -> Z.
Variable unicode_ToLower : string -> string.


End SplitInPayables.

Import ListNotations.
Local Open Scope Z_scope.



Import ListNotations.
Local Open Scope Z_scope.



